(** * dtsgenerator: schema normalisation, OpenAPI synthesis and type emission

    A shallow embedding of [src/core/dtsGenerator.ts] and [src/core/schema.ts].

    JavaScript objects are mutable and shared, and the generator relies on
    that (normalisation rewrites schema content in place, the request wrapper
    of an operation is one object referenced from several schemas).  Objects
    therefore live in a heap and values refer to them by location.  Arrays of
    schema content are never updated in place by the two files (they are only
    rebuilt with [concat]), so they are immutable values here. *)

From Stdlib Require Import ZArith Ascii.
From stdpp Require Import base option list strings pretty sorting relations.

(** ** JavaScript values and the object heap

    The numbers of the model are the integers: [VNum n] is the number with
    the value [n].  Numbers with a fraction are not represented, and the
    operations on numbers are exact, as they are in JavaScript for the
    integers of magnitude below 2^53.  Strings are byte strings holding
    UTF-8. *)

Definition loc := nat.

#[warnings="-register-all"]
Inductive val : Type :=
| VUndef
| VNull
| VBool (b : bool)
| VNum (n : Z)
| VStr (s : string)
| VArr (vs : list val)
| VObj (l : loc).

(** An object: its string-keyed own properties in insertion order, and
    whether it carries the symbol-keyed property [openAPIV3Operation] of
    schema.ts (whose value is always [null]). *)
Record object : Type := Object {
  props : list (string * val);
  opSym : bool;
}.

Abbreviation heap := (list object).

Section val_induction.
Variable P : val → Prop.
Hypothesis Hundef : P VUndef.
Hypothesis Hnull : P VNull.
Hypothesis Hbool : ∀ b, P (VBool b).
Hypothesis Hnum : ∀ n, P (VNum n).
Hypothesis Hstr : ∀ s, P (VStr s).
Hypothesis Harr : ∀ vs, Forall P vs → P (VArr vs).
Hypothesis Hobj : ∀ l, P (VObj l).

Fixpoint val_ind' (v : val) : P v :=
  match v with
  | VUndef => Hundef
  | VNull => Hnull
  | VBool b => Hbool b
  | VNum n => Hnum n
  | VStr s => Hstr s
  | VArr vs =>
      Harr vs ((fix go (l : list val) : Forall P l :=
                  match l with
                  | [] => Forall_nil_2 P
                  | x :: l' => Forall_cons_2 P x l' (val_ind' x) (go l')
                  end) vs)
  | VObj l => Hobj l
  end.
End val_induction.

Fixpoint val_beq (x y : val) : bool :=
  match x, y with
  | VUndef, VUndef | VNull, VNull => true
  | VBool a, VBool b => bool_decide (a = b)
  | VNum a, VNum b => bool_decide (a = b)
  | VStr a, VStr b => bool_decide (a = b)
  | VArr xs, VArr ys =>
      (fix go (xs ys : list val) : bool :=
         match xs, ys with
         | [], [] => true
         | x :: xs', y :: ys' => val_beq x y && go xs' ys'
         | _, _ => false
         end) xs ys
  | VObj a, VObj b => bool_decide (a = b)
  | _, _ => false
  end.

(** ** Schema identifiers and schemas (schema.ts) *)

Inductive SchemaType := Draft04 | Draft07.

(** [new SchemaId(inputId, parentIds)]; the second argument is optional. *)
Record SchemaId : Type := mkSchemaId {
  inputId : string;
  parentIds : option (list string);
}.

#[warnings="-register-all"]
Inductive Schema : Type := mkSchema {
  s_type : SchemaType;
  s_openApiVersion : option nat;
  s_id : SchemaId;
  s_content : val;
  s_rootSchema : option Schema;
}.

(** A node of the namespace tree built by SchemaConvertor.buildSchemaMergedMap:
    the schema stored under the symbol [typeMarker], when there is one, and
    the string-keyed children in insertion order. *)
#[warnings="-register-all"]
Inductive node : Type :=
| Node (marker : option Schema) (children : list (string * node)).

Definition with_content (schema : Schema) (content : val) : Schema :=
  mkSchema (s_type schema) (s_openApiVersion schema) (s_id schema) content
           (s_rootSchema schema).

Definition with_id (schema : Schema) (id : SchemaId) : Schema :=
  mkSchema (s_type schema) (s_openApiVersion schema) id (s_content schema)
           (s_rootSchema schema).

(** ** Calls made to the collaborators

    SchemaConvertor is not part of the two files; the emitter's output is the
    sequence of calls it makes to it.  Optional arguments that a call site
    leaves out are recorded as [None]. *)
Inductive call : Type :=
| Start
| End_
| StartNest (key : string)
| EndNest
| OutputComments (schema : Schema)
| OutputExportType (id : SchemaId)
| StartInterfaceNest (id : SchemaId)
| EndInterfaceNest
| OutputRawValue (value : string) (isEndOfLine : option bool)
| OutputStringTypeName (schema : Schema) (name : string) (terminate : bool)
    (outputOptional : option bool)
| OutputPrimitiveTypeName (schema : Schema) (tsType : string) (terminate : bool)
    (outputOptional : bool)
| OutputTypeIdName (schema : Schema) (current : option Schema) (terminate : bool)
| OutputPropertyAttribute (schema : Schema)
| OutputPropertyName (schema : Schema) (propertyName : string) (required : val)
| OutputArrayedTypeBegin (schema : Schema) (size : nat) (terminate : bool)
| OutputArrayedTypeNext
| OutputArrayedTypeEnd (schema : Schema) (terminate : bool)
| StartTypeNest
| EndTypeNest (terminate : bool)
| OnFoundSchema (subSchema : Schema)
| OnFoundReference (refId : SchemaId).

(** ** Machine state and the generator monad *)

Record state : Type := State {
  st_heap : heap;
  st_schemas : list (string * Schema);   (* resolver: registered schemas *)
  st_references : list SchemaId;         (* resolver: referenced ids *)
  st_current : option Schema;            (* DtsGenerator.currentSchema *)
  st_calls : list call;                  (* calls made so far, oldest first *)
}.

Definition set_heap (h : heap) (s : state) : state :=
  State h (st_schemas s) (st_references s) (st_current s) (st_calls s).
Definition set_schemas (r : list (string * Schema)) (s : state) : state :=
  State (st_heap s) r (st_references s) (st_current s) (st_calls s).
Definition set_references (r : list SchemaId) (s : state) : state :=
  State (st_heap s) (st_schemas s) r (st_current s) (st_calls s).
Definition set_current (c : option Schema) (s : state) : state :=
  State (st_heap s) (st_schemas s) (st_references s) c (st_calls s).
Definition set_calls (c : list call) (s : state) : state :=
  State (st_heap s) (st_schemas s) (st_references s) (st_current s) c.

(** Exceptions.  [IllTyped] marks an input outside the TypeScript types the
    source declares, where the behaviour of the JavaScript is not modelled. *)
Inductive exn : Type :=
| Error (message : string)
| TypeError (message : string)
| IllTyped (what : string).

Inductive result (A : Type) : Type :=
| Ok (a : A) (s : state)
| Throw (e : exn) (s : state)
| OutOfFuel.
Arguments Ok {A} a s.
Arguments Throw {A} e s.
Arguments OutOfFuel {A}.

Definition M (A : Type) : Type := state → result A.

#[global] Instance M_ret : MRet M := λ A a s, Ok a s.
#[global] Instance M_bind : MBind M := λ A B f m s,
  match m s with
  | Ok a s' => f a s'
  | Throw e s' => Throw e s'
  | OutOfFuel => OutOfFuel
  end.

Definition throw {A} (e : exn) : M A := λ s, Throw e s.
Definition out_of_fuel {A} : M A := λ _, OutOfFuel.
Definition get_state : M state := λ s, Ok s s.
Definition modify (f : state → state) : M unit := λ s, Ok tt (f s).
Definition emit (c : call) : M unit :=
  modify (λ s, set_calls (st_calls s ++ [c]) s).

(** The state a computation ends in, when it ends. *)
Definition final_state {A} (r : result A) : option state :=
  match r with
  | Ok _ s | Throw _ s => Some s
  | OutOfFuel => None
  end.

(** [for (const x of xs) body(x)] *)
Fixpoint for_of {A} (xs : list A) (body : A → M unit) : M unit :=
  match xs with
  | [] => mret tt
  | x :: xs' => body x;; for_of xs' body
  end.

(** A loop that updates a local variable: [for (const x of xs) acc = body(acc, x)],
    also [xs.reduce(body, init)]. *)
Fixpoint fold_of {A S} (xs : list A) (acc : S) (body : S → A → M S) : M S :=
  match xs with
  | [] => mret acc
  | x :: xs' => acc ← body acc x; fold_of xs' acc body
  end.

(** [n] iterations of [body(i); i++] *)
Fixpoint for_count (n : nat) (i : Z) (body : Z → M unit) : M unit :=
  match n with
  | O => mret tt
  | S n' => body i;; for_count n' (i + 1)%Z body
  end.

(** [for (let i = lo; i <= hi; i++) body(i)], [body] not assigning [i] *)
Definition for_upto (lo hi : Z) (body : Z → M unit) : M unit :=
  for_count (Z.to_nat (hi - lo + 1)) lo body.

(** [for (let i = lo; i < hi; i++) body(i)] *)
Definition for_below (lo hi : Z) (body : Z → M unit) : M unit :=
  for_count (Z.to_nat (hi - lo)) lo body.

(** ** JavaScript primitives *)

Definition truthy (v : val) : bool :=
  match v with
  | VUndef | VNull => false
  | VBool b => b
  | VNum n => negb (n =? 0)%Z
  | VStr s => negb (String.eqb s "")
  | VArr _ | VObj _ => true
  end.

(** [v == null] *)
Definition nullish (v : val) : bool :=
  match v with VUndef | VNull => true | _ => false end.

(** [v === undefined] *)
Definition is_undefined (v : val) : bool :=
  match v with VUndef => true | _ => false end.

(** [Array.isArray(v)] *)
Definition isArray (v : val) : bool :=
  match v with VArr _ => true | _ => false end.

Inductive jstype := TUndefined | TObject | TBoolean | TNumber | TString.

#[global] Instance jstype_eq_dec : EqDecision jstype.
Proof. solve_decision. Defined.

Definition typeof (v : val) : jstype :=
  match v with
  | VUndef => TUndefined
  | VNull | VArr _ | VObj _ => TObject
  | VBool _ => TBoolean
  | VNum _ => TNumber
  | VStr _ => TString
  end.

(** [v === "s"] *)
Definition is_str (v : val) (s : string) : bool :=
  match v with VStr s' => String.eqb s' s | _ => false end.

(** Own properties are kept in insertion order; assigning to an existing
    key keeps its place. *)
Fixpoint assoc_get {A} (k : string) (l : list (string * A)) : option A :=
  match l with
  | [] => None
  | (k', v) :: l' => if String.eqb k' k then Some v else assoc_get k l'
  end.

Fixpoint assoc_set {A} (k : string) (v : A) (l : list (string * A))
  : list (string * A) :=
  match l with
  | [] => [(k, v)]
  | (k', v') :: l' =>
      if String.eqb k' k then (k', v) :: l' else (k', v') :: assoc_set k v l'
  end.

Fixpoint assoc_del {A} (k : string) (l : list (string * A))
  : list (string * A) :=
  match l with
  | [] => []
  | (k', v') :: l' =>
      if String.eqb k' k then assoc_del k l' else (k', v') :: assoc_del k l'
  end.

(** The element of an array named by a property key: the index [i] whose
    decimal form is [k]. *)
Definition array_index (n : nat) (k : string) : option nat :=
  list_find (λ i, pretty i = k) (seq 0 n) ≫= λ p, Some (snd p).

Definition array_get (vs : list val) (k : string) : val :=
  if String.eqb k "length" then VNum (Z.of_nat (length vs))
  else default VUndef (array_index (length vs) k ≫= λ i, vs !! i).

Definition lookup_obj (l : loc) : M object := λ s,
  match st_heap s !! l with
  | Some o => Ok o s
  | None => Throw (IllTyped "dangling object reference") s
  end.

(** [{ ... }]: a new object *)
Definition alloc (o : object) : M val := λ s,
  Ok (VObj (length (st_heap s))) (set_heap (st_heap s ++ [o]) s).

Definition new_object (ps : list (string * val)) : M val :=
  alloc (Object ps false).

(** [v[k]] *)
Definition get (v : val) (k : string) : M val :=
  match v with
  | VObj l => o ← lookup_obj l; mret (default VUndef (assoc_get k (props o)))
  | VArr vs => mret (array_get vs k)
  | VStr s =>
      mret (if String.eqb k "length" then VNum (Z.of_nat (String.length s))
            else match array_index (String.length s) k ≫= λ i, String.get i s with
                 | Some c => VStr (String c EmptyString)
                 | None => VUndef
                 end)
  | VUndef | VNull => throw (TypeError ("Cannot read property " +:+ k))
  | VBool _ | VNum _ => mret VUndef
  end.

Definition store (l : loc) (o : object) : M unit :=
  modify (λ s, set_heap (<[l := o]> (st_heap s)) s).

(** [v[k] = x] *)
Definition set (v : val) (k : string) (x : val) : M unit :=
  match v with
  | VObj l =>
      o ← lookup_obj l; store l (Object (assoc_set k x (props o)) (opSym o))
  | VUndef | VNull => throw (TypeError ("Cannot set property " +:+ k))
  | _ => throw (IllTyped "assignment to a property of a primitive or array")
  end.

(** [delete v[k]] *)
Definition delete_prop (v : val) (k : string) : M unit :=
  match v with
  | VObj l =>
      o ← lookup_obj l; store l (Object (assoc_del k (props o)) (opSym o))
  | VUndef | VNull => throw (TypeError ("Cannot convert to object"))
  | _ => mret tt
  end.

(** [Number(digits)] for a string of decimal digits *)
Definition digits_value (digits : string) : N :=
  (fix go (acc : N) (s : string) : N :=
     match s with
     | String c s' => go (10 * acc + (N_of_ascii c - 48))%N s'
     | EmptyString => acc
     end) 0%N digits.

(** A property key that is an array index: the canonical decimal form of
    an integer from 0 to 2^32 - 2. *)
Definition array_index_key (k : string) : option N :=
  let n := digits_value k in
  if String.eqb (pretty n) k && (n <? 4294967295)%N then Some n else None.

Definition index_le (a b : string) : Prop :=
  (default 0 (array_index_key a) ≤ default 0 (array_index_key b))%N.

#[global] Instance index_le_dec : RelDecision index_le.
Proof. intros a b. unfold index_le. apply _. Defined.

(** The order in which JavaScript lists the own string keys of an object
    whose keys were created in the order [names]: the array indices first,
    in ascending numeric order, then the other keys in creation order. *)
Definition ownKeys (names : list string) : list string :=
  merge_sort index_le (filter (λ k, is_Some (array_index_key k)) names)
  ++ filter (λ k, array_index_key k = None) names.

(** [Object.keys(v)] *)
Definition objectKeys (v : val) : M (list string) :=
  match v with
  | VObj l => o ← lookup_obj l; mret (ownKeys (fst <$> props o))
  | VArr vs => mret (pretty <$> seq 0 (length vs))
  | VStr s => mret (pretty <$> seq 0 (String.length s))
  | VUndef | VNull => throw (TypeError "Cannot convert undefined or null to object")
  | VBool _ | VNum _ => mret []
  end.

(** [Object.assign({}, v)]: a shallow copy of the own properties *)
Definition shallow_copy (v : val) : M val :=
  match v with
  | VObj l => o ← lookup_obj l; alloc o
  | _ => keys ← (if nullish v then mret [] else objectKeys v);
         vals ← mapM (λ k, x ← get v k; mret (k, x)) keys;
         new_object vals
  end.

(** A value the source uses as an array ([for ... of], [forEach], [concat]). *)
Definition the_array (what : string) (v : val) : M (list val) :=
  match v with
  | VArr vs => mret vs
  | _ => throw (IllTyped (what +:+ " is not an array"))
  end.

(** [s.split(c)] for a one-character separator *)
Fixpoint split_on (sep : Ascii.ascii) (s : string) : list string :=
  match s with
  | EmptyString => [EmptyString]
  | String c s' =>
      if Ascii.eqb c sep then EmptyString :: split_on sep s'
      else match split_on sep s' with
           | x :: xs => String c x :: xs
           | [] => [String c EmptyString]
           end
  end.

(** ** Collaborators outside the two files *)

(** The pure helpers of [SchemaId] and [utils] are left abstract: every
    theorem below holds for any implementation of them. *)
Class Externals : Type := {
  getAbsoluteId : SchemaId → string;           (* SchemaId.getAbsoluteId() *)
  isEmpty : SchemaId → bool;                   (* SchemaId.isEmpty() *)
  toTSType : string → val → heap → option string;   (* utils.toTSType *)
  reduceTypes : list val → list val;           (* utils.reduceTypes *)
  resolve : M unit;                            (* ReferenceResolver.resolve() *)
  buildSchemaMergedMap : list Schema → list (string * node);
                                    (* SchemaConvertor.buildSchemaMergedMap *)
}.

(** Modelled from the spec: ReferenceResolver.dereference is not in the two
    files.  It "returns the registered Schema for a canonical id; fails
    fatally if absent". *)
Definition dereference (refId : val) : M Schema :=
  match refId with
  | VStr r => λ s,
      match assoc_get r (st_schemas s) with
      | Some schema => Ok schema s
      | None => Throw (Error ("Target schema is not found: " +:+ r)) s
      end
  | _ => throw (IllTyped "dereference of a reference that is not a string")
  end.

(** Modelled from the spec: ReferenceResolver.addSchema and addReference
    "inject newly constructed schemas and mark their ids as referenced";
    a later registration under the same id supersedes the earlier one. *)
Definition addSchema {ext : Externals} (schema : Schema) : M unit :=
  modify (λ s, set_schemas
                 (assoc_set (getAbsoluteId (s_id schema)) schema (st_schemas s)) s).

Definition addReference (id : SchemaId) : M unit :=
  modify (λ s, set_references (st_references s ++ [id]) s).

(** Modelled from the spec: JsonPointer.parse and JsonPointer.get are not in
    the two files.  A pointer is a sequence of [/]-prefixed reference tokens
    in which [~1] stands for [/] and [~0] for [~]; "extracting a pointer that
    does not exist in the content is a fatal SchemaError". *)
Fixpoint untilde (s : string) : string :=
  match s with
  | String "~"%char (String "1"%char s') => String "/"%char (untilde s')
  | String "~"%char (String "0"%char s') => String "~"%char (untilde s')
  | String c s' => String c (untilde s')
  | EmptyString => EmptyString
  end.

Definition JsonPointer_parse (pointer : string) : M (list string) :=
  match split_on "/"%char pointer with
  | EmptyString :: tokens => mret (untilde <$> tokens)
  | _ => throw (Error ("Invalid JSON-Pointer format: " +:+ pointer))
  end.

Fixpoint JsonPointer_get (v : val) (path : list string) : M val :=
  match path with
  | [] => mret v
  | key :: path' =>
      next ← get v key;
      if is_undefined next
      then throw (Error ("SchemaError: the pointer does not exist: " +:+ key))
      else JsonPointer_get next path'
  end.

(** Modelled from the spec: utils.mergeSchema is not in the two files.
    "Object-valued keys such as properties, definitions, patternProperties
    union by member name, right-hand entries overriding on name collision;
    array-valued keys such as required concatenate with duplicates removed;
    all other keys follow last-writer-wins". *)
Definition dedup (vs : list val) : list val :=
  foldl (λ acc v, if existsb (val_beq v) acc then acc else acc ++ [v]) [] vs.

Definition union_by_name (left right : list (string * val))
  : list (string * val) :=
  foldl (λ acc kv, assoc_set kv.1 kv.2 acc) left right.

Definition merge_key (a : val) (key : string) (value : val) : M unit :=
  old ← get a key;
  match value with
  | VArr vs =>
      set a key (VArr (dedup (match old with VArr os => os | _ => [] end ++ vs)))
  | VObj lv =>
      right ← lookup_obj lv;
      left ← (match old with
              | VObj lo => o ← lookup_obj lo; mret (props o)
              | _ => mret []
              end);
      merged ← new_object (union_by_name left (props right));
      set a key merged
  | _ => set a key value
  end.

Definition mergeSchema (a b : val) : M unit :=
  keys ← objectKeys b;
  for_of keys (λ key, value ← get b key; merge_key a key value).

(** ** schema.ts *)

Definition getIdPropertyName (type : SchemaType) : string :=
  match type with
  | Draft04 => "id"
  | Draft07 => "$id"
  end.

Definition getId (type : SchemaType) (content : val) : M val :=
  get content (getIdPropertyName type).

Section generator.
Context {ext : Externals}.

(** [getParentIds] inside [getSubSchema] *)
Fixpoint getParentIds (s : Schema) (result : list string) : list string :=
  let result := result ++ [getAbsoluteId (s_id s)] in
  match s_rootSchema s with
  | None => result
  | Some root => getParentIds root result
  end.

Definition getSubSchema (rootSchema : Schema) (pointer : string)
    (id : option SchemaId) : M Schema :=
  path ← JsonPointer_parse pointer;
  content ← JsonPointer_get (s_content rootSchema) path;
  id ← (match id with
        | Some id => mret id
        | None =>
            subId ← getId (s_type rootSchema) content;
            if truthy subId then
              match subId with
              | VStr subId =>
                  mret (mkSchemaId subId (Some (getParentIds rootSchema [])))
              | _ => throw (IllTyped "a schema id that is not a string")
              end
            else mret (mkSchemaId pointer (Some (getParentIds rootSchema [])))
        end);
  mret (mkSchema (s_type rootSchema) None id content (Some rootSchema)).

(** ** DtsGenerator.normalizeContent (dtsGenerator.ts, lines 76-108) *)

(** Lines 98-104: inference and reduction of [type]. *)
Definition normalizeType (content : val) : M unit :=
  types ← get content "type";
  properties ← get content "properties";
  additionalProperties ← get content "additionalProperties";
  if is_undefined types && (truthy properties || truthy additionalProperties)
  then set content "type" (VStr "object")
  else match types with
       | VArr ts =>
           let reduced := reduceTypes ts in
           set content "type"
             (match reduced with [t] => t | _ => VArr reduced end)
       | _ => mret tt
       end.

(** Lines 89-92: a member of [allOf] given as a reference stands for the
    normalised content of the schema it refers to; [normalize] is the
    recursive call [this.normalizeContent(ref)]. *)
Definition resolveMember (normalize : Schema → M Schema) (sub : val) : M val :=
  match typeof sub with
  | TObject =>
      ref ← get sub "$ref";
      if truthy ref then
        ref ← dereference ref;
        normalized ← normalize ref;
        mret (s_content normalized)
      else mret sub
  | _ => mret sub
  end.

(** Lines 86-97: the members of [allOf] are folded into the node. *)
Definition foldAllOf (normalize : Schema → M Schema) (content : val) : M unit :=
  allOf ← get content "allOf";
  if truthy allOf then
    let work := content in
    subs ← the_array "allOf" allOf;
    for_of subs (λ sub,
      sub ← resolveMember normalize sub;
      mergeSchema work sub);;
    delete_prop content "allOf"
  else mret tt.

Fixpoint normalizeContent (fuel : nat) (schema : Schema)
    (pointer : option string) : M Schema :=
  match fuel with
  | O => out_of_fuel
  | S fuel =>
      schema ← (match pointer with
                | Some pointer => getSubSchema schema pointer None
                | None => mret schema
                end);
      let content := s_content schema in
      content ← (if bool_decide (typeof content = TBoolean) then
                   if truthy content then new_object []
                   else (empty ← new_object []; new_object [("not", empty)])
                 else
                   foldAllOf (λ ref, normalizeContent fuel ref None) content;;
                   normalizeType content;;
                   mret content);
      mret (with_content schema content)
  end.

End generator.

(** ** Documents as trees

    Input documents reach the generator as parsed JSON or YAML.  [load] puts
    such a tree on the heap, one fresh object per JSON object, children
    first (a repeated member name keeps its first place and its last value);
    [snapshot] reads a value back as a tree. *)
#[warnings="-register-all"]
Inductive json : Type :=
| JUndef
| JNull
| JBool (b : bool)
| JNum (n : Z)
| JStr (s : string)
| JArr (items : list json)
| JObj (members : list (string * json)).

Fixpoint load (j : json) : M val :=
  match j with
  | JUndef => mret VUndef
  | JNull => mret VNull
  | JBool b => mret (VBool b)
  | JNum n => mret (VNum n)
  | JStr s => mret (VStr s)
  | JArr items =>
      vs ← (fix go (l : list json) : M (list val) :=
              match l with
              | [] => mret []
              | x :: l' => v ← load x; vs ← go l'; mret (v :: vs)
              end) items;
      mret (VArr vs)
  | JObj members =>
      ps ← (fix go (l : list (string * json)) (ps : list (string * val))
              : M (list (string * val)) :=
              match l with
              | [] => mret ps
              | (k, x) :: l' => v ← load x; go l' (assoc_set k v ps)
              end) members [];
      new_object ps
  end.

Fixpoint snapshot (depth : nat) (h : heap) (v : val) : option json :=
  match depth with
  | O => None
  | S depth =>
      match v with
      | VUndef => Some JUndef
      | VNull => Some JNull
      | VBool b => Some (JBool b)
      | VNum n => Some (JNum n)
      | VStr s => Some (JStr s)
      | VArr vs => JArr <$> mapM (snapshot depth h) vs
      | VObj l =>
          o ← h !! l;
          JObj <$> mapM (λ kv, j ← snapshot depth h kv.2; Some (kv.1, j)) (props o)
      end
  end.

Definition empty_state : state := State [] [] [] None [].

(** The tree a computation leaves behind at the content of the schema it
    returns. *)
Definition content_of (r : result Schema) : option json :=
  match r with
  | Ok schema s => snapshot 64 (st_heap s) (s_content schema)
  | _ => None
  end.

(** A schema with the given id whose content is the tree [j], freshly
    loaded. *)
Definition load_schema (type : SchemaType) (id : string) (j : json) : M Schema :=
  content ← load j;
  mret (mkSchema type None (mkSchemaId id None) content None).

(** ** A sample instance of the abstract helpers, for evaluating examples *)

Definition sample_toTSType (type : string) : option string :=
  if String.eqb type "integer" then Some "number"
  else if String.eqb type "string" || String.eqb type "number"
          || String.eqb type "boolean" || String.eqb type "null"
       then Some type
       else None.

Definition sample : Externals := {|
  getAbsoluteId id := inputId id;
  isEmpty id := String.eqb (inputId id) "" || String.prefix "/" (inputId id);
  toTSType type _ _ := sample_toTSType type;
  reduceTypes := dedup;
  resolve := mret tt;
  buildSchemaMergedMap schemas :=
    (λ schema, (inputId (s_id schema), Node (Some schema) [])) <$> schemas;
|}.

(** ** The emitter (dtsGenerator.ts, lines 253-422) *)

Definition dquote : string := String "034"%char EmptyString.

(** JavaScript [String(v)].  For a number it gives the decimal digits of
    its value, which is what JavaScript gives for the integers of magnitude
    below 2^53 (from 1e21 on JavaScript writes an exponent). *)
Fixpoint to_string (v : val) : string :=
  match v with
  | VUndef => "undefined"
  | VNull => "null"
  | VBool b => if b then "true" else "false"
  | VNum n => pretty n
  | VStr s => s
  | VArr vs =>
      (fix go (l : list val) : string :=
         match l with
         | [] => ""
         | [x] => if nullish x then "" else to_string x
         | x :: l' => (if nullish x then "" else to_string x) +:+ "," +:+ go l'
         end) vs
  | VObj _ => "[object Object]"
  end.

(** [k in v] *)
Definition has_prop (v : val) (k : string) : M bool :=
  match v with
  | VObj l => o ← lookup_obj l; mret (bool_decide (is_Some (assoc_get k (props o))))
  | VArr vs =>
      mret (String.eqb k "length" || bool_decide (is_Some (array_index (length vs) k)))
  | _ => throw (TypeError ("Cannot use 'in' operator to search for " +:+ k))
  end.

(** [xs.forEach((x, index) => body(x, index))] *)
Fixpoint forEach_from {A} (index : nat) (xs : list A) (body : A → nat → M unit)
  : M unit :=
  match xs with
  | [] => mret tt
  | x :: xs' => body x index;; forEach_from (S index) xs' body
  end.

(** Modelled from the spec: SchemaConvertor.outputArrayedType is not in the
    two files.  It renders the "union of each alternative": the callback
    runs once for every entry, in order, between an opening and a closing
    call. *)
Definition outputArrayedType {A} (schema : Schema) (types : list A)
    (output : A → nat → M unit) (terminate : bool) : M unit :=
  emit (OutputArrayedTypeBegin schema (length types) terminate);;
  forEach_from 0 types (λ t index,
    output t index;;
    if bool_decide (index < length types - 1) then emit OutputArrayedTypeNext
    else mret tt);;
  emit (OutputArrayedTypeEnd schema terminate).

Definition outputTypeIdName (schema : Schema) (terminate : bool) : M unit :=
  s ← get_state; emit (OutputTypeIdName schema (st_current s) terminate).

Section emitter.
Context {ext : Externals}.

Definition truthy_name (name : option string) : bool :=
  match name with
  | Some s => negb (String.eqb s "")
  | None => false
  end.

Fixpoint generateProperties (fuel : nat) (baseSchema : Schema) : M unit :=
  match fuel with
  | O => out_of_fuel
  | S fuel =>
      let content := s_content baseSchema in
      additionalProperties ← get content "additionalProperties";
      (if truthy additionalProperties then
         emit (OutputRawValue "[name: string]: " None);;
         schema ← normalizeContent fuel baseSchema (Some "/additionalProperties");
         additionalProperties ← get content "additionalProperties";
         match additionalProperties with
         | VBool true => emit (OutputStringTypeName schema "any" true None)
         | _ => generateTypeProperty fuel schema true
         end
       else mret tt);;
      properties ← get content "properties";
      if truthy properties then
        names ← objectKeys properties;
        for_of names (λ propertyName,
          schema ← normalizeContent fuel baseSchema
                     (Some ("/properties/" +:+ propertyName));
          emit (OutputComments schema);;
          emit (OutputPropertyAttribute schema);;
          required ← get (s_content baseSchema) "required";
          emit (OutputPropertyName schema propertyName required);;
          generateTypeProperty fuel schema true)
      else mret tt
  end

with generateTypeProperty (fuel : nat) (schema : Schema) (terminate : bool)
  : M unit :=
  match fuel with
  | O => out_of_fuel
  | S fuel =>
      let content := s_content schema in
      ref ← get content "$ref";
      if truthy ref then
        (* [ref.id == null] cannot hold for a registered schema record *)
        ref ← dereference ref;
        normalized ← normalizeContent fuel ref None;
        outputTypeIdName normalized terminate
      else
        anyOf ← get content "anyOf";
        oneOf ← get content "oneOf";
        if truthy anyOf || truthy oneOf then
          generateArrayedType fuel schema anyOf "/anyOf/" terminate;;
          oneOf ← get content "oneOf";
          generateArrayedType fuel schema oneOf "/oneOf/" terminate
        else
          enum ← get content "enum";
          if truthy enum then
            values ← the_array "enum" enum;
            outputArrayedType schema values (λ value _,
              type ← get content "type";
              if is_str type "integer"
              then emit (OutputRawValue (to_string value) None)
              else emit (OutputRawValue (dquote +:+ to_string value +:+ dquote) None))
              terminate
          else
            hasConst ← has_prop content "const";
            if (hasConst : bool) then
              value ← get content "const";
              type ← get content "type";
              if is_str type "integer"
              then emit (OutputStringTypeName schema (to_string value) terminate None)
              else emit (OutputStringTypeName schema
                           (dquote +:+ to_string value +:+ dquote) terminate None)
            else generateType fuel schema terminate true
  end

with generateArrayedType (fuel : nat) (baseSchema : Schema) (contents : val)
    (path : string) (terminate : bool) : M unit :=
  match fuel with
  | O => out_of_fuel
  | S fuel =>
      if truthy contents then
        entries ← the_array path contents;
        outputArrayedType baseSchema entries (λ _ index,
          schema ← normalizeContent fuel baseSchema (Some (path +:+ pretty index));
          if isEmpty (s_id schema) then generateTypeProperty fuel schema false
          else outputTypeIdName schema false)
          terminate
      else mret tt
  end

with generateArrayTypeProperty (fuel : nat) (schema : Schema) (terminate : bool)
  : M unit :=
  match fuel with
  | O => out_of_fuel
  | S fuel =>
      items ← get (s_content schema) "items";
      minItems ← get (s_content schema) "minItems";
      if nullish items then
        emit (OutputStringTypeName schema "any[]" terminate None)
      else match items with
      | VArr items =>
          let len := Z.of_nat (length items) in
          if bool_decide (len = 0)%Z && is_undefined minItems then
            emit (OutputStringTypeName schema "any[]" terminate None)
          else
            minItems ← (match minItems with
                        | VUndef => mret None
                        | VNum n => mret (Some n)
                        | _ => throw (IllTyped "minItems is not a number")
                        end);
            let effectiveMaxItems := (1 + Z.max (default 0%Z minItems) len)%Z in
            for_upto (default 1%Z minItems) effectiveMaxItems (λ unionIndex,
              emit (OutputRawValue "[" None);;
              for_below 0%Z unionIndex (λ i,
                (if bool_decide (i > 0)%Z then emit (OutputRawValue ", " None)
                 else mret tt);;
                if bool_decide (i < len)%Z then
                  type ← normalizeContent fuel schema
                           (Some ("/items/" +:+ pretty i));
                  if isEmpty (s_id type) then generateTypeProperty fuel type false
                  else outputTypeIdName type false
                else if bool_decide (i < effectiveMaxItems - 1)%Z then
                  emit (OutputStringTypeName schema "Object" false (Some false))
                else
                  emit (OutputStringTypeName schema "any" false (Some false)));;
              emit (OutputRawValue "]" None);;
              if bool_decide (unionIndex < effectiveMaxItems)%Z
              then emit (OutputRawValue " | " None)
              else mret tt);;
            emit (OutputStringTypeName schema "" terminate None)
      | _ =>
          item ← normalizeContent fuel schema (Some "/items");
          generateTypeProperty fuel item false;;
          emit (OutputStringTypeName schema "[]" terminate None)
      end
  end

with generateType (fuel : nat) (schema : Schema) (terminate outputOptional : bool)
  : M unit :=
  match fuel with
  | O => out_of_fuel
  | S fuel =>
      type ← get (s_content schema) "type";
      if nullish type then
        emit (OutputPrimitiveTypeName schema "any" terminate outputOptional)
      else match type with
      | VStr type => generateTypeName fuel schema type terminate outputOptional
      | VArr type =>
          let types := reduceTypes type in
          if bool_decide (length types ≤ 1) then
            set (s_content schema) "type" (default VUndef (types !! 0));;
            generateType fuel schema terminate outputOptional
          else
            outputArrayedType schema types (λ t _,
              match t with
              | VStr t => generateTypeName fuel schema t false false
              | _ => throw (IllTyped "a type name that is not a string")
              end) terminate
      | _ => throw (IllTyped "type is neither a string nor an array")
      end
  end

with generateTypeName (fuel : nat) (schema : Schema) (type : string)
    (terminate outputOptional : bool) : M unit :=
  match fuel with
  | O => out_of_fuel
  | S fuel =>
      s ← get_state;
      let tsType := toTSType type (s_content schema) (st_heap s) in
      if truthy_name tsType then
        emit (OutputPrimitiveTypeName schema (default "" tsType) terminate
                outputOptional)
      else if String.eqb type "object" then
        emit StartTypeNest;;
        generateProperties fuel schema;;
        emit (EndTypeNest terminate)
      else if String.eqb type "array" then
        generateArrayTypeProperty fuel schema terminate
      else throw (Error ("unknown type: " +:+ type))
  end.

End emitter.

(** ** OpenAPI v3 operation synthesis (dtsGenerator.ts, lines 109-251) *)

(** [openAPIV3Operation in schemaContentObject] *)
Definition checkOpenAPIV3SchemaContentObject (schemaContentObject : val) : M bool :=
  match schemaContentObject with
  | VObj l => o ← lookup_obj l; mret (opSym o)
  | VArr _ => mret false
  | _ => throw (TypeError "Cannot use 'in' operator to search for a symbol")
  end.

(** [typeof obj.$ref === 'string'] *)
Definition checkOpenAPIV3RefereunceObject (obj : val) : M bool :=
  ref ← get obj "$ref";
  mret (match typeof ref with TString => true | _ => false end).

(** [xs.concat(x)] *)
Definition js_concat (xs : list val) (x : val) : list val :=
  match x with
  | VArr ys => xs ++ ys
  | _ => xs ++ [x]
  end.

(** [v > 0] for a number *)
Definition positive (v : val) : bool :=
  match v with VNum n => bool_decide (0 < n)%Z | _ => false end.

Definition mediaTypeToTypeNamePrefix (mediaType : string) : string :=
  if String.eqb mediaType "application/json" then "json"
  else if String.eqb mediaType "application/xml" then "xml"
  else if String.eqb mediaType "application/x-www-form-urlencoded" then "form"
  else if String.eqb mediaType "text/plain" then "text"
  else mediaType.

(** [xs.filter(p)] *)
Fixpoint filter_of {A} (xs : list A) (p : A → M bool) : M (list A) :=
  match xs with
  | [] => mret []
  | x :: xs' =>
      keep ← p x; rest ← filter_of xs' p;
      mret (if (keep : bool) then x :: rest else rest)
  end.

Section openapi.
Context {ext : Externals}.

(** [this.resolveOpenAPIV3Object(obj)] *)
Definition resolveOpenAPIV3Object (obj : val) : M val :=
  isRef ← checkOpenAPIV3RefereunceObject obj;
  if (isRef : bool) then
    ref ← get obj "$ref"; schema ← dereference ref; mret (s_content schema)
  else mret obj.

(** The same method passed unbound, as in
    [work.parameters.map(this.resolveOpenAPIV3Object)]: inside the call
    [this] is [undefined], so the branch that reads [this.resolver] throws. *)
Definition resolveOpenAPIV3Object_unbound (obj : val) : M val :=
  isRef ← checkOpenAPIV3RefereunceObject obj;
  if (isRef : bool) then
    throw (TypeError "Cannot read property resolver of undefined")
  else mret obj.

(** [normalizeSchema] (lines 131-142) *)
Definition normalizeSchema (s : val) : M val :=
  s ← shallow_copy s;
  isRef ← checkOpenAPIV3RefereunceObject s;
  s ← (if (isRef : bool) then
         ref ← get s "$ref"; schema ← dereference ref; mret (s_content schema)
       else mret s);
  if negb (is_undefined s) then
    type ← get s "type";
    copy ← shallow_copy s;
    set copy "type"
      (if negb (is_str type "object") && negb (is_str type "array") then type
       else VStr "string");;
    mret copy
  else new_object [("type", VStr "string")].

(** [normalizeParameter] (lines 144-185); [r.push] is returned as the new
    value of [r]. *)
Definition normalizeParameter (schema : Schema) (baseId : string)
    (request : Schema) (r : list Schema) (params : list val)
    (paramName : string) : M (list Schema) :=
  filterdParams ← filter_of params (λ parameter,
    location ← get parameter "in"; mret (is_str location paramName));
  if negb (bool_decide (length filterdParams = 0)) then
    properties ← new_object [];
    initial ← new_object [("type", VStr "object"); ("properties", properties);
                          ("required", VArr [])];
    parameterObject ← fold_of params initial (λ prev target,
      next ← shallow_copy prev;
      nextProperties ← get next "properties";
      (if truthy nextProperties then
         targetSchema ← get target "schema";
         s ← normalizeSchema targetSchema;
         name ← get target "name";
         set nextProperties (to_string name) s;;
         required ← get target "required";
         nextRequired ← get next "required";
         if truthy required && truthy nextRequired then
           nextRequired ← the_array "required" nextRequired;
           set next "required" (VArr (js_concat nextRequired name))
         else mret tt
       else mret tt);;
      mret next);
    let propertyName := paramName +:+ "Param" in
    let parameterSchema :=
      with_content
        (with_id schema
           (mkSchemaId (baseId +:+ "/" +:+ (paramName +:+ "Parameter")) (Some [])))
        parameterObject in
    requestProperties ← get (s_content request) "properties";
    (if truthy requestProperties then
       ref ← new_object [("$ref", VStr (getAbsoluteId (s_id parameterSchema)))];
       set requestProperties propertyName ref;;
       requestRequired ← get (s_content request) "required";
       parameterRequired ← get (s_content parameterSchema) "required";
       if truthy requestRequired && truthy parameterRequired then
         len ← get parameterRequired "length";
         if positive len then
           requestRequired ← the_array "required" requestRequired;
           set (s_content request) "required"
             (VArr (js_concat requestRequired (VStr propertyName)))
         else set (s_content request) "required" requestRequired
       else mret tt
     else mret tt);;
    addSchema parameterSchema;;
    addReference (s_id parameterSchema);;
    mret (r ++ [parameterSchema])
  else mret r.

Definition resolveOpenAPIV3SchemaContentObject (schema : Schema) (content : val)
  : M (list Schema) :=
  let work := content in
  let results : list Schema := [] in
  let baseId := getAbsoluteId (s_id schema) in
  requestProperties ← new_object [];
  requestContent ← new_object [("properties", requestProperties);
                               ("required", VArr []); ("type", VStr "object")];
  let requestSchema :=
    with_content
      (with_id schema (mkSchemaId (baseId +:+ "/" +:+ "request") (Some [])))
      requestContent in
  parameters ← get work "parameters";
  results ← (if truthy parameters then
               parameters ← the_array "parameters" parameters;
               parameters ← mapM resolveOpenAPIV3Object_unbound parameters;
               results ← normalizeParameter schema baseId requestSchema results
                           parameters "path";
               results ← normalizeParameter schema baseId requestSchema results
                           parameters "query";
               results ← normalizeParameter schema baseId requestSchema results
                           parameters "header";
               normalizeParameter schema baseId requestSchema results
                 parameters "cookie"
             else mret results);
  requestBody ← get work "requestBody";
  if truthy requestBody then
    requestBody ← resolveOpenAPIV3Object requestBody;
    bodyContents ← get requestBody "content";
    mediaKeys ← objectKeys bodyContents;
    let singleMedia := bool_decide (length mediaKeys = 1) in
    fold_of mediaKeys results (λ results mediaType,
      bodyContent ← get bodyContents mediaType;
      bodyContentSchema ← get bodyContent "schema";
      if truthy bodyContentSchema then
        bodyContentSchema ← resolveOpenAPIV3Object bodyContentSchema;
        let bodyTypeName := mediaTypeToTypeNamePrefix mediaType in
        let bodySchema :=
          with_content
            (with_id requestSchema
               (mkSchemaId
                  (baseId +:+ "/" +:+ (if singleMedia then "" else bodyTypeName)
                     +:+ "RequestBody") None))
            bodyContentSchema in
        addSchema bodySchema;;
        let results := results ++ [bodySchema] in
        let rs :=
          with_id requestSchema
            (mkSchemaId
               (baseId +:+ "/" +:+
                  (if singleMedia then "" else bodyTypeName +:+ "Request")) None) in
        rsProperties ← get (s_content rs) "properties";
        (if truthy rsProperties then
           ref ← new_object [("$ref", VStr (getAbsoluteId (s_id bodySchema)))];
           set rsProperties "body" ref;;
           bodyRequired ← get bodyContentSchema "required";
           bodyRequiredLength ← (if truthy bodyRequired
                                 then get bodyRequired "length" else mret VUndef);
           rsRequired ← get (s_content rs) "required";
           (if truthy bodyRequired && positive bodyRequiredLength
               && truthy rsRequired then
              rsRequired ← the_array "required" rsRequired;
              set (s_content rs) "required"
                (VArr (js_concat rsRequired (VStr "body")))
            else mret tt);;
           addReference (s_id bodySchema)
         else mret tt);;
        mret (results ++ [rs])
      else mret results)
  else
    requestProperties ← get (s_content requestSchema) "properties";
    names ← (if truthy requestProperties then objectKeys requestProperties
             else mret []);
    if truthy requestProperties && negb (bool_decide (length names = 0))
    then mret (results ++ [requestSchema])
    else mret results.

Definition resolveOpenAPIV3SchemaContent (schema : Schema) : M (list Schema) :=
  isOperation ← checkOpenAPIV3SchemaContentObject (s_content schema);
  if (isOperation : bool)
  then resolveOpenAPIV3SchemaContentObject schema (s_content schema)
  else mret [schema].

End openapi.

(** ** The tree walk and the run (dtsGenerator.ts, lines 18-74, 253-270) *)

Section run.
Context {ext : Externals}.

Definition generateDeclareType (fuel : nat) (schema : Schema) : M unit :=
  emit (OutputExportType (s_id schema));;
  generateTypeProperty fuel schema true.

Definition generateTypeModel (fuel : nat) (schema : Schema) : M unit :=
  emit (StartInterfaceNest (s_id schema));;
  type ← get (s_content schema) "type";
  (if is_str type "any"
   then emit (OutputRawValue "[name: string]: any; // any" (Some true))
   else mret tt);;
  generateProperties fuel schema;;
  emit EndInterfaceNest.

Definition generateTypeCollection (fuel : nat) (schema : Schema) : M unit :=
  emit (OutputExportType (s_id schema));;
  generateArrayTypeProperty fuel schema true.

Definition walkSchema (fuel : nat) (schema : Schema) : M unit :=
  normalized ← normalizeContent fuel schema None;
  modify (set_current (Some normalized));;
  emit (OutputComments normalized);;
  type ← get (s_content normalized) "type";
  if is_str type "object" || is_str type "any" then generateTypeModel fuel normalized
  else if is_str type "array" then generateTypeCollection fuel normalized
  else generateDeclareType fuel normalized.

(** [Object.keys(map).sort()]: without a comparator, [sort] orders strings
    by their UTF-16 code units.

    [utf16] gives the code units of a byte string holding UTF-8: a character
    of one, two or three bytes is one unit, a character of four bytes is a
    pair of surrogates.  A byte that starts no character stands for
    itself. *)
Definition trail (c : Ascii.ascii) : option N :=
  let n := N_of_ascii c in
  if (128 <=? n)%N && (n <? 192)%N then Some (n - 128)%N else None.

Fixpoint utf16 (s : string) : list N :=
  match s with
  | EmptyString => []
  | String b0 s1 =>
      let n0 := N_of_ascii b0 in
      let single := n0 :: utf16 s1 in
      if (n0 <? 192)%N then single
      else match s1 with
      | EmptyString => single
      | String b1 s2 =>
          match trail b1 with
          | None => single
          | Some t1 =>
              if (n0 <? 224)%N then ((n0 - 192) * 64 + t1)%N :: utf16 s2
              else match s2 with
              | EmptyString => single
              | String b2 s3 =>
                  match trail b2 with
                  | None => single
                  | Some t2 =>
                      if (n0 <? 240)%N
                      then ((n0 - 224) * 4096 + t1 * 64 + t2)%N :: utf16 s3
                      else match s3 with
                      | EmptyString => single
                      | String b3 s4 =>
                          match trail b3 with
                          | None => single
                          | Some t3 =>
                              let c := ((n0 - 240) * 262144 + t1 * 4096
                                        + t2 * 64 + t3 - 65536)%N in
                              (55296 + c / 1024)%N :: (56320 + c mod 1024)%N
                                :: utf16 s4
                          end
                      end
                  end
              end
          end
      end
  end.

Fixpoint bytes (s : string) : list N :=
  match s with
  | EmptyString => []
  | String c s' => N_of_ascii c :: bytes s'
  end.

(** Sequences of numbers compared from the left, a proper prefix first *)
Fixpoint units_compare (a b : list N) : comparison :=
  match a, b with
  | [], [] => Eq
  | [], _ :: _ => Lt
  | _ :: _, [] => Gt
  | x :: a', y :: b' =>
      match (x ?= y)%N with
      | Eq => units_compare a' b'
      | c => c
      end
  end.

(** The comparison of two keys by [sort].  Two different byte strings with
    the same code units are not both UTF-8, and stand for no two keys of
    one object; the bytes order them, so that the comparison is a total
    order on all byte strings. *)
Definition key_compare (a b : string) : comparison :=
  match units_compare (utf16 a) (utf16 b) with
  | Eq => units_compare (bytes a) (bytes b)
  | c => c
  end.

Definition key_le (a b : string) : Prop := key_compare a b ≠ Gt.

#[global] Instance key_le_dec : RelDecision key_le.
Proof. intros a b. unfold key_le. apply _. Defined.

Definition sorted_keys (map : list (string * node)) : list string :=
  merge_sort key_le (fst <$> map).

(** The body of the loop of [walk] (lines 42-53); [rec] is the recursive
    call [this.walk(value)].  The node is updated in place (its marker is
    deleted); the updated map is returned. *)
Definition walk_body (fuel : nat)
    (rec : list (string * node) → M (list (string * node)))
    (map : list (string * node)) (key : string) : M (list (string * node)) :=
  match assoc_get key map with
  | None => throw (TypeError "Cannot read property of undefined")
  | Some (Node marker children) =>
      (match marker with
       | Some schema => walkSchema fuel schema
       | None => mret tt
       end);;
      children ← (match children with
                  | [] => mret children
                  | _ :: _ =>
                      emit (StartNest key);;
                      children ← rec children;
                      emit EndNest;;
                      mret children
                  end);
      mret (assoc_set key (Node None children) map)
  end.

Fixpoint walk (fuel : nat) (map : list (string * node))
  : M (list (string * node)) :=
  match fuel with
  | O => out_of_fuel
  | S fuel => fold_of (sorted_keys map) map (walk_body fuel (walk fuel))
  end.

(** Lines 21-29 of [generate]: the schemas the namespace tree is built
    from. *)
Definition collectSchemas : M (list Schema) :=
  resolve;;
  registered ← (s ← get_state; mret (snd <$> st_schemas s));
  lists ← mapM resolveOpenAPIV3SchemaContent registered;
  schemas ← (match lists with
             | [] => throw (TypeError "Reduce of empty array with no initial value")
             | first :: rest => mret (foldl (λ prv target, prv ++ target) first rest)
             end);
  resolve;;
  mret schemas.

(** [generate]: the result of a run is the sequence of calls made to the
    convertor, which [convertor.end()] turns into the declaration text. *)
Definition generate (fuel : nat) : M (list call) :=
  schemas ← collectSchemas;
  let map := buildSchemaMergedMap schemas in
  emit Start;;
  walk fuel map;;
  emit End_;;
  s ← get_state;
  mret (st_calls s).

End run.

(** ** Sub-schema discovery (schema.ts, [searchAllSubSchema]) *)

Module SearchAllSubSchema.
Section discovery.
Context {ext : Externals}.
(** The schema whose content is searched; the callbacks [onFoundSchema] and
    [onFoundReference] are recorded as calls. *)
Variable schema : Schema.

Definition findId (s : val) (id : val) (parentIds : list string)
  : M (list string) :=
  match id with
  | VStr id' =>
      if truthy id then
        let schemaId := mkSchemaId id' (Some parentIds) in
        let subSchema := mkSchema (s_type schema) None schemaId s (Some schema) in
        emit (OnFoundSchema subSchema);;
        mret (parentIds ++ [getAbsoluteId schemaId])
      else mret parentIds
  | _ => mret parentIds
  end.

Definition findRef (refObject : val) (parentIds : list string) : M unit :=
  ref ← get refObject "$ref";
  match ref with
  | VStr ref =>
      let schemaId := mkSchemaId ref (Some parentIds) in
      set refObject "$ref" (VStr (getAbsoluteId schemaId));;
      emit (OnFoundReference schemaId)
  | _ => mret tt
  end.

(** The two [replace] calls that build a namespace segment.  The first
    turns the empty segment into one dollar sign.  The second matches a
    segment enclosed in braces whose inside has no line break, and its
    replacement pattern (two dollar signs, then the digit one) yields a
    dollar sign followed by the digit one.  The line breaks are the line
    feed, the carriage return and, in UTF-8, U+2028 and U+2029. *)
Fixpoint has_line_break (s : string) : bool :=
  match s with
  | EmptyString => false
  | String c s' =>
      Ascii.eqb c "010"%char || Ascii.eqb c "013"%char
      || match s with
         | String "226"%char (String "128"%char (String c3 _)) =>
             Ascii.eqb c3 "168"%char || Ascii.eqb c3 "169"%char
         | _ => false
         end
      || has_line_break s'
  end.

Fixpoint ends_with_brace (s : string) : bool :=
  match s with
  | EmptyString => false
  | String c EmptyString => Ascii.eqb c "}"%char
  | String _ s' => ends_with_brace s'
  end.

Definition namespace_segment (s : string) : string :=
  match s with
  | EmptyString => "$"
  | String c rest =>
      if Ascii.eqb c "{"%char && ends_with_brace rest && negb (has_line_break rest)
      then "$1" else s
  end.

Definition walkOpenAPIV3Operation (op : val) (method path : string)
    (paths parentIds : list string) : M unit :=
  if nullish op || negb (bool_decide (typeof op = TObject)) then mret tt
  else
    copy ← shallow_copy op;
    let namespaces :=
      VStr <$> ("$" :: (namespace_segment <$> split_on "/"%char path) ++ [method]) in
    set copy "namespaces" (VArr namespaces);;
    operation ← (match copy with
                 | VObj l => o ← lookup_obj l; store l (Object (props o) true);;
                             mret copy
                 | _ => mret copy
                 end);
    id ← getId (s_type schema) operation;
    parentIds ← findId operation id parentIds;
    keys ← objectKeys op;
    for_of keys (λ key,
      field ← get op key;
      if String.eqb key "$ref" then findRef field parentIds else mret tt).

Definition methods : list string :=
  ["get"; "post"; "put"; "patch"; "delete"; "head"].

(** Lines 595-598, the inner loop of [walkOpenAPIV3Paths]: the array
    literal reads the six entries of the path item, then each is walked. *)
Definition walkPathItem (pathItem : val) (path : string)
    (paths parentIds : list string) : M unit :=
  operations ← mapM (λ method, op ← get pathItem method; mret (method, op))
                 methods;
  for_of operations (λ operation,
    let method := operation.1 in
    walkOpenAPIV3Operation operation.2 method path
      (paths ++ [path; method]) parentIds).

Definition walkOpenAPIV3Paths (pathObject : val) (paths parentIds : list string)
  : M unit :=
  if nullish pathObject || negb (bool_decide (typeof pathObject = TObject))
  then mret tt
  else
    keys ← objectKeys pathObject;
    for_of keys (λ path,
      pathItem ← get pathObject path;
      walkPathItem pathItem path paths parentIds).

Fixpoint walk (fuel : nat) (s : val) (paths parentIds : list string) : M unit :=
  match fuel with
  | O => out_of_fuel
  | S fuel =>
      let walkArray (array : val) (paths : list string) (parentIds : list string)
        : M unit :=
        if nullish array then mret tt
        else match array with
             | VArr items =>
                 forEach_from 0 items (λ item index,
                   walk fuel item (paths ++ [pretty index]) parentIds)
             | _ => throw (TypeError "array.forEach is not a function")
             end in
      let walkObject (obj : val) (paths : list string) (parentIds : list string)
        : M unit :=
        if nullish obj then mret tt
        else
          keys ← objectKeys obj;
          for_of keys (λ key,
            sub ← get obj key;
            if negb (nullish sub) then walk fuel sub (paths ++ [key]) parentIds
            else mret tt) in
      let walkMaybeArray (item : val) (paths : list string)
          (parentIds : list string) : M unit :=
        if isArray item then walkArray item paths parentIds
        else walk fuel item paths parentIds in
      let walkKey (walker : val → list string → list string → M unit)
          (key : string) (parentIds : list string) : M unit :=
        v ← get s key; walker v (paths ++ [key]) parentIds in
      if nullish s || negb (bool_decide (typeof s = TObject)) then mret tt
      else
        id ← getId (s_type schema) s;
        parentIds ← findId s id parentIds;
        findRef s parentIds;;
        walkKey walkArray "allOf" parentIds;;
        walkKey walkArray "anyOf" parentIds;;
        walkKey walkArray "oneOf" parentIds;;
        walkKey (walk fuel) "not" parentIds;;
        walkKey walkMaybeArray "items" parentIds;;
        walkKey (walk fuel) "additionalItems" parentIds;;
        walkKey (walk fuel) "additionalProperties" parentIds;;
        walkKey walkObject "definitions" parentIds;;
        walkKey walkObject "properties" parentIds;;
        walkKey walkObject "patternProperties" parentIds;;
        walkKey walkMaybeArray "dependencies" parentIds;;
        (match s_type schema with
         | Draft07 =>
             hasPropertyNames ← has_prop s "propertyNames";
             if (hasPropertyNames : bool) then
               walkKey (walk fuel) "propertyNames" parentIds;;
               walkKey (walk fuel) "contains" parentIds;;
               walkKey (walk fuel) "if" parentIds;;
               walkKey (walk fuel) "then" parentIds;;
               walkKey (walk fuel) "else" parentIds
             else mret tt
         | Draft04 => mret tt
         end);;
        (match s_openApiVersion schema with
         | Some 3 =>
             let whenPresent (walker : val → list string → list string → M unit)
                 (key : string) : M unit :=
               v ← get s key;
               if truthy v then walker v (paths ++ [key]) parentIds else mret tt in
             whenPresent walkOpenAPIV3Paths "paths";;
             whenPresent walkObject "headers";;
             whenPresent (walk fuel) "schema";;
             whenPresent walkObject "components";;
             whenPresent walkObject "schemas";;
             whenPresent walkObject "parameters";;
             whenPresent walkObject "requestBodies"
         | _ => mret tt
         end)
  end.

Definition searchAllSubSchema (fuel : nat) : M unit :=
  walk fuel (s_content schema) ["#"] [].

End discovery.
End SearchAllSubSchema.

(** ** Construction of a schema (schema.ts, [parseSchema]) *)

(** [setId] *)
Definition setId (type : SchemaType) (content : val) (id : string) : M unit :=
  let key := getIdPropertyName type in
  old ← get content key;
  if nullish old then set content key (VStr id) else mret tt.

(** [setSubIds] *)
Definition setSubIds (obj : val) (type : SchemaType) (prefix : string) : M unit :=
  keys ← objectKeys obj;
  for_of keys (λ key,
    sub ← get obj key;
    if negb (nullish sub)
    then setId type sub ("#/" +:+ prefix +:+ "/" +:+ key)
    else mret tt).

(** The two regular expressions of [selectSchemaType].  A run of digits
    followed by a character that is not a digit can only be matched whole,
    so the longest run is the one the group captures. *)
Definition is_digit (c : Ascii.ascii) : bool :=
  (48 <=? nat_of_ascii c) && (nat_of_ascii c <=? 57).

Fixpoint span_digits (s : string) : string * string :=
  match s with
  | String c s' =>
      if is_digit c
      then let '(digits, rest) := span_digits s' in (String c digits, rest)
      else (EmptyString, s)
  | EmptyString => (EmptyString, EmptyString)
  end.

Fixpoint strip_prefix (p s : string) : option string :=
  match p, s with
  | EmptyString, _ => Some s
  | String a p', String b s' =>
      if Ascii.eqb a b then strip_prefix p' s' else None
  | String _ _, EmptyString => None
  end.

(** The first pattern, tried at the start of [s]: the fixed address, one
    or more digits (the group), then [/schema]; the optional [#] that ends
    the pattern always matches. *)
Definition draft_at (s : string) : option string :=
  rest ← strip_prefix "http://json-schema.org/draft-" s;
  let '(digits, rest) := span_digits rest in
  if String.eqb digits "" then None
  else if String.prefix "/schema" rest then Some digits else None.

(** [s.match(pattern)]: the group of the leftmost match *)
Fixpoint draft_match (s : string) : option string :=
  match draft_at s with
  | Some digits => Some digits
  | None =>
      match s with
      | String _ s' => draft_match s'
      | EmptyString => None
      end
  end.

(** The second pattern, anchored at both ends: [3.], digits, [.], digits *)
Definition openapi3 (s : string) : bool :=
  match strip_prefix "3." s with
  | Some rest =>
      let '(minor, rest) := span_digits rest in
      negb (String.eqb minor "")
      && match strip_prefix "." rest with
         | Some rest =>
             let '(patch, rest) := span_digits rest in
             negb (String.eqb patch "") && String.eqb rest ""
         | None => false
         end
  | None => false
  end.

(** [selectSchemaType] *)
Definition selectSchemaType (content : val) : M (SchemaType * option nat) :=
  schema ← get content "$schema";
  matched ← (if truthy schema then
               match schema with
               | VStr schema => mret (draft_match schema)
               | _ => throw (TypeError "schema.match is not a function")
               end
             else mret None);
  match matched with
  | Some digits =>
      mret (if (digits_value digits <=? 4)%N then Draft04 else Draft07, None)
  | None =>
      swagger ← get content "swagger";
      if is_str swagger "2.0" then
        definitions ← get content "definitions";
        (if truthy definitions
         then setSubIds definitions Draft04 "definitions"
         else mret tt);;
        mret (Draft04, Some 2)
      else
        openapi ← get content "openapi";
        if truthy openapi && openapi3 (to_string openapi) then
          paths ← get content "paths";
          (if truthy paths then setSubIds paths Draft07 "paths" else mret tt);;
          components ← get content "components";
          schemas ← (if truthy components then get components "schemas"
                     else mret VUndef);
          (if truthy components && truthy schemas
           then setSubIds schemas Draft07 "components/schemas"
           else mret tt);;
          mret (Draft07, Some 3)
        else mret (Draft04, None)
  end.

Section parse.
(** [SchemaId.empty], a constant of schemaId.ts *)
Variable SchemaId_empty : SchemaId.

Definition parseSchema (content : val) (url : option string) : M Schema :=
  selected ← selectSchemaType content;
  let type := selected.1 in
  let openApiVersion := selected.2 in
  (match url with
   | Some url => setId type content url
   | None => mret tt
   end);;
  id ← getId type content;
  id ← (if truthy id then
          match id with
          | VStr id => mret (mkSchemaId id None)
          | _ => throw (IllTyped "a schema id that is not a string")
          end
        else mret SchemaId_empty);
  mret (mkSchema type openApiVersion id content None).

End parse.

(** * Vocabulary of the statements *)

(** ** Normalisation of boolean schemas *)

(** The schema [normalizeContent] works on: the schema given, or its
    sub-schema at the pointer (lines 77-79). *)
Definition subject {ext : Externals} (schema : Schema) (pointer : option string)
  : M Schema :=
  match pointer with
  | Some pointer => getSubSchema schema pointer None
  | None => mret schema
  end.

(** ** Reading and writing objects *)

Definition prop (o : object) (k : string) : val :=
  default VUndef (assoc_get k (props o)).

Definition set_prop (l : loc) (k : string) (x : val) (o : object) (s : state)
  : state :=
  set_heap (<[l := Object (assoc_set k x (props o)) (opSym o)]> (st_heap s)) s.

(** ** Inference and reduction of [type] *)

(** What lines 98-104 do to the object [o] at [l]. *)
Definition type_normalised {ext : Externals} (l : loc) (o : object) (s : state) : state :=
  match prop o "type" with
  | VArr ts =>
      set_prop l "type" (match reduceTypes ts with [t] => t | _ => VArr (reduceTypes ts) end) o s
  | VUndef =>
      if truthy (prop o "properties") || truthy (prop o "additionalProperties")
      then set_prop l "type" (VStr "object") o s
      else s
  | _ => s
  end.

(** The second half of C8 read literally: a content that has no [type] but
    has a [properties] or an [additionalProperties] member gets type
    ["object"]. *)
Definition C8_as_stated : Prop :=
  ∀ (E : Externals) (fuel : nat) (schema schema' : Schema) (l : loc) (o : object)
    (s s' : state),
    s_content schema = VObj l →
    st_heap s !! l = Some o →
    assoc_get "type" (props o) = None →
    is_Some (assoc_get "properties" (props o))
      ∨ is_Some (assoc_get "additionalProperties" (props o)) →
    normalizeContent (S fuel) schema None s = Ok schema' s' →
    get (s_content schema') "type" s' = Ok (VStr "object") s'.

Definition schema_at (l : loc) : Schema :=
  mkSchema Draft04 None (mkSchemaId "a" None) (VObj l) None.

Definition heap_state (h : heap) : state := State h [] [] None [].

(** ** Heaps without dangling references *)



Definition value_ok (h : heap) (v : val) : Prop :=
  match v with VObj lv => lv < length h | _ => True end.


(** The state and value obtained by loading a document on the empty heap. *)
Definition loaded (j : json) : val * state :=
  match load j empty_state with
  | Ok v s => (v, s)
  | _ => (VUndef, empty_state)
  end.

Definition allOf_example : json :=
  JObj [("allOf", JArr [
    JObj [("properties", JObj [("a", JObj [])])];
    JObj [("properties", JObj [("b", JObj [])]); ("required", JArr [JStr "b"])]])].


(** ** Tuple unions *)

(** Programs that agree on every state. *)
Definition meq {A} (m m' : M A) : Prop := ∀ s, m s = m' s.

Infix "≃" := meq (at level 70).

(** [ms] run in order with [sep] between consecutive ones. *)
Fixpoint joined (sep : M unit) (ms : list (M unit)) : M unit :=
  match ms with
  | [] => mret tt
  | [m] => m
  | m :: ms' => m;; sep;; joined sep ms'
  end.

(** The [n] integers from [lo] upwards. *)
Definition range (lo : Z) (n : nat) : list Z :=
  (λ i, lo + Z.of_nat i)%Z <$> seq 0 n.

(** The type of the [i]-th item schema, as the emitter renders it inside a
    tuple (lines 368-373). *)
Definition item_type {ext : Externals} (fuel : nat) (schema : Schema) (i : Z) : M unit :=
  type ← normalizeContent fuel schema (Some ("/items/" +:+ pretty i));
  if isEmpty (s_id type) then generateTypeProperty fuel type false
  else outputTypeIdName type false.

(** The tuple union in the words of the specification. *)
Definition tuple_slot {ext : Externals} (fuel : nat) (schema : Schema) (len effectiveMax i : Z)
  : M unit :=
  if bool_decide (i < len)%Z then item_type fuel schema i
  else if bool_decide (i = effectiveMax - 1)%Z
       then emit (OutputStringTypeName schema "any" false (Some false))
       else emit (OutputStringTypeName schema "Object" false (Some false)).

Definition tuple {ext : Externals} (fuel : nat) (schema : Schema) (len effectiveMax n : Z) : M unit :=
  emit (OutputRawValue "[" None);;
  joined (emit (OutputRawValue ", " None))
         (tuple_slot fuel schema len effectiveMax <$> range 0 (Z.to_nat n));;
  emit (OutputRawValue "]" None).

Definition tuple_union {ext : Externals} (fuel : nat) (schema : Schema) (terminate : bool)
    (len : Z) (minItems : option Z) : M unit :=
  let effectiveMax := (1 + Z.max (default 0%Z minItems) len)%Z in
  let first := default 1%Z minItems in
  joined (emit (OutputRawValue " | " None))
         (tuple fuel schema len effectiveMax
            <$> range first (Z.to_nat (effectiveMax - first + 1)));;
  emit (OutputStringTypeName schema "" terminate None).

(** C2 read literally: every array schema whose [items] is a list is
    emitted as the tuple union. *)
Definition C2_as_stated : Prop :=
  ∀ (ext : Externals) (fuel : nat) (schema : Schema) (terminate : bool) (l : loc)
    (o : object) (items : list val) (minItems : option Z) (s : state),
    s_content schema = VObj l →
    st_heap s !! l = Some o →
    prop o "items" = VArr items →
    prop o "minItems" = from_option VNum VUndef minItems →
    generateArrayTypeProperty (S fuel) schema terminate s =
      tuple_union fuel schema terminate (Z.of_nat (length items)) minItems s.

Definition tuple_example : json :=
  JObj [("type", JStr "array");
        ("items", JArr [JObj [("type", JStr "string")];
                        JObj [("type", JStr "number")]]);
        ("minItems", JNum 1)].

(** The names passed to the convertor by the type-name calls and the raw
    values, in order: the shape of the emitted text. *)
Definition rendered (c : call) : option string :=
  match c with
  | OutputRawValue value _ => Some value
  | OutputStringTypeName _ name _ _ => Some name
  | OutputPrimitiveTypeName _ tsType _ _ => Some tsType
  | _ => None
  end.

Definition text_of {A} (r : result A) : option (list string) :=
  match r with
  | Ok _ s => Some (omap rendered (st_calls s))
  | _ => None
  end.

(** ** Unknown type names *)


(** A registry holding one schema with id ["a"] whose content is the tree
    [j]. *)
Definition registered (j : json) : state :=
  let '(content, s) := loaded j in
  set_schemas [("a", mkSchema Draft04 None (mkSchemaId "a" None) content None)] s.

(** ** The tree walk: order and determinism *)




(** ** Who writes to schema content *)

(** One step of the run as far as the state is concerned: a call of
    [normalizeContent] (which normalises some content in place), the
    assignment [schema.content.type = types[0]] of [generateType], or
    output (a call to the convertor, or setting [currentSchema]), which
    leaves the heap and the registry alone. *)
Inductive content_step {ext : Externals} : state → state → Prop :=
| step_normalize (fuel : nat) (schema : Schema) (pointer : option string)
    (s s' : state) :
    final_state (normalizeContent fuel schema pointer s) = Some s' →
    content_step s s'
| step_collapse (schema : Schema) (types : list val) (s s' : state) :
    get (s_content schema) "type" s = Ok (VArr types) s →
    length (reduceTypes types) ≤ 1 →
    final_state (set (s_content schema) "type"
                   (default VUndef (reduceTypes types !! 0)) s) = Some s' →
    content_step s s'
| step_output (s : state) (calls : list call) (current : option Schema) :
    content_step s (set_calls calls (set_current current s)).

(** Every state [m] can end in from [s] is reached by such steps. *)
Definition steps_at {ext : Externals} {A} (s : state) (m : M A) : Prop :=
  ∀ s', final_state (m s) = Some s' → rtc content_step s s'.

Definition steps_only {ext : Externals} {A} (m : M A) : Prop := ∀ s, steps_at s m.

(** The state a computation ends in ([empty_state] when it runs out of
    fuel). *)
Definition run_state {A} (r : result A) : state :=
  match r with
  | Ok _ s | Throw _ s => s
  | OutOfFuel => empty_state
  end.

(** C4 read literally, for the operation that follows normalisation in
    [walkSchema]: emitting the properties of a normalised schema leaves its
    content tree as normalisation returned it. *)
Definition C4_as_stated : Prop :=
  ∀ (ext : Externals) (fuel : nat) (schema normalized : Schema) (s0 s1 s2 : state),
    normalizeContent fuel schema None s0 = Ok normalized s1 →
    generateProperties fuel normalized s1 = Ok tt s2 →
    snapshot 64 (st_heap s2) (s_content normalized)
    = snapshot 64 (st_heap s1) (s_content normalized).

Definition nested_example : json :=
  JObj [("type", JStr "object");
        ("properties", JObj [("a", JObj [("properties", JObj [("b", JObj [])])])])].

Definition leaf_example : json :=
  JArr [JObj [("type", JStr "string")]; JObj [("type", JStr "number")]].

(** ** OpenAPI operation synthesis *)

(** The schemas a synthesis returns: their ids as given to the [SchemaId]
    constructor and the trees at their contents when it returned. *)
Definition synthesized (r : result (list Schema)) : option (list (string * option json)) :=
  match r with
  | Ok schemas s =>
      Some ((λ schema, (inputId (s_id schema),
                        snapshot 16 (st_heap s) (s_content schema))) <$> schemas)
  | _ => None
  end.

Definition operation_at (content : val) : Schema :=
  mkSchema Draft07 (Some 3) (mkSchemaId "op" None) content None.

Definition synthesize (j : json) : option (list (string * option json)) :=
  let '(content, s) := loaded j in
  synthesized
    (resolveOpenAPIV3SchemaContentObject (ext := sample) (operation_at content)
       content s).

Definition parameters_example : json :=
  JObj [("parameters", JArr [
    JObj [("name", JStr "id"); ("in", JStr "path"); ("required", JBool true)];
    JObj [("name", JStr "q"); ("in", JStr "query")]])].

Definition two_media_example : json :=
  JObj [("requestBody", JObj [("content", JObj [
    ("application/json", JObj [("schema", JObj [("type", JStr "string")])]);
    ("application/xml", JObj [("schema", JObj [("type", JStr "number")])])])])].

Definition paths_example : json :=
  JObj [("paths", JObj [("/pets", JObj [
    ("get", JObj [("$id", JStr "getPets")]);
    ("options", JObj [("$id", JStr "optionsPets")])])])].

(** The ids reported to [onFoundSchema], in order. *)
Definition found_ids {A} (r : result A) : option (list string) :=
  match r with
  | Ok _ s =>
      Some (omap (λ c, match c with
                       | OnFoundSchema sub => Some (inputId (s_id sub))
                       | _ => None
                       end) (st_calls s))
  | _ => None
  end.

(** The heap [h0] is still there, unchanged, at the start of the heap of
    [s]. *)
Definition kept (h0 : heap) (s : state) : Prop := h0 `prefix_of` st_heap s.

(** The same outcome, reported at another state. *)
Definition at_state {A} (r : result A) (s : state) : result A :=
  match r with
  | Ok a _ => Ok a s
  | Throw e _ => Throw e s
  | OutOfFuel => OutOfFuel
  end.

(** An operation whose [$ref] member, if it has one, is not an object:
    walking it writes to new objects only. *)
Definition plain_operation (s : state) (op : val) : Prop :=
  value_ok (st_heap s) op ∧ ∀ lf, get op "$ref" s ≠ Ok (VObj lf) s.

(** Two paths objects, at locations 4 and 5, whose path items hold the
    same [get] operation; the path item of the second holds an [options]
    operation as well. *)
Definition path_items_example : state :=
  heap_state [Object [("$id", VStr "getPets")] false;
              Object [("get", VObj 0)] false;
              Object [("$id", VStr "optionsPets")] false;
              Object [("get", VObj 0); ("options", VObj 2)] false;
              Object [("/pets", VObj 1)] false;
              Object [("/pets", VObj 3)] false].

(** A version 3 OpenAPI document schema with the given content. *)
Definition document_at (content : val) : Schema :=
  mkSchema Draft07 (Some 3) (mkSchemaId "doc" None) content None.

(** * Relations between the state before and after a computation *)

(** Whatever state [m] ends in, with a result or an exception, is related
    by [R] to the state it started from. *)
Definition moves {A} (R : relation state) (m : M A) : Prop :=
  ∀ s s', final_state (m s) = Some s' → R s s'.

(** * Construction of a schema: identifiers *)

(** [o'] is [o] with, possibly, an identifier put where there was none:
    every other member, and every identifier that was there, is as
    before. *)
Definition id_added (o o' : object) : Prop :=
  opSym o' = opSym o
  ∧ ∀ k, (k ≠ "id" → k ≠ "$id" → assoc_get k (props o') = assoc_get k (props o))
         ∧ (∀ v, assoc_get k (props o) = Some v → nullish v = false →
                 assoc_get k (props o') = Some v).

(** Nothing but such identifiers has been written. *)
Definition ids_only (s s' : state) : Prop :=
  st_schemas s' = st_schemas s ∧ st_references s' = st_references s
  ∧ st_current s' = st_current s ∧ st_calls s' = st_calls s
  ∧ Forall2 id_added (st_heap s) (st_heap s').

(** The identifier of the object at [li], as [getId] reads it *)
Definition id_of (type : SchemaType) (h : heap) (li : loc) : val :=
  match h !! li with
  | Some o => prop o (getIdPropertyName type)
  | None => VUndef
  end.

(** The identifier [setSubIds] gives to the member [key] *)
Definition sub_id (prefix key : string) : string :=
  "#/" +:+ prefix +:+ "/" +:+ key.

(** * Construction of a schema: the kind of document *)

Fixpoint all_digits (s : string) : bool :=
  match s with
  | String c s' => is_digit c && all_digits s'
  | EmptyString => true
  end.

(** [s] does not start with a digit *)
Definition no_digit_ahead (s : string) : Prop :=
  match s with
  | String c _ => is_digit c = false
  | EmptyString => True
  end.

(** The version strings the second pattern of [selectSchemaType] accepts *)
Definition openapi3_version (v : string) : Prop :=
  ∃ minor patch,
    v = "3." +:+ minor +:+ "." +:+ patch
    ∧ minor ≠ "" ∧ patch ≠ ""
    ∧ all_digits minor = true ∧ all_digits patch = true.

(** The schema [parseSchema] returns for the identifier [id] *)
Definition identified (empty : SchemaId) (type : SchemaType) (version : option nat)
    (id : string) (content : val) : Schema :=
  mkSchema type version (if String.eqb id "" then empty else mkSchemaId id None)
           content None.

(** A Swagger 2.0 document: the root at location 3, its [definitions] at
    location 2, with the definitions [Pet] (no identifier) and [Tag] (with
    one). *)
Definition swagger_example : state :=
  heap_state [Object [("type", VStr "object")] false;
              Object [("id", VStr "tag.json")] false;
              Object [("Pet", VObj 0); ("Tag", VObj 1)] false;
              Object [("swagger", VStr "2.0"); ("definitions", VObj 2)] false].

Definition no_id : SchemaId := mkSchemaId "" None.

(** ** Namespaces of an operation *)

(** [c] occurs in [s] *)
Fixpoint occurs (c : Ascii.ascii) (s : string) : bool :=
  match s with
  | String c' s' => Ascii.eqb c' c || occurs c s'
  | EmptyString => false
  end.

(** ** What discovery writes *)

(** Every member of [o'] is the member of [o], or is a [$ref] string put
    in the place of a [$ref] string. *)
Definition ref_rewritten (o o' : object) : Prop :=
  opSym o' = opSym o
  ∧ ∀ k, assoc_get k (props o') = assoc_get k (props o)
         ∨ (k = "$ref"
            ∧ ∃ r r', assoc_get k (props o) = Some (VStr r)
                      ∧ assoc_get k (props o') = Some (VStr r')).

(** A call of one of the two callbacks of [searchAllSubSchema]; a schema
    that is reported has a non-empty identifier, the type of the schema
    searched, and that schema as its root. *)
Definition is_found (schema : Schema) (c : call) : Prop :=
  match c with
  | OnFoundSchema sub =>
      s_type sub = s_type schema ∧ s_rootSchema sub = Some schema
      ∧ s_openApiVersion sub = None ∧ inputId (s_id sub) ≠ ""
  | OnFoundReference _ => True
  | _ => False
  end.

(** The objects that were there have at most their [$ref] strings
    rewritten and new objects come after them; the calls made are calls of
    the two callbacks; the rest of the state is as before. *)
Definition refs_only (schema : Schema) (s s' : state) : Prop :=
  st_schemas s' = st_schemas s ∧ st_references s' = st_references s
  ∧ st_current s' = st_current s
  ∧ (∃ calls, st_calls s' = st_calls s ++ calls ∧ Forall (is_found schema) calls)
  ∧ ∃ old new, st_heap s' = old ++ new ∧ Forall2 ref_rewritten (st_heap s) old.

(** A schema with one reference and, as an OpenAPI document, one
    operation. *)
Definition refs_example : json :=
  JObj [("properties", JObj [("a", JObj [("$ref", JStr "b.json")])]);
        ("paths", JObj [("/pets", JObj [("get", JObj [("$id", JStr "getPets")])])])].

(** ** Markers *)

(** The tree without its markers *)
Fixpoint unmark (n : node) : node :=
  match n with
  | Node _ children =>
      Node None ((fix go (l : list (string * node)) : list (string * node) :=
                    match l with
                    | [] => []
                    | (k, c) :: l' => (k, unmark c) :: go l'
                    end) children)
  end.

Definition unmark_map (map : list (string * node)) : list (string * node) :=
  (λ kc, (kc.1, unmark kc.2)) <$> map.

(** No object has two members of the same name. *)
Fixpoint keys_distinct (n : node) : Prop :=
  match n with
  | Node _ children =>
      NoDup children.*1
      ∧ (fix go (l : list (string * node)) : Prop :=
           match l with
           | [] => True
           | (_, c) :: l' => keys_distinct c ∧ go l'
           end) children
  end.

Definition map_distinct (map : list (string * node)) : Prop :=
  NoDup map.*1 ∧ Forall (λ kc, keys_distinct kc.2) map.

(** The tree a walk returns (the empty tree when it does not return) *)
Definition run_map (r : result (list (string * node))) : list (string * node) :=
  match r with
  | Ok map _ => map
  | _ => []
  end.

(** The map with the markers of the nodes under the keys [K] removed *)
Definition unmarked_at (K : list string) (map : list (string * node))
  : list (string * node) :=
  (λ kc, (kc.1, if bool_decide (kc.1 ∈ K) then unmark kc.2 else kc.2)) <$> map.

(** ** What normalisation leaves alone *)

(** Only the heap differs. *)
Definition heap_only (s s' : state) : Prop := s' = set_heap (st_heap s') s.

(** ** Nesting of the output *)

(** The calls that open or close a namespace, an interface or an inline
    object type *)
Definition bracket (c : call) : bool :=
  match c with
  | StartNest _ | EndNest | StartInterfaceNest _ | EndInterfaceNest
  | StartTypeNest | EndTypeNest _ => true
  | _ => false
  end.

(** Sequences of calls in which every opening call is closed by the
    closing call of its kind, in order *)
Inductive nested : list call → Prop :=
| nested_nil : nested []
| nested_plain (c : call) : bracket c = false → nested [c]
| nested_namespace (key : string) (cs : list call) :
    nested cs → nested (StartNest key :: cs ++ [EndNest])
| nested_interface (id : SchemaId) (cs : list call) :
    nested cs → nested (StartInterfaceNest id :: cs ++ [EndInterfaceNest])
| nested_type (terminate : bool) (cs : list call) :
    nested cs → nested (StartTypeNest :: cs ++ [EndTypeNest terminate])
| nested_app (cs cs' : list call) : nested cs → nested cs' → nested (cs ++ cs').

(** The calls made from [s] to [s'] are such a sequence. *)
Definition emits_nested (s s' : state) : Prop :=
  ∃ cs, st_calls s' = st_calls s ++ cs ∧ nested cs.

(** [R] relates the state [m] starts from to the state it returns in. *)
Definition returns {A} (R : relation state) (m : M A) : Prop :=
  ∀ s a s', m s = Ok a s' → R s s'.

(** ** Normalising twice *)

(** The [type] of the object needs no further normalisation: it is not an
    array, and it is not missing beside [properties] or
    [additionalProperties]. *)
Definition type_settled (o : object) : Prop :=
  match prop o "type" with
  | VArr _ => False
  | VUndef =>
      truthy (prop o "properties") || truthy (prop o "additionalProperties") = false
  | _ => True
  end.

(** ** The schema being generated *)

(** A reference to a named type is rendered relative to the schema [n]. *)
Definition relative_to (n : Schema) (c : call) : Prop :=
  match c with
  | OutputTypeIdName _ current _ => current = Some n
  | _ => True
  end.

(** From a state in which [n] is the current schema: it still is, and the
    references rendered since are relative to it. *)
Definition keeps_current (n : Schema) (s s' : state) : Prop :=
  st_current s = Some n →
  st_current s' = Some n
  ∧ ∃ cs, st_calls s' = st_calls s ++ cs ∧ Forall (relative_to n) cs.

(** ** Enumerations *)

(** The values whose numbers are integers of magnitude below 2^53: for
    them [to_string] is JavaScript's [String]. *)
Fixpoint safe_numbers (v : val) : Prop :=
  match v with
  | VNum n => (Z.abs n < 2 ^ 53)%Z
  | VArr vs =>
      (fix go (l : list val) : Prop :=
         match l with
         | [] => True
         | x :: l' => safe_numbers x ∧ go l'
         end) vs
  | _ => True
  end.

(** The literal emitted for a value of an enumeration whose schema has the
    type [type] *)
Definition enum_literal (type : val) (value : val) : string :=
  if is_str type "integer" then to_string value
  else dquote +:+ to_string value +:+ dquote.

(** ** Parameters given by reference *)

(** The value is an object of the heap whose [$ref], if any, is not a
    string. *)
Definition inline_parameter (h : heap) (q : val) : Prop :=
  ∃ lq oq, q = VObj lq ∧ h !! lq = Some oq ∧ typeof (prop oq "$ref") ≠ TString.

(** * The visits of the tree walk *)

(** What the walk does, in the order in which it does it: it hands a schema
    to [walkSchema] (with the fuel that call gets), opens the namespace of
    a key, or closes it.  [Exhausted] stands for a level that the fuel of
    the walk does not reach. *)
Inductive visit : Type :=
| Generate (fuel : nat) (schema : Schema)
| Enter (key : string)
| Leave
| Exhausted.

(** The visits of the node under [key]: its schema first, when it has a
    marker, then its children inside the namespace of the key, when it has
    children. *)
Definition node_visits (below : list (string * node) → list visit) (fuel : nat)
    (key : string) (n : node) : list visit :=
  match n with
  | Node marker children =>
      match marker with
      | Some schema => [Generate fuel schema]
      | None => []
      end
      ++ match children with
         | [] => []
         | _ :: _ => Enter key :: below children ++ [Leave]
         end
  end.

(** The visits of a tree: those of its nodes, taken in the order of the
    sorted keys. *)
Fixpoint visits (fuel : nat) (map : list (string * node)) : list visit :=
  match fuel with
  | O => [Exhausted]
  | S fuel =>
      concat ((λ key, match assoc_get key map with
                      | Some n => node_visits (visits fuel) fuel key n
                      | None => []
                      end) <$> sorted_keys map)
  end.

Definition perform {ext : Externals} (v : visit) : M unit :=
  match v with
  | Generate fuel schema => walkSchema fuel schema
  | Enter key => emit (StartNest key)
  | Leave => emit EndNest
  | Exhausted => out_of_fuel
  end.

Definition play {ext : Externals} (vs : list visit) : M unit := for_of vs perform.

Definition declared (v : visit) : option Schema :=
  match v with
  | Generate _ schema => Some schema
  | _ => None
  end.

(** The schemas a tree holds under its markers *)
Fixpoint markers (n : node) : list Schema :=
  match n with
  | Node marker children =>
      option_list marker
      ++ (fix go (l : list (string * node)) : list Schema :=
            match l with
            | [] => []
            | (_, c) :: l' => markers c ++ go l'
            end) children
  end.

Definition map_markers (map : list (string * node)) : list Schema :=
  concat ((λ kc, markers kc.2) <$> map).

(** ** Trees filled in another order *)





(** ** Unknown type names, from the walk to the run *)


(** ** Reduction of a [type] array *)

(** [rs] holds every entry of [ts], once. *)
Definition distinct_set_of (ts rs : list val) : Prop :=
  NoDup rs ∧ ∀ t, t ∈ rs ↔ t ∈ ts.

(** Modelled from the spec: utils.reduceTypes is not in the two files.  "A
    [type] array [is] reduced to its minimal distinct set". *)
Definition reduces_to_distinct_set (reduce : list val → list val) : Prop :=
  ∀ ts, distinct_set_of ts (reduce ts).

(** * Folding the members of [allOf] *)

(** The entries of the array [v]; none when [v] is not an array *)
Definition array_items (v : val) : list val :=
  match v with VArr vs => vs | _ => [] end.

(** The members of the object [v] in the heap [h]; none when [v] is not an
    object *)
Definition entries (h : heap) (v : val) : list (string * val) :=
  match v with
  | VObj lo => default [] (props <$> h !! lo)
  | _ => []
  end.

(** What [merge_key] stores under a key that holds [old] when it merges
    [value] into it, and the objects it creates. *)
Definition merged (h : heap) (old value : val) : val * list object :=
  match value with
  | VArr vs => (VArr (dedup (array_items old ++ vs)), [])
  | VObj _ =>
      (VObj (length h),
       [Object (union_by_name (entries h old) (entries h value)) false])
  | _ => (value, [])
  end.

(** ** The members of [allOf] *)

(** A member of [allOf] as [foldAllOf] takes it: [holder] is the object in
    the list, [content] the object that is merged into the node, which is
    the member itself or, for a member with a truthy [$ref], the content of
    the schema registered under that reference. *)
Record member : Type := Member {
  by_reference : bool;
  holder : loc;
  content : loc;
}.












(** * Theorems *)

(** ** The monad *)

Lemma bind_Ok {A B} (m : M A) (f : A → M B) s a s1 :
  m s = Ok a s1 → (m ≫= f) s = f a s1.
Proof. intros E. unfold mbind, M_bind. by rewrite E. Qed.

Lemma bind_Throw {A B} (m : M A) (f : A → M B) s e s1 :
  m s = Throw e s1 → (m ≫= f) s = Throw e s1.
Proof. intros E. unfold mbind, M_bind. by rewrite E. Qed.

Lemma mret_bind {A B} (a : A) (f : A → M B) s : (mret a ≫= f) s = f a s.
Proof. reflexivity. Qed.

Lemma bind_Ok_inv {A B} (m : M A) (f : A → M B) s b s2 :
  (m ≫= f) s = Ok b s2 → ∃ a s1, m s = Ok a s1 ∧ f a s1 = Ok b s2.
Proof.
  unfold mbind, M_bind. destruct (m s) as [a s1| |]; [eauto|discriminate..].
Qed.

Ltac munfold :=
  unfold mbind, mret, M_bind, M_ret, new_object, alloc, emit, modify, throw,
    get_state, store, lookup_obj, out_of_fuel.
Ltac rsimpl :=
  cbn [with_content with_id s_content s_id s_type s_rootSchema s_openApiVersion
       set_heap set_calls set_current set_schemas set_references
       st_heap st_calls st_current st_schemas st_references props opSym
       truthy nullish is_undefined isArray typeof is_str final_state].
Ltac msimpl := munfold; rsimpl.

Lemma lookup_fresh (h : heap) (o : object) : (h ++ [o]) !! length h = Some o.
Proof. by rewrite lookup_app_r, Nat.sub_diag. Qed.

Lemma snapshot_obj (depth : nat) (h : heap) (l : loc) (o : object) :
  h !! l = Some o →
  snapshot (S depth) h (VObj l) =
    JObj <$> mapM (λ kv, j ← snapshot depth h kv.2; Some (kv.1, j)) (props o).
Proof. intros E. cbn [snapshot]. by rewrite E. Qed.

(** C7: when the schema [normalizeContent] works on (the schema given, or
    its sub-schema at the pointer) has the boolean content [true], the
    content returned is a new empty object, and for [false] a new object
    whose only member [not] is a new empty object; nothing already on the
    heap is changed. *)
Theorem C7_boolean_schema {ext : Externals} (fuel : nat) (schema sub : Schema)
    (pointer : option string) (b : bool) (s s0 : state) :
  subject schema pointer s = Ok sub s0 →
  s_content sub = VBool b →
  let h := st_heap s0 in
  let r := normalizeContent (S fuel) schema pointer s in
  r = (if b
       then Ok (with_content sub (VObj (length h)))
               (set_heap (h ++ [Object [] false]) s0)
       else Ok (with_content sub (VObj (S (length h))))
               (set_heap (h ++ [Object [] false;
                                Object [("not", VObj (length h))] false]) s0))
  ∧ content_of r = Some (if b then JObj [] else JObj [("not", JObj [])]).
Proof.
  intros Hsub Hb h r. assert (Hr : r = (if b
       then Ok (with_content sub (VObj (length h)))
               (set_heap (h ++ [Object [] false]) s0)
       else Ok (with_content sub (VObj (S (length h))))
               (set_heap (h ++ [Object [] false;
                                Object [("not", VObj (length h))] false]) s0))).
  { subst r h. cbn [normalizeContent]. fold (subject schema pointer).
    rewrite (bind_Ok _ _ _ _ _ Hsub). cbv zeta. rewrite Hb. rsimpl.
    rewrite bool_decide_eq_true_2 by done.
    destruct b; msimpl; [reflexivity|].
    rewrite length_app, Nat.add_1_r, <- app_assoc. reflexivity. }
  split; [exact Hr|]. rewrite Hr. unfold content_of.
  destruct b; rsimpl.
  - by rewrite (snapshot_obj _ _ _ _ (lookup_fresh h _)).
  - assert (E0 : (h ++ [Object [] false; Object [("not", VObj (length h))] false])
                   !! length h = Some (Object [] false)).
    { by rewrite lookup_app_r, Nat.sub_diag. }
    assert (E1 : (h ++ [Object [] false; Object [("not", VObj (length h))] false])
                   !! S (length h) = Some (Object [("not", VObj (length h))] false)).
    { rewrite lookup_app_r by lia. by replace (S (length h) - length h) with 1 by lia. }
    rewrite (snapshot_obj _ _ _ _ E1). cbn [props mapM fst snd].
    by rewrite (snapshot_obj _ _ _ _ E0).
Qed.

(** C7, witness: the sub-schema [false] at [/additionalProperties] of
    [{additionalProperties: false}] is returned as [{not: {}}]. *)
Lemma C7_boolean_schema_witness :
  let schema := mkSchema Draft04 None (mkSchemaId "a" None) (VObj 0) None in
  let s := State [Object [("additionalProperties", VBool false)] false] [] [] None [] in
  content_of (normalizeContent (ext := sample) 1 schema
                (Some "/additionalProperties") s)
  = Some (JObj [("not", JObj [])]).
Proof.
  intros schema s.
  exact (proj2 (C7_boolean_schema (ext := sample) 0 schema _
                  (Some "/additionalProperties") false s s eq_refl eq_refl)).
Defined.

Lemma get_obj (l : loc) (o : object) (k : string) (s : state) :
  st_heap s !! l = Some o → get (VObj l) k s = Ok (prop o k) s.
Proof. intros E. cbn [get]. munfold. by rewrite E. Qed.

Lemma set_obj (l : loc) (o : object) (k : string) (x : val) (s : state) :
  st_heap s !! l = Some o → set (VObj l) k x s = Ok tt (set_prop l k x o s).
Proof. intros E. cbn [set]. munfold. by rewrite E. Qed.


Lemma with_content_same (schema : Schema) (v : val) :
  s_content schema = v → with_content schema v = schema.
Proof. intros <-. by destruct schema. Qed.

Lemma normalizeType_obj {ext : Externals} (l : loc) (o : object) (s : state) :
  st_heap s !! l = Some o →
  normalizeType (VObj l) s = Ok tt (type_normalised l o s).
Proof.
  intros E. unfold normalizeType, type_normalised.
  rewrite (bind_Ok _ _ _ _ _ (get_obj l o "type" s E)).
  rewrite (bind_Ok _ _ _ _ _ (get_obj l o "properties" s E)).
  rewrite (bind_Ok _ _ _ _ _ (get_obj l o "additionalProperties" s E)).
  destruct (prop o "type") eqn:Et; rsimpl; try reflexivity.
  - destruct (truthy (prop o "properties") || truthy (prop o "additionalProperties"));
      [by apply set_obj|reflexivity].
  - by apply set_obj.
Qed.

Lemma foldAllOf_absent {ext : Externals} (normalize : Schema → M Schema) (l : loc)
    (o : object) (s : state) :
  st_heap s !! l = Some o →
  truthy (prop o "allOf") = false →
  foldAllOf normalize (VObj l) s = Ok tt s.
Proof.
  intros El Ea. unfold foldAllOf.
  rewrite (bind_Ok _ _ _ _ _ (get_obj l o "allOf" s El)). by rewrite Ea.
Qed.

(** C8, counterexample: the content [{additionalProperties: false}] has no
    [type] and has [additionalProperties], and is returned without a
    [type]. *)
Lemma C8_counterexample : ¬ C8_as_stated.
Proof.
  intros Hc.
  specialize (Hc sample 0 (schema_at 0) (schema_at 0) 0
                (Object [("additionalProperties", VBool false)] false)
                (heap_state [Object [("additionalProperties", VBool false)] false])
                (heap_state [Object [("additionalProperties", VBool false)] false])
                eq_refl eq_refl eq_refl (or_intror (mk_is_Some _ _ eq_refl)) eq_refl).
  discriminate Hc.
Qed.

(** ** Association lists *)

Lemma assoc_get_set {A} (k k' : string) (v : A) (l : list (string * A)) :
  assoc_get k' (assoc_set k v l) = if String.eqb k k' then Some v else assoc_get k' l.
Proof.
  induction l as [|[k0 v0] l IH]; cbn.
  - by destruct (String.eqb k k').
  - destruct (String.eqb_spec k0 k) as [->|Hne]; cbn.
    + by destruct (String.eqb k k').
    + destruct (String.eqb_spec k0 k') as [->|Hne'].
      * by rewrite (proj2 (String.eqb_neq k k')) by congruence.
      * exact IH.
Qed.

Lemma assoc_get_set_ne {A} (k k' : string) (v : A) (l : list (string * A)) :
  k ≠ k' → assoc_get k' (assoc_set k v l) = assoc_get k' l.
Proof. intros Hne. rewrite assoc_get_set. by rewrite (proj2 (String.eqb_neq k k')). Qed.

Lemma assoc_get_del {A} (k : string) (l : list (string * A)) :
  assoc_get k (assoc_del k l) = None.
Proof.
  induction l as [|[k0 v0] l IH]; cbn; [done|].
  destruct (String.eqb k0 k) eqn:E; [done|]. cbn. by rewrite E.
Qed.


Lemma assoc_get_elem {A} (k : string) (v : A) (l : list (string * A)) :
  assoc_get k l = Some v → (k, v) ∈ l.
Proof.
  induction l as [|[k0 v0] l IH]; [done|]. cbn.
  destruct (String.eqb_spec k0 k) as [->|].
  - intros [= ->]. by left.
  - intros ?. right. by apply IH.
Qed.







(** ** [mergeSchema] and [foldAllOf] return on well-formed heaps *)




Lemma objectKeys_obj (l : loc) (o : object) (s : state) :
  st_heap s !! l = Some o → objectKeys (VObj l) s = Ok (ownKeys (props o).*1) s.
Proof. intros E. cbn [objectKeys]. munfold. by rewrite E. Qed.

Lemma delete_prop_inv (l : loc) (k : string) (s s' : state) :
  delete_prop (VObj l) k s = Ok tt s' →
  ∃ o, st_heap s !! l = Some o
       ∧ st_heap s' !! l = Some (Object (assoc_del k (props o)) (opSym o)).
Proof.
  cbn [delete_prop]. munfold. destruct (st_heap s !! l) as [o|] eqn:E; [|done].
  intros [= <-]. exists o. split; [done|]. rsimpl.
  rewrite list_lookup_insert_eq by (by eapply lookup_lt_Some). done.
Qed.

Section allOf.
Context {ext : Externals}.

Lemma foldAllOf_deletes (normalize : Schema → M Schema) (l : loc) (o : object)
    (s s1 : state) :
  st_heap s !! l = Some o → truthy (prop o "allOf") = true →
  foldAllOf normalize (VObj l) s = Ok tt s1 →
  ∃ o1, st_heap s1 !! l = Some o1 ∧ assoc_get "allOf" (props o1) = None.
Proof.
  intros El Ht. unfold foldAllOf.
  rewrite (bind_Ok _ _ _ _ _ (get_obj l o "allOf" s El)), Ht.
  intros (subs & s2 & _ & (? & s3 & _ & Hd)%bind_Ok_inv)%bind_Ok_inv.
  apply delete_prop_inv in Hd as (o3 & _ & E3).
  eexists. split; [exact E3|]. apply assoc_get_del.
Qed.


End allOf.


Lemma meq_refl {A} (m : M A) : m ≃ m.
Proof. by intros s. Qed.

Lemma meq_symm {A} (m m' : M A) : m ≃ m' → m' ≃ m.
Proof. by intros Hm s. Qed.

Lemma meq_trans {A} (m1 m2 m3 : M A) : m1 ≃ m2 → m2 ≃ m3 → m1 ≃ m3.
Proof. intros H1 H2 s. by rewrite H1. Qed.

Lemma meq_bind {A B} (m m' : M A) (f f' : A → M B) :
  m ≃ m' → (∀ a, f a ≃ f' a) → (m ≫= f) ≃ (m' ≫= f').
Proof.
  intros Hm Hf s. unfold mbind, M_bind. rewrite Hm.
  destruct (m' s); [apply Hf|done..].
Qed.

Lemma meq_bind_assoc {A B C} (m : M A) (f : A → M B) (g : B → M C) :
  ((m ≫= f) ≫= g) ≃ (m ≫= λ a, f a ≫= g).
Proof. intros s. unfold mbind, M_bind. by destruct (m s). Qed.

Lemma meq_skip_r (m : M unit) : (m;; mret tt) ≃ m.
Proof. intros s. unfold mbind, M_bind. by destruct (m s) as [[] ?| |]. Qed.

Lemma meq_skip_l {A} (m : M A) : (mret tt;; m) ≃ m.
Proof. by intros s. Qed.

Lemma for_count_ext (n : nat) (i : Z) (body body' : Z → M unit) :
  (∀ j, (i ≤ j < i + Z.of_nat n)%Z → body j ≃ body' j) →
  for_count n i body ≃ for_count n i body'.
Proof.
  revert i. induction n as [|n IH]; intros i Hb; cbn [for_count]; [apply meq_refl|].
  apply meq_bind; [apply Hb; lia|]. intros _. apply IH. intros j ?. apply Hb. lia.
Qed.

Lemma range_S (lo : Z) (n : nat) : range lo (S n) = lo :: range (lo + 1) n.
Proof.
  unfold range. cbn. f_equal; [f_equal; lia|].
  rewrite <- fmap_S_seq, <- list_fmap_compose. apply list_fmap_ext.
  intros _ j _. cbn. lia.
Qed.

Lemma joined_cons (sep m : M unit) (ms : list (M unit)) :
  ms ≠ [] → joined sep (m :: ms) = (m;; sep;; joined sep ms).
Proof. by destruct ms. Qed.

Lemma range_joined (sep : M unit) (f : Z → M unit) (i : Z) (n : nat) :
  joined sep (f <$> range i (S (S n)))
  = (f i;; sep;; joined sep (f <$> range (i + 1) (S n))).
Proof.
  rewrite (range_S i). rewrite fmap_cons. apply joined_cons.
  by rewrite range_S.
Qed.

Lemma range_1 (lo : Z) : range lo 1 = [lo].
Proof. unfold range. cbn. f_equal. lia. Qed.

(** A loop that writes the separator before every element but the first. *)
Lemma for_count_sep_before (sep : M unit) (f : Z → M unit) (lo : Z) (n : nat) (i : Z) :
  (lo < i)%Z →
  for_count (S n) i (λ j, (if bool_decide (j > lo)%Z then sep else mret tt);; f j)
  ≃ (sep;; joined sep (f <$> range i (S n))).
Proof.
  revert i. induction n as [|n IH]; intros i Hi.
  - cbn [for_count]. rewrite bool_decide_eq_true_2 by lia.
    rewrite range_1. cbn [fmap list_fmap joined].
    eapply meq_trans; [apply meq_skip_r|]. apply meq_refl.
  - change (for_count (S (S n)) i ?b) with (b i;; for_count (S n) (i + 1) b).
    cbv beta. rewrite bool_decide_eq_true_2 by lia. rewrite range_joined.
    eapply meq_trans; [apply meq_bind_assoc|]. apply meq_bind; [apply meq_refl|].
    intros _. apply meq_bind; [apply meq_refl|]. intros _. apply IH. lia.
Qed.

Lemma for_below_joined (sep : M unit) (f : Z → M unit) (n : Z) :
  for_below 0 n (λ j, (if bool_decide (j > 0)%Z then sep else mret tt);; f j)
  ≃ joined sep (f <$> range 0 (Z.to_nat n)).
Proof.
  unfold for_below. replace (n - 0)%Z with n by lia.
  destruct (Z.to_nat n) as [|[|k]].
  - apply meq_refl.
  - cbn [for_count]. rewrite bool_decide_eq_false_2 by lia. rewrite range_1.
    eapply meq_trans; [apply meq_skip_r|]. apply meq_refl.
  - change (for_count (S (S k)) 0%Z ?b) with (b 0%Z;; for_count (S k) (0 + 1) b).
    cbv beta. rewrite bool_decide_eq_false_2 by lia. rewrite range_joined.
    apply meq_bind; [apply meq_refl|]. intros _.
    apply for_count_sep_before. lia.
Qed.

(** A loop that writes the separator after every element but the last. *)
Lemma for_count_sep_after (sep : M unit) (f : Z → M unit) (hi : Z) (n : nat) (i : Z) :
  (i + Z.of_nat n = hi)%Z →
  for_count (S n) i (λ j, f j;; if bool_decide (j < hi)%Z then sep else mret tt)
  ≃ joined sep (f <$> range i (S n)).
Proof.
  revert i. induction n as [|n IH]; intros i Hi.
  - cbn [for_count]. rewrite bool_decide_eq_false_2 by lia. rewrite range_1.
    eapply meq_trans; [apply meq_skip_r|]. apply meq_skip_r.
  - change (for_count (S (S n)) i ?b) with (b i;; for_count (S n) (i + 1) b).
    cbv beta. rewrite bool_decide_eq_true_2 by lia. rewrite range_joined.
    eapply meq_trans; [apply meq_bind_assoc|]. apply meq_bind; [apply meq_refl|].
    intros _. apply meq_bind; [apply meq_refl|]. intros _. apply IH. lia.
Qed.

Section tuple_union_correct.
Context {ext : Externals}.

Lemma tuple_slots_joined (fuel : nat) (schema : Schema) (len effectiveMax n : Z) :
  (n ≤ effectiveMax)%Z →
  for_below 0 n (λ i,
    (if bool_decide (i > 0)%Z then emit (OutputRawValue ", " None) else mret tt);;
    if bool_decide (i < len)%Z then
      type ← normalizeContent fuel schema (Some ("/items/" +:+ pretty i));
      if isEmpty (s_id type) then generateTypeProperty fuel type false
      else outputTypeIdName type false
    else if bool_decide (i < effectiveMax - 1)%Z then
      emit (OutputStringTypeName schema "Object" false (Some false))
    else emit (OutputStringTypeName schema "any" false (Some false)))
  ≃ joined (emit (OutputRawValue ", " None))
      (tuple_slot fuel schema len effectiveMax <$> range 0 (Z.to_nat n)).
Proof.
  intros Hn. eapply meq_trans; [|apply for_below_joined].
  unfold for_below. apply for_count_ext. intros i Hi.
  apply meq_bind; [apply meq_refl|]. intros _. unfold tuple_slot, item_type.
  destruct (bool_decide (i < len)%Z); [apply meq_refl|].
  destruct (decide (i = effectiveMax - 1)%Z) as [->|Hne].
  - rewrite bool_decide_eq_false_2, bool_decide_eq_true_2 by lia. apply meq_refl.
  - rewrite bool_decide_eq_true_2, bool_decide_eq_false_2 by lia. apply meq_refl.
Qed.

(** C2 (amended): an array schema whose [items] is a list that is not empty,
    or whose [minItems] is present, is emitted as the union of one tuple
    for every length from [minItems] (1 when absent) up to
    [effectiveMax = 1 + max(minItems or 0, items.length)]; slot [i] is the
    type of the [i]-th item below [items.length], ["any"] at
    [effectiveMax - 1], and ["Object"] elsewhere.  An empty [items] list
    without [minItems] is emitted as ["any[]"]. *)
Theorem C2_tuple_union (fuel : nat) (schema : Schema) (terminate : bool) (l : loc)
    (o : object) (items : list val) (minItems : option Z) (s : state) :
  s_content schema = VObj l →
  st_heap s !! l = Some o →
  prop o "items" = VArr items →
  prop o "minItems" = from_option VNum VUndef minItems →
  (items ≠ [] ∨ is_Some minItems →
   generateArrayTypeProperty (S fuel) schema terminate s =
     tuple_union fuel schema terminate (Z.of_nat (length items)) minItems s)
  ∧ (items = [] → minItems = None →
     generateArrayTypeProperty (S fuel) schema terminate s =
       emit (OutputStringTypeName schema "any[]" terminate None) s).
Proof.
  intros Ec El Ei Em. split.
  2: { intros -> ->. cbn [generateArrayTypeProperty]. rewrite Ec.
       rewrite (bind_Ok _ _ _ _ _ (get_obj l o "items" s El)).
       rewrite (bind_Ok _ _ _ _ _ (get_obj l o "minItems" s El)).
       by rewrite Ei, Em. }
  intros Hne. cbn [generateArrayTypeProperty]. rewrite Ec.
  rewrite (bind_Ok _ _ _ _ _ (get_obj l o "items" s El)).
  rewrite (bind_Ok _ _ _ _ _ (get_obj l o "minItems" s El)).
  rewrite Ei, Em. rsimpl. cbv zeta.
  assert (bool_decide (Z.of_nat (length items) = 0)%Z
          && is_undefined (from_option VNum VUndef minItems) = false) as ->.
  { destruct Hne as [Hne|[n ->]]; [|by rewrite andb_false_r].
    destruct items; [done|]. by rewrite bool_decide_eq_false_2. }
  assert ((match from_option VNum VUndef minItems with
           | VUndef => mret None
           | VNum n => mret (Some n)
           | _ => throw (IllTyped "minItems is not a number")
           end : M (option Z)) = mret minItems) as -> by (by destruct minItems).
  rewrite mret_bind. unfold tuple_union. cbv zeta.
  set (len := Z.of_nat (length items)).
  set (effectiveMax := (1 + Z.max (default 0%Z minItems) len)%Z).
  set (first := default 1%Z minItems).
  assert (Hfirst : (first ≤ effectiveMax)%Z).
  { subst first effectiveMax len. destruct minItems; cbn; lia. }
  apply meq_bind; [|intros _; apply meq_refl].
  unfold for_upto.
  replace (Z.to_nat (effectiveMax - first + 1))
    with (S (Z.to_nat (effectiveMax - first))) by lia.
  eapply meq_trans; [|apply (for_count_sep_after _ _ effectiveMax); lia].
  apply for_count_ext. intros n Hn. unfold tuple.
  eapply meq_trans; [|apply meq_symm, meq_bind_assoc].
  apply meq_bind; [apply meq_refl|]. intros _.
  eapply meq_trans; [|apply meq_symm, meq_bind_assoc].
  apply meq_bind; [apply tuple_slots_joined; lia|]. intros _. apply meq_refl.
Qed.

End tuple_union_correct.

(** C2, witness: [items: [X, Y]] with [minItems: 1] yields the union of a
    1-, a 2- and a 3-element tuple whose third slot is ["any"]; [items: []]
    alone yields ["any[]"]. *)
Lemma C2_tuple_union_witness :
  let s := (loaded tuple_example).2 in
  let s' := heap_state [Object [("type", VStr "array"); ("items", VArr [])] false] in
  generateArrayTypeProperty (ext := sample) 5 (schema_at 2) true s
  = tuple_union (ext := sample) 4 (schema_at 2) true 2 (Some 1%Z) s
  ∧ text_of (generateArrayTypeProperty (ext := sample) 5 (schema_at 2) true s)
    = Some ["["; "string"; "]"; " | ";
            "["; "string"; ", "; "number"; "]"; " | ";
            "["; "string"; ", "; "number"; ", "; "any"; "]"; ""]
  ∧ text_of (generateArrayTypeProperty (ext := sample) 5 (schema_at 0) true s')
    = Some ["any[]"].
Proof.
  intros s s'. split; [|split; [by vm_compute|]].
  - exact (proj1 (C2_tuple_union (ext := sample) 4 (schema_at 2) true 2
             (Object [("type", VStr "array"); ("items", VArr [VObj 0; VObj 1]);
                      ("minItems", VNum 1)] false)
             [VObj 0; VObj 1] (Some 1%Z) s eq_refl eq_refl eq_refl eq_refl)
             (or_intror (mk_is_Some _ _ eq_refl))).
  - by rewrite (proj2 (C2_tuple_union (ext := sample) 4 (schema_at 0) true 0
             (Object [("type", VStr "array"); ("items", VArr [])] false)
             [] None s' eq_refl eq_refl eq_refl eq_refl) eq_refl eq_refl).
Defined.

(** C2, counterexample: for [items: []] without [minItems] the emitter
    writes ["any[]"], not the one-element tuple of the formula. *)
Lemma C2_counterexample : ¬ C2_as_stated.
Proof.
  intros Hc.
  specialize (Hc sample 0 (schema_at 0) true 0
                (Object [("type", VStr "array"); ("items", VArr [])] false)
                [] None
                (heap_state [Object [("type", VStr "array"); ("items", VArr [])] false])
                eq_refl eq_refl eq_refl eq_refl).
  vm_compute in Hc. discriminate Hc.
Qed.

(** ** The order of the keys *)

Lemma units_compare_eq (a b : list N) : units_compare a b = Eq ↔ a = b.
Proof.
  revert b. induction a as [|x a IH]; intros [|y b]; cbn; try (by split).
  destruct (N.compare_spec x y) as [->| |]; [|by split; [|intros [= -> ->]; lia]..].
  rewrite IH. split; [by intros ->|by intros [= ->]].
Qed.

Lemma units_compare_opp (a b : list N) :
  units_compare b a = CompOpp (units_compare a b).
Proof.
  revert b. induction a as [|x a IH]; intros [|y b]; cbn; try done.
  rewrite (N.compare_antisym x y). destruct (x ?= y)%N; cbn; [apply IH|done..].
Qed.

Lemma units_compare_lt_trans (a b c : list N) :
  units_compare a b = Lt → units_compare b c = Lt → units_compare a c = Lt.
Proof.
  revert b c. induction a as [|x a IH]; intros [|y b] [|z c]; cbn; try done.
  destruct (N.compare_spec x y) as [->| |]; [|intros _|done].
  - destruct (y ?= z)%N; [apply IH|done..].
  - destruct (N.compare_spec y z) as [->| |]; [| |done]; intros _.
    + by rewrite (proj2 (N.compare_lt_iff x z)).
    + by rewrite (proj2 (N.compare_lt_iff x z)) by lia.
Qed.

Lemma bytes_inj (a b : string) : bytes a = bytes b → a = b.
Proof.
  revert b. induction a as [|x a IH]; intros [|y b]; cbn; try done.
  intros [= Hxy Hab]. f_equal; [|by apply IH].
  rewrite <- (ascii_N_embedding x), <- (ascii_N_embedding y). by rewrite Hxy.
Qed.

Lemma key_compare_eq (a b : string) : key_compare a b = Eq ↔ a = b.
Proof.
  unfold key_compare. split.
  - destruct (units_compare (utf16 a) (utf16 b)); [|done..].
    intros ?%units_compare_eq. by apply bytes_inj.
  - intros ->. by rewrite !(proj2 (units_compare_eq _ _)).
Qed.

Lemma key_compare_opp (a b : string) :
  key_compare b a = CompOpp (key_compare a b).
Proof.
  unfold key_compare. rewrite (units_compare_opp (utf16 a)).
  destruct (units_compare (utf16 a) (utf16 b)); cbn; [|done..].
  apply units_compare_opp.
Qed.

Lemma key_compare_lt_trans (a b c : string) :
  key_compare a b = Lt → key_compare b c = Lt → key_compare a c = Lt.
Proof.
  unfold key_compare.
  destruct (units_compare (utf16 a) (utf16 b)) eqn:Eab; [|intros _|done].
  - apply units_compare_eq in Eab as ->.
    destruct (units_compare (utf16 b) (utf16 c)); [|done..].
    apply units_compare_lt_trans.
  - destruct (units_compare (utf16 b) (utf16 c)) eqn:Ebc; [|intros _|done].
    + apply units_compare_eq in Ebc as <-. by rewrite Eab.
    + by rewrite (units_compare_lt_trans _ _ _ Eab Ebc).
Qed.

#[global] Instance key_le_total : Total key_le.
Proof.
  intros a b. unfold key_le. rewrite (key_compare_opp a b).
  destruct (key_compare a b); cbn; auto.
Qed.

#[global] Instance key_le_trans : Transitive key_le.
Proof.
  intros a b c. unfold key_le.
  destruct (key_compare a b) eqn:Eab; [|intros _|done].
  - by apply key_compare_eq in Eab as ->.
  - destruct (key_compare b c) eqn:Ebc; [|intros _|done].
    + apply key_compare_eq in Ebc as <-. by rewrite Eab.
    + by rewrite (key_compare_lt_trans _ _ _ Eab Ebc).
Qed.

#[global] Instance key_le_antisymm : AntiSymm (=) key_le.
Proof.
  intros a b. unfold key_le. rewrite (key_compare_opp a b).
  destruct (key_compare a b) eqn:Eab; cbn; [|done..].
  intros _ _. by apply key_compare_eq.
Qed.

(** ** The order of the own keys of an object *)

Lemma elem_of_ownKeys (names : list string) (k : string) :
  k ∈ ownKeys names ↔ k ∈ names.
Proof.
  unfold ownKeys. rewrite elem_of_app, merge_sort_Permutation, !list_elem_of_filter.
  destruct (array_index_key k) eqn:E.
  - split; [intros [[_ ?]|[? _]]; done|]. intros ?. left. by split; [eexists|].
  - split; [intros [[[? ?] _]|[_ ?]]; done|]. intros ?. by right.
Qed.

Lemma ownKeys_plain (names : list string) :
  Forall (λ k, array_index_key k = None) names → ownKeys names = names.
Proof.
  intros H. unfold ownKeys.
  assert (filter (λ k, is_Some (array_index_key k)) names = []) as ->.
  { induction H as [|k names Hk _ IH]; [done|].
    rewrite filter_cons_False; [done|]. rewrite Hk. by intros [? ?]. }
  cbn. induction H as [|k names Hk _ IH]; [done|].
  rewrite filter_cons_True by done. by rewrite IH.
Qed.

Lemma ownKeys_nil : ownKeys [] = [].
Proof. reflexivity. Qed.



Lemma sorted_keys_sorted (m : list (string * node)) :
  Sorted key_le (sorted_keys m) ∧ sorted_keys m ≡ₚ m.*1.
Proof.
  split; [apply Sorted_merge_sort; apply _|apply merge_sort_Permutation].
Qed.







Section determinism.
Context {ext : Externals}.

Lemma walk_unfold (fuel : nat) (map : list (string * node)) :
  walk (S fuel) map = fold_of (sorted_keys map) map (walk_body fuel (walk fuel)).
Proof. reflexivity. Qed.




End determinism.

Section writers.
Context {ext : Externals}.

Lemma steps_pure {A} (m : M A) (s : state) :
  (∀ s', final_state (m s) = Some s' → s' = s) → steps_at s m.
Proof. intros Hm s' Hs'. by rewrite (Hm s' Hs'). Qed.

Lemma steps_ret {A} (a : A) : steps_only (mret a : M A).
Proof. intros s. apply steps_pure. by intros s' [= <-]. Qed.

Lemma steps_throw {A} (e : exn) : steps_only (throw e : M A).
Proof. intros s. apply steps_pure. by intros s' [= <-]. Qed.

Lemma steps_out_of_fuel {A} : steps_only (out_of_fuel : M A).
Proof. by intros s s'. Qed.

Lemma steps_bind_at {A B} (m : M A) (f : A → M B) (s : state) :
  steps_at s m →
  (∀ a s1, m s = Ok a s1 → steps_at s1 (f a)) →
  steps_at s (m ≫= f).
Proof.
  intros Hm Hf s'. unfold mbind, M_bind.
  destruct (m s) as [a s1|e s1|] eqn:E; [| |done].
  - intros Hs'. etrans; [apply Hm; by rewrite E|]. by eapply Hf.
  - intros Hs'. apply Hm. by rewrite E.
Qed.

Lemma steps_bind {A B} (m : M A) (f : A → M B) :
  steps_only m → (∀ a, steps_only (f a)) → steps_only (m ≫= f).
Proof. intros Hm Hf s. apply steps_bind_at; [done|]. intros a s1 _. apply Hf. Qed.

Lemma state_eta (s : state) : set_calls (st_calls s) (set_current (st_current s) s) = s.
Proof. by destruct s. Qed.

Lemma steps_emit (c : call) : steps_only (emit c).
Proof.
  intros s s' [= <-]. apply rtc_once.
  replace (set_calls (st_calls s ++ [c]) s)
    with (set_calls (st_calls s ++ [c]) (set_current (st_current s) s))
    by (by destruct s).
  apply step_output.
Qed.

Lemma steps_set_current (c : option Schema) : steps_only (modify (set_current c)).
Proof.
  intros s s' [= <-]. apply rtc_once.
  replace (set_current c s) with (set_calls (st_calls s) (set_current c s))
    by (by destruct s).
  apply step_output.
Qed.

Lemma lookup_obj_state (l : loc) (s s' : state) :
  final_state (lookup_obj l s) = Some s' → s' = s.
Proof. unfold lookup_obj. destruct (st_heap s !! l); by intros [= <-]. Qed.

Lemma get_state_unchanged (v : val) (k : string) (s s' : state) :
  final_state (get v k s) = Some s' → s' = s.
Proof.
  destruct v; cbn [get]; munfold; try (by intros [= <-]).
  destruct (st_heap s !! l); by intros [= <-].
Qed.

Lemma get_Ok_state (v : val) (k : string) (s s1 : state) (x : val) :
  get v k s = Ok x s1 → s1 = s.
Proof. intros E. apply (get_state_unchanged v k). by rewrite E. Qed.

Lemma steps_get (v : val) (k : string) : steps_only (get v k).
Proof. intros s. apply steps_pure, get_state_unchanged. Qed.

Lemma steps_has_prop (v : val) (k : string) : steps_only (has_prop v k).
Proof.
  intros s. apply steps_pure. intros s'.
  destruct v; cbn [has_prop]; munfold; try (by intros [= <-]).
  destruct (st_heap s !! l); by intros [= <-].
Qed.

Lemma steps_objectKeys (v : val) : steps_only (objectKeys v).
Proof.
  intros s. apply steps_pure. intros s'.
  destruct v; cbn [objectKeys]; munfold; try (by intros [= <-]).
  destruct (st_heap s !! l); by intros [= <-].
Qed.

Lemma steps_dereference (v : val) : steps_only (dereference v).
Proof.
  intros s. apply steps_pure. intros s'.
  destruct v; cbn [dereference]; munfold; try (by intros [= <-]).
  destruct (assoc_get _ _); by intros [= <-].
Qed.

Lemma steps_the_array (what : string) (v : val) : steps_only (the_array what v).
Proof. destruct v; cbn [the_array]; (apply steps_ret || apply steps_throw). Qed.

Lemma steps_get_state : steps_only get_state.
Proof. intros s. apply steps_pure. by intros s' [= <-]. Qed.

Lemma steps_outputTypeIdName (schema : Schema) (terminate : bool) :
  steps_only (outputTypeIdName schema terminate).
Proof.
  unfold outputTypeIdName. apply steps_bind; [apply steps_get_state|].
  intros s. apply steps_emit.
Qed.

Lemma steps_normalizeContent (fuel : nat) (schema : Schema) (pointer : option string) :
  steps_only (normalizeContent fuel schema pointer).
Proof. intros s s' Hs'. apply rtc_once. by eapply step_normalize. Qed.

Lemma steps_for_of {A} (xs : list A) (body : A → M unit) :
  (∀ x, steps_only (body x)) → steps_only (for_of xs body).
Proof.
  intros Hb. induction xs as [|x xs IH]; cbn [for_of]; [apply steps_ret|].
  apply steps_bind; [apply Hb|]. by intros _.
Qed.

Lemma steps_fold_of {A S} (xs : list A) (acc : S) (body : S → A → M S) :
  (∀ acc x, steps_only (body acc x)) → steps_only (fold_of xs acc body).
Proof.
  intros Hb. revert acc. induction xs as [|x xs IH]; intros acc; cbn [fold_of];
    [apply steps_ret|].
  apply steps_bind; [apply Hb|]. intros acc'. apply IH.
Qed.

Lemma steps_for_count (n : nat) (i : Z) (body : Z → M unit) :
  (∀ j, steps_only (body j)) → steps_only (for_count n i body).
Proof.
  intros Hb. revert i. induction n as [|n IH]; intros i; cbn [for_count];
    [apply steps_ret|].
  apply steps_bind; [apply Hb|]. intros _. apply IH.
Qed.

Lemma steps_forEach_from {A} (index : nat) (xs : list A) (body : A → nat → M unit) :
  (∀ x i, steps_only (body x i)) → steps_only (forEach_from index xs body).
Proof.
  intros Hb. revert index. induction xs as [|x xs IH]; intros index;
    cbn [forEach_from]; [apply steps_ret|].
  apply steps_bind; [apply Hb|]. intros _. apply IH.
Qed.

Lemma steps_outputArrayedType {A} (schema : Schema) (types : list A)
    (output : A → nat → M unit) (terminate : bool) :
  (∀ t i, steps_only (output t i)) →
  steps_only (outputArrayedType schema types output terminate).
Proof.
  intros Ho. unfold outputArrayedType.
  apply steps_bind; [apply steps_emit|]. intros _.
  apply steps_bind; [|intros _; apply steps_emit].
  apply steps_forEach_from. intros t i.
  apply steps_bind; [apply Ho|]. intros _.
  destruct (bool_decide _); [apply steps_emit|apply steps_ret].
Qed.

End writers.

Section emitter_writers.
Context {ext : Externals}.

Ltac steps_basic :=
  first
    [ apply steps_ret | apply steps_throw | apply steps_emit | apply steps_get
    | apply steps_has_prop | apply steps_objectKeys | apply steps_dereference
    | apply steps_the_array | apply steps_outputTypeIdName
    | apply steps_normalizeContent | apply steps_set_current
    | apply steps_get_state | apply steps_out_of_fuel ].

Ltac steps_with IH :=
  repeat first
    [ steps_basic
    | apply IH
    | apply steps_for_of; intros ?
    | apply steps_for_count; intros ?
    | apply steps_outputArrayedType; intros ? ?
    | apply steps_bind; [|intros ?]
    | match goal with
      | |- steps_only (if ?b then _ else _) => destruct b
      | |- steps_only (match ?x with _ => _ end) => destruct x
      end ].

Lemma steps_generateType_step (fuel : nat) (schema : Schema)
    (terminate outputOptional : bool) :
  (∀ sch t o, steps_only (generateType fuel sch t o)) →
  (∀ sch ty t o, steps_only (generateTypeName fuel sch ty t o)) →
  steps_only (generateType (S fuel) schema terminate outputOptional).
Proof.
  intros IH5 IH6 s. cbn [generateType].
  apply steps_bind_at; [apply steps_get|]. intros type s1 Hget.
  pose proof (get_Ok_state _ _ _ _ _ Hget) as ->.
  destruct (nullish type); [apply steps_emit|].
  destruct type as [| |b|n|str|types|l]; try apply steps_throw.
  - apply IH6.
  - case_bool_decide as Hlen.
    + apply steps_bind_at; [|intros; apply IH5].
      intros s' Hs'. apply rtc_once. by eapply step_collapse.
    + apply steps_outputArrayedType. intros t _.
      destruct t; (apply steps_throw || apply IH6).
Qed.

Lemma emitter_steps (fuel : nat) :
  (∀ b, steps_only (generateProperties fuel b))
  ∧ (∀ sch t, steps_only (generateTypeProperty fuel sch t))
  ∧ (∀ b c p t, steps_only (generateArrayedType fuel b c p t))
  ∧ (∀ sch t, steps_only (generateArrayTypeProperty fuel sch t))
  ∧ (∀ sch t o, steps_only (generateType fuel sch t o))
  ∧ (∀ sch ty t o, steps_only (generateTypeName fuel sch ty t o)).
Proof.
  induction fuel as [|fuel (IH1 & IH2 & IH3 & IH4 & IH5 & IH6)].
  { repeat split; intros; apply steps_out_of_fuel. }
  repeat split.
  - intros b. cbn [generateProperties]. cbv zeta. steps_with IH2.
  - intros sch t. cbn [generateTypeProperty]. cbv zeta.
    steps_with IH3; apply IH5.
  - intros b c p t. cbn [generateArrayedType]. steps_with IH2.
  - intros sch t. cbn [generateArrayTypeProperty]. cbv zeta.
    unfold for_upto, for_below. steps_with IH2.
  - intros sch t o. by apply steps_generateType_step.
  - intros sch ty t o. cbn [generateTypeName]. cbv zeta.
    steps_with IH1; apply IH4.
Qed.

Lemma steps_walkSchema (fuel : nat) (schema : Schema) :
  steps_only (walkSchema fuel schema).
Proof.
  destruct (emitter_steps fuel) as (IH1 & IH2 & IH3 & IH4 & IH5 & IH6).
  unfold walkSchema, generateTypeModel, generateTypeCollection, generateDeclareType.
  steps_with IH1; first [apply IH2 | apply IH4].
Qed.

Lemma steps_walk (fuel : nat) (map : list (string * node)) :
  steps_only (walk fuel map).
Proof.
  revert map. induction fuel as [|fuel IH]; intros map; [apply steps_out_of_fuel|].
  cbn [walk]. apply steps_fold_of. intros acc key. unfold walk_body.
  destruct (assoc_get key acc) as [[marker children]|]; [|apply steps_throw].
  apply steps_bind.
  { destruct marker; [apply steps_walkSchema|apply steps_ret]. }
  intros _. apply steps_bind; [|intros ?; apply steps_ret].
  destruct children; [apply steps_ret|].
  steps_with IH.
Qed.

(** Output steps leave the heap and the resolver's registry as they are. *)
Lemma step_output_heap (s : state) (calls : list call) (current : option Schema) :
  st_heap (set_calls calls (set_current current s)) = st_heap s
  ∧ st_schemas (set_calls calls (set_current current s)) = st_schemas s.
Proof. done. Qed.

(** C4 (amended): during the tree walk, schema content is written only by
    [normalizeContent] (called later for sub-schemas and referenced
    schemas, which it normalises in place) and by the assignment
    [schema.content.type = types[0]] of [generateType]; every other
    operation of the walk leaves the heap as it is.  Deleting the marker
    changes the namespace tree, not schema content. *)
Theorem C4_content_writers (fuel : nat) (map map' : list (string * node))
    (s s' : state) :
  walk fuel map s = Ok map' s' →
  rtc content_step s s'
  ∧ ∀ (schema : Schema), steps_only (walkSchema fuel schema).
Proof.
  intros Hw. split; [|intros; apply steps_walkSchema].
  apply (steps_walk fuel map s). by rewrite Hw.
Qed.

End emitter_writers.

(** C4, counterexample: after the schema has been normalised, emitting its
    properties normalises the property [a] in place, which adds
    [type: "object"] inside the content tree of the schema. *)
Lemma C4_counterexample : ¬ C4_as_stated.
Proof.
  intros Hc.
  set (s0 := (loaded nested_example).2).
  set (s1 := run_state (normalizeContent (ext := sample) 8 (schema_at 4) None s0)).
  set (s2 := run_state (generateProperties (ext := sample) 8 (schema_at 4) s1)).
  assert (E1 : normalizeContent (ext := sample) 8 (schema_at 4) None s0
               = Ok (schema_at 4) s1) by (vm_compute; reflexivity).
  assert (E2 : generateProperties (ext := sample) 8 (schema_at 4) s1 = Ok tt s2)
    by (vm_compute; reflexivity).
  specialize (Hc sample 8 (schema_at 4) (schema_at 4) s0 s1 s2 E1 E2).
  vm_compute in Hc. discriminate Hc.
Qed.

(** C4, witness: the walk of a tree holding the nested example. *)
Lemma C4_content_writers_witness :
  let s := (loaded nested_example).2 in
  let map := [("a", Node (Some (schema_at 4)) [])] in
  rtc (content_step (ext := sample)) s (run_state (walk (ext := sample) 8 map s)).
Proof.
  intros s map.
  apply (C4_content_writers (ext := sample) 8 map [("a", Node None [])] s).
  vm_compute. reflexivity.
Defined.

(** C1, the code at a failing input: for an operation with the path
    parameter [id] (required) and the query parameter [q], both parameter
    groups list both names, and the query group lists [id] as required:
    [normalizeParameter] folds over all the parameters, not over the
    filtered ones. *)
Theorem C1_parameter_groups_hold_every_parameter :
  synthesize parameters_example =
    Some [("op/pathParameter",
           Some (JObj [("type", JStr "object");
                       ("properties", JObj [("id", JObj [("type", JUndef)]);
                                            ("q", JObj [("type", JUndef)])]);
                       ("required", JArr [JStr "id"])]));
          ("op/queryParameter",
           Some (JObj [("type", JStr "object");
                       ("properties", JObj [("id", JObj [("type", JUndef)]);
                                            ("q", JObj [("type", JUndef)])]);
                       ("required", JArr [JStr "id"])]));
          ("op/request",
           Some (JObj [("properties",
                        JObj [("pathParam", JObj [("$ref", JStr "op/pathParameter")]);
                              ("queryParam", JObj [("$ref", JStr "op/queryParameter")])]);
                       ("required", JArr [JStr "pathParam"; JStr "queryParam"]);
                       ("type", JStr "object")]))].
Proof. vm_compute. reflexivity. Qed.

(** C3, the code at a failing input: a request body in the media types
    [application/json] and [application/xml] gives the body schemas
    [jsonRequestBody] and [xmlRequestBody] and the wrappers [jsonRequest]
    and [xmlRequest], but the two wrappers share one content object, so
    the [body] of both refers to [xmlRequestBody].  The prefix mapping is
    as specified. *)
Theorem C3_request_wrappers_share_content :
  synthesize two_media_example =
    Some [("op/jsonRequestBody", Some (JObj [("type", JStr "string")]));
          ("op/jsonRequest",
           Some (JObj [("properties",
                        JObj [("body", JObj [("$ref", JStr "op/xmlRequestBody")])]);
                       ("required", JArr []); ("type", JStr "object")]));
          ("op/xmlRequestBody", Some (JObj [("type", JStr "number")]));
          ("op/xmlRequest",
           Some (JObj [("properties",
                        JObj [("body", JObj [("$ref", JStr "op/xmlRequestBody")])]);
                       ("required", JArr []); ("type", JStr "object")]))]
  ∧ mediaTypeToTypeNamePrefix "application/json" = "json"
  ∧ mediaTypeToTypeNamePrefix "application/xml" = "xml"
  ∧ mediaTypeToTypeNamePrefix "application/x-www-form-urlencoded" = "form"
  ∧ mediaTypeToTypeNamePrefix "text/plain" = "text"
  ∧ ∀ mediaType,
      mediaType ∉ ["application/json"; "application/xml";
                   "application/x-www-form-urlencoded"; "text/plain"] →
      mediaTypeToTypeNamePrefix mediaType = mediaType.
Proof.
  split; [vm_compute; reflexivity|]. repeat split.
  intros mediaType Hm. unfold mediaTypeToTypeNamePrefix.
  assert (Hne : ∀ x, x ∈ ["application/json"; "application/xml";
                          "application/x-www-form-urlencoded"; "text/plain"] →
                     (mediaType =? x)%string = false).
  { intros x Hx. apply String.eqb_neq. by intros ->. }
  rewrite !Hne by set_solver. reflexivity.
Qed.

(** ** Discovery of operations *)

Lemma bind_ext_at {A B} (m m' : M A) (f f' : A → M B) (s : state) :
  m s = m' s →
  (∀ a s1, m' s = Ok a s1 → f a s1 = f' a s1) →
  (m ≫= f) s = (m' ≫= f') s.
Proof.
  intros Hm Hf. unfold mbind, M_bind. rewrite Hm.
  destruct (m' s) as [a s1|e s1|]; [by apply Hf|done..].
Qed.

Lemma mapM_get_ext (v v' : val) (ms : list string) (s : state) :
  (∀ m, m ∈ ms → get v m s = get v' m s) →
  mapM (λ method, op ← get v method; mret (method, op)) ms s
  = mapM (λ method, op ← get v' method; mret (method, op)) ms s.
Proof.
  induction ms as [|m ms IH]; intros Hg; [done|].
  cbn [mapM]. apply bind_ext_at.
  - apply bind_ext_at; [apply Hg; by left|done].
  - intros [m0 x] s1 (x' & s2 & E & [= <- <- <-])%bind_Ok_inv.
    apply get_Ok_state in E as ->.
    apply bind_ext_at; [|done]. apply IH. intros m' ?. apply Hg. by right.
Qed.

Lemma kept_lookup (h0 : heap) (s : state) (l : loc) :
  kept h0 s → l < length h0 → st_heap s !! l = h0 !! l.
Proof. intros [k ->] Hl. by apply lookup_app_l. Qed.

Lemma get_kept (v : val) (k : string) (s s1 : state) :
  value_ok (st_heap s) v → kept (st_heap s) s1 →
  get v k s1 = at_state (get v k s) s1.
Proof.
  intros Hv Hk. destruct v; cbn [get]; munfold; try reflexivity.
  rewrite (kept_lookup _ _ _ Hk Hv). by destruct (st_heap s !! l).
Qed.

Lemma get_at_state (v : val) (k : string) (s : state) :
  get v k s = at_state (get v k s) s.
Proof.
  destruct (get v k s) as [x s1|e s1|] eqn:E; cbn [at_state]; [|  |done].
  - by rewrite (get_Ok_state _ _ _ _ _ E).
  - f_equal. apply (get_state_unchanged v k). by rewrite E.
Qed.

Lemma kept_store (h0 : heap) (l : loc) (o : object) (s : state) :
  kept h0 s → length h0 ≤ l → kept h0 (set_heap (<[l := o]> (st_heap s)) s).
Proof.
  intros [k E] Hl. unfold kept. destruct s as [h ? ? ? ?]. cbn in *. subst h.
  exists (<[l - length h0 := o]> k). by rewrite insert_app_r_alt.
Qed.

Lemma kept_alloc (h0 : heap) (o : object) (s : state) :
  kept h0 s → kept h0 (set_heap (st_heap s ++ [o]) s).
Proof.
  intros Hk. unfold kept. destruct s as [h ? ? ? ?]. cbn in *.
  by apply prefix_app_r.
Qed.

Lemma set_kept (h0 : heap) (l : loc) (k : string) (x : val) (s s' : state) :
  set (VObj l) k x s = Ok tt s' → kept h0 s → length h0 ≤ l → kept h0 s'.
Proof.
  cbn [set]. munfold. destruct (st_heap s !! l); [|done].
  intros [= <-] ? ?. by apply kept_store.
Qed.

Lemma mapM_get_state (v : val) (ms : list string) (s s1 : state)
    (ops : list (string * val)) :
  mapM (λ k, x ← get v k; mret (k, x)) ms s = Ok ops s1 →
  s1 = s ∧ ∀ m op, (m, op) ∈ ops → m ∈ ms ∧ get v m s = Ok op s.
Proof.
  revert ops. induction ms as [|m ms IH]; intros ops; cbn [mapM].
  - intros [= <- <-]. split; [done|]. by intros ? ? ?%elem_of_nil.
  - intros ([m0 x] & s2 & (x' & s3 & E & [= <- <- <-])%bind_Ok_inv & Hk)%bind_Ok_inv.
    pose proof (get_Ok_state _ _ _ _ _ E) as ->.
    apply bind_Ok_inv in Hk as (ops' & s4 & Hr & [= <- <-]).
    apply IH in Hr as [-> Hops]. split; [done|].
    intros m' op [[= -> ->]|Hin]%elem_of_cons; [by split; [left|]|].
    destruct (Hops _ _ Hin). by split; [right|].
Qed.

Lemma objectKeys_Ok_state (v : val) (s s1 : state) (keys : list string) :
  objectKeys v s = Ok keys s1 → s1 = s.
Proof.
  destruct v; cbn [objectKeys]; munfold; try (by intros [= _ <-]).
  destruct (st_heap s !! l); by intros [= _ <-].
Qed.

Lemma shallow_copy_kept (h0 : heap) (v c : val) (s s1 : state) :
  shallow_copy v s = Ok c s1 → kept h0 s →
  kept h0 s1 ∧ ∃ l, c = VObj l ∧ length h0 ≤ l.
Proof.
  intros E Hk.
  assert (Ha : ∀ o s0, s0 = s → alloc o s0 = Ok c s1 →
               kept h0 s1 ∧ ∃ l, c = VObj l ∧ length h0 ≤ l).
  { intros o s0 -> [= <- <-]. split; [by apply kept_alloc|].
    eexists. split; [done|]. destruct Hk as [k ->]. rewrite length_app. lia. }
  destruct v; cbn [shallow_copy nullish] in E.
  1,2: apply bind_Ok_inv in E as (keys & s2 & [= <- <-] & E);
       apply bind_Ok_inv in E as (vals & s3 & [= <- <-] & E);
       by eapply Ha; [|exact E].
  5: { apply bind_Ok_inv in E as (o & s2 & E1 & E).
       apply (Ha o s2); [|done]. apply (lookup_obj_state l). by rewrite E1. }
  all: apply bind_Ok_inv in E as (keys & s2 & ->%objectKeys_Ok_state & E);
       apply bind_Ok_inv in E as (vals & s3 & [-> _]%mapM_get_state & E);
       by eapply Ha; [|exact E].
Qed.

Lemma get_kept_Ok (v x : val) (k : string) (s s1 : state) :
  value_ok (st_heap s) v → kept (st_heap s) s1 →
  get v k s1 = Ok x s1 → get v k s = Ok x s.
Proof.
  intros Hv Hk. rewrite (get_kept v k s s1 Hv Hk), (get_at_state v k s).
  destruct (get v k s); cbn [at_state]; congruence.
Qed.

Lemma for_of_inv {A} (I : state → Prop) (xs : list A) (body : A → M unit)
    (s s' : state) :
  I s →
  (∀ x s1 s2, x ∈ xs → I s1 → body x s1 = Ok tt s2 → I s2) →
  for_of xs body s = Ok tt s' → I s'.
Proof.
  revert s. induction xs as [|x xs IH]; intros s HI Hb; cbn [for_of].
  - by intros [= <-].
  - intros ([] & s1 & E1 & E)%bind_Ok_inv. apply (IH s1); [| |done].
    + apply (Hb x s s1); [by left|done..].
    + intros y sa sb Hy. apply Hb. by right.
Qed.

(** Two loops whose bodies agree wherever an invariant holds, and keep it,
    agree. *)
Lemma for_of_ext {A} (I : state → Prop) (xs : list A) (f g : A → M unit)
    (s : state) :
  I s →
  (∀ x s1, x ∈ xs → I s1 → f x s1 = g x s1 ∧ ∀ s2, f x s1 = Ok tt s2 → I s2) →
  for_of xs f s = for_of xs g s.
Proof.
  revert s. induction xs as [|x xs IH]; intros s HI Hb; cbn [for_of]; [done|].
  destruct (Hb x s) as [E Hn]; [by left|done|].
  apply bind_ext_at; [done|]. intros [] s1 E1. rewrite <- E in E1.
  apply IH; [by apply Hn|]. intros y s2 Hy. apply Hb. by right.
Qed.

Section discovery_facts.
Context {ext : Externals}.
Variable schema : Schema.

Lemma findId_heap (v id : val) (parentIds p : list string) (s s' : state) :
  SearchAllSubSchema.findId schema v id parentIds s = Ok p s' →
  st_heap s' = st_heap s.
Proof.
  unfold SearchAllSubSchema.findId.
  destruct id; munfold; try (by intros [= _ <-]).
  destruct (truthy _); by intros [= _ <-].
Qed.

Lemma findRef_heap (field : val) (parentIds : list string) (s s' : state) :
  (∀ lf, field ≠ VObj lf) →
  SearchAllSubSchema.findRef field parentIds s = Ok tt s' →
  st_heap s' = st_heap s.
Proof.
  intros Hf. unfold SearchAllSubSchema.findRef.
  intros (ref & s1 & E & Hk)%bind_Ok_inv. apply get_Ok_state in E as ->.
  destruct ref; try (by injection Hk as <-).
  apply bind_Ok_inv in Hk as ([] & s2 & Hset & _).
  destruct field; cbn [set] in Hset; munfold; try discriminate Hset.
  by destruct (Hf l).
Qed.

Lemma walkOpenAPIV3Operation_kept (s0 : state) (op : val) (method path : string)
    (paths parentIds : list string) (s1 s2 : state) :
  plain_operation s0 op → kept (st_heap s0) s1 →
  SearchAllSubSchema.walkOpenAPIV3Operation schema op method path paths parentIds s1
    = Ok tt s2 →
  kept (st_heap s0) s2.
Proof.
  intros [Hv Hp] Hk. unfold SearchAllSubSchema.walkOpenAPIV3Operation.
  destruct (nullish op || negb _); [by intros [= <-]|].
  intros (copy & sa & Hc & E)%bind_Ok_inv.
  apply (shallow_copy_kept (st_heap s0)) in Hc as (Hka & lc & -> & Hlc); [|done].
  apply bind_Ok_inv in E as ([] & sb & Hset & E).
  apply (set_kept (st_heap s0)) in Hset; [|done..].
  apply bind_Ok_inv in E as (operation & sc & Hop & E).
  assert (Hkc : kept (st_heap s0) sc).
  { apply bind_Ok_inv in Hop as (o & sb' & Hl & Hop).
    assert (sb' = sb) as -> by (apply (lookup_obj_state lc); by rewrite Hl).
    apply bind_Ok_inv in Hop as ([] & sb'' & [= <-] & [= _ <-]).
    by apply kept_store. }
  apply bind_Ok_inv in E as (id & sd & Hid & E).
  unfold getId in Hid. apply get_Ok_state in Hid as ->.
  apply bind_Ok_inv in E as (pids & se & Hfi & E). apply findId_heap in Hfi.
  apply bind_Ok_inv in E as (keys & sf & ->%objectKeys_Ok_state & E).
  revert E. apply for_of_inv.
  - unfold kept. by rewrite Hfi.
  - intros key sx sy _ Hkx (field & sx' & Hg & Hb)%bind_Ok_inv.
    pose proof (get_Ok_state _ _ _ _ _ Hg) as ->.
    destruct (String.eqb_spec key "$ref") as [->|]; [|by injection Hb as <-].
    apply findRef_heap in Hb; [unfold kept; by rewrite Hb|].
    intros lf ->. apply (Hp lf). by apply (get_kept_Ok _ _ _ s0 sx).
Qed.

Lemma walkPathItem_kept (s0 : state) (pathItem : val) (path : string)
    (paths parentIds : list string) (s1 s2 : state) :
  value_ok (st_heap s0) pathItem →
  (∀ method op, method ∈ SearchAllSubSchema.methods →
                get pathItem method s0 = Ok op s0 → plain_operation s0 op) →
  kept (st_heap s0) s1 →
  SearchAllSubSchema.walkPathItem schema pathItem path paths parentIds s1 = Ok tt s2 →
  kept (st_heap s0) s2.
Proof.
  intros Hv Hp Hk. unfold SearchAllSubSchema.walkPathItem.
  intros (ops & sa & [-> Hops]%mapM_get_state & E)%bind_Ok_inv.
  revert E. apply for_of_inv; [done|].
  intros [m op] sx sy Hin Hkx. cbn [fst snd].
  apply walkOpenAPIV3Operation_kept; [|done].
  destruct (Hops _ _ Hin) as [Hm Hg]. apply (Hp m); [done|].
  by apply (get_kept_Ok _ _ _ s0 s1).
Qed.

(** Of a path item, the discovery walk reads the entries [get], [post],
    [put], [patch], [delete] and [head] and nothing else. *)
Lemma walkPathItem_reads_methods (pathItem pathItem' : val) (path : string)
    (paths parentIds : list string) (s : state) :
  (∀ method, method ∈ SearchAllSubSchema.methods →
             get pathItem method s = get pathItem' method s) →
  SearchAllSubSchema.walkPathItem schema pathItem path paths parentIds s
  = SearchAllSubSchema.walkPathItem schema pathItem' path paths parentIds s.
Proof.
  intros Hg. unfold SearchAllSubSchema.walkPathItem.
  apply bind_ext_at; [by apply mapM_get_ext|done].
Qed.

(** C10: the discovery walk over a paths object depends on the entries
    [get], [post], [put], [patch], [delete] and [head] of its path items and
    on nothing else of them: two paths objects with the same keys, whose
    path items agree on these six entries, are walked alike (the same
    schemas and references found, the same final state, the same error if
    any), whatever other operations (under [options] or [trace], say) the
    path items hold.  The operations are plain: their [$ref] member, if
    any, is not an object. *)
Theorem C10_only_six_methods (lp lp' : loc) (o o' : object)
    (paths parentIds : list string) (s : state) :
  st_heap s !! lp = Some o →
  st_heap s !! lp' = Some o' →
  (props o).*1 = (props o').*1 →
  (∀ path, path ∈ (props o).*1 →
     value_ok (st_heap s) (prop o path) ∧ value_ok (st_heap s) (prop o' path)
     ∧ ∀ method, method ∈ SearchAllSubSchema.methods →
         get (prop o path) method s = get (prop o' path) method s
         ∧ ∀ op, get (prop o path) method s = Ok op s → plain_operation s op) →
  SearchAllSubSchema.walkOpenAPIV3Paths schema (VObj lp) paths parentIds s
  = SearchAllSubSchema.walkOpenAPIV3Paths schema (VObj lp') paths parentIds s.
Proof.
  intros El El' Ekeys Hitems. unfold SearchAllSubSchema.walkOpenAPIV3Paths.
  cbn [nullish typeof orb negb]. rewrite bool_decide_eq_true_2 by done. cbn [negb].
  rewrite (bind_Ok _ _ _ _ _ (objectKeys_obj lp o s El)).
  rewrite (bind_Ok _ _ _ _ _ (objectKeys_obj lp' o' s El')). rewrite <- Ekeys.
  apply (for_of_ext (kept (st_heap s))); [unfold kept; reflexivity|].
  intros path s1 Hpath Hk. apply (proj1 (elem_of_ownKeys _ _)) in Hpath.
  destruct (Hitems path Hpath) as (Hv & Hv' & Hm).
  assert (Hl : st_heap s1 !! lp = Some o).
  { rewrite (kept_lookup _ _ _ Hk); [done|]. by eapply lookup_lt_Some. }
  assert (Hl' : st_heap s1 !! lp' = Some o').
  { rewrite (kept_lookup _ _ _ Hk); [done|]. by eapply lookup_lt_Some. }
  rewrite (bind_Ok _ _ _ _ _ (get_obj lp o path s1 Hl)).
  rewrite (bind_Ok _ _ _ _ _ (get_obj lp' o' path s1 Hl')).
  split.
  - apply walkPathItem_reads_methods. intros method Hmeth.
    rewrite (get_kept _ _ s s1 Hv Hk), (get_kept _ _ s s1 Hv' Hk).
    by rewrite (proj1 (Hm method Hmeth)).
  - intros s2. apply walkPathItem_kept; [done| |done].
    intros method op Hmeth. by apply Hm.
Qed.

End discovery_facts.

(** C10, witness: a paths object whose path item has a [get] operation is
    walked like one whose path item holds an [options] operation as well;
    in a whole document only the [get] operation is reported. *)
Lemma C10_only_six_methods_witness :
  let s := path_items_example in
  SearchAllSubSchema.walkOpenAPIV3Paths (ext := sample) (document_at VNull) (VObj 4)
    ["#"; "paths"] [] s
  = SearchAllSubSchema.walkOpenAPIV3Paths (ext := sample) (document_at VNull) (VObj 5)
      ["#"; "paths"] [] s
  ∧ (let '(content, s) := loaded paths_example in
     found_ids (SearchAllSubSchema.searchAllSubSchema (ext := sample)
                  (document_at content) 8 s))
    = Some ["getPets"].
Proof.
  intros s. split; [|vm_compute; reflexivity].
  apply (C10_only_six_methods (ext := sample) (document_at VNull) 4 5
           (Object [("/pets", VObj 1)] false) (Object [("/pets", VObj 3)] false));
    [reflexivity..|].
  intros path Hpath. apply list_elem_of_singleton in Hpath as ->.
  split; [cbn; lia|]. split; [cbn; lia|].
  intros method Hm. unfold SearchAllSubSchema.methods in Hm.
  repeat (apply elem_of_cons in Hm as [->|Hm];
          [split; [vm_compute; reflexivity|];
           intros op [= <-]; (split; [cbn; lia|intros lf; discriminate])|]).
  by apply elem_of_nil in Hm.
Defined.

Section moves.
Context (R : relation state) `{!PreOrder R}.

Lemma moves_pure {A} (m : M A) :
  (∀ s s', final_state (m s) = Some s' → s' = s) → moves R m.
Proof. intros Hm s s' Hs'. by rewrite (Hm s s' Hs'). Qed.

Lemma moves_ret {A} (a : A) : moves R (mret a : M A).
Proof. apply moves_pure. by intros s s' [= <-]. Qed.

Lemma moves_throw {A} (e : exn) : moves R (throw e : M A).
Proof. apply moves_pure. by intros s s' [= <-]. Qed.

Lemma moves_out_of_fuel {A} : moves R (out_of_fuel : M A).
Proof. by intros s s'. Qed.

Lemma moves_bind_ok {A B} (m : M A) (f : A → M B) :
  moves R m →
  (∀ s a s1 s', m s = Ok a s1 → final_state (f a s1) = Some s' → R s1 s') →
  moves R (m ≫= f).
Proof.
  intros Hm Hf s s'. unfold mbind, M_bind.
  destruct (m s) as [a s1|e s1|] eqn:E; [| |done].
  - intros Hs'. etrans; [apply Hm; by rewrite E|]. by eapply Hf.
  - intros Hs'. apply Hm. by rewrite E.
Qed.

Lemma moves_bind {A B} (m : M A) (f : A → M B) :
  moves R m → (∀ a, moves R (f a)) → moves R (m ≫= f).
Proof. intros Hm Hf. apply moves_bind_ok; [done|]. intros s a s1 s' _. apply Hf. Qed.

Lemma moves_get (v : val) (k : string) : moves R (get v k).
Proof. apply moves_pure. intros s. apply get_state_unchanged. Qed.

Lemma moves_lookup_obj (l : loc) : moves R (lookup_obj l).
Proof. apply moves_pure. intros s. apply lookup_obj_state. Qed.

Lemma moves_has_prop (v : val) (k : string) : moves R (has_prop v k).
Proof.
  apply moves_pure. intros s s'.
  destruct v; cbn [has_prop]; munfold; try (by intros [= <-]).
  destruct (st_heap s !! l); by intros [= <-].
Qed.

Lemma moves_objectKeys (v : val) : moves R (objectKeys v).
Proof.
  apply moves_pure. intros s s'.
  destruct v; cbn [objectKeys]; munfold; try (by intros [= <-]).
  destruct (st_heap s !! l); by intros [= <-].
Qed.

Lemma moves_dereference (v : val) : moves R (dereference v).
Proof.
  apply moves_pure. intros s s'.
  destruct v; cbn [dereference]; munfold; try (by intros [= <-]).
  destruct (assoc_get _ _); by intros [= <-].
Qed.

Lemma moves_the_array (what : string) (v : val) : moves R (the_array what v).
Proof. destruct v; cbn [the_array]; (apply moves_ret || apply moves_throw). Qed.

Lemma moves_get_state : moves R get_state.
Proof. apply moves_pure. by intros s s' [= <-]. Qed.

Lemma moves_for_of {A} (xs : list A) (body : A → M unit) :
  (∀ x, moves R (body x)) → moves R (for_of xs body).
Proof.
  intros Hb. induction xs as [|x xs IH]; cbn [for_of]; [apply moves_ret|].
  apply moves_bind; [apply Hb|]. by intros _.
Qed.

Lemma moves_fold_of {A S} (xs : list A) (acc : S) (body : S → A → M S) :
  (∀ acc x, moves R (body acc x)) → moves R (fold_of xs acc body).
Proof.
  intros Hb. revert acc. induction xs as [|x xs IH]; intros acc; cbn [fold_of];
    [apply moves_ret|].
  apply moves_bind; [apply Hb|]. intros acc'. apply IH.
Qed.

Lemma moves_for_count (n : nat) (i : Z) (body : Z → M unit) :
  (∀ j, moves R (body j)) → moves R (for_count n i body).
Proof.
  intros Hb. revert i. induction n as [|n IH]; intros i; cbn [for_count];
    [apply moves_ret|].
  apply moves_bind; [apply Hb|]. intros _. apply IH.
Qed.

Lemma moves_forEach_from {A} (index : nat) (xs : list A) (body : A → nat → M unit) :
  (∀ x i, moves R (body x i)) → moves R (forEach_from index xs body).
Proof.
  intros Hb. revert index. induction xs as [|x xs IH]; intros index;
    cbn [forEach_from]; [apply moves_ret|].
  apply moves_bind; [apply Hb|]. intros _. apply IH.
Qed.

Lemma moves_mapM {A B} (f : A → M B) (xs : list A) :
  (∀ x, moves R (f x)) → moves R (mapM f xs).
Proof.
  intros Hf. induction xs as [|x xs IH]; cbn [mapM]; [apply moves_ret|].
  apply moves_bind; [apply Hf|]. intros y.
  apply moves_bind; [apply IH|]. intros ys. apply moves_ret.
Qed.

End moves.

#[global] Instance id_added_preorder : PreOrder id_added.
Proof.
  split.
  - intros o. by split.
  - intros o1 o2 o3 [Hs12 H12] [Hs23 H23]. split; [congruence|].
    intros k. split.
    + intros H1 H2. rewrite (proj1 (H23 k)), (proj1 (H12 k)); done.
    + intros v Hv Hn. apply (proj2 (H23 k)); [|done]. by apply (proj2 (H12 k)).
Qed.

#[global] Instance ids_only_preorder : PreOrder ids_only.
Proof.
  split.
  - intros s. by repeat split.
  - intros s1 s2 s3 (A1 & A2 & A3 & A4 & A5) (B1 & B2 & B3 & B4 & B5).
    repeat split; try congruence. by etrans.
Qed.

Lemma ids_only_insert (l : loc) (o o' : object) (s : state) :
  st_heap s !! l = Some o → id_added o o' →
  ids_only s (set_heap (<[l := o']> (st_heap s)) s).
Proof.
  intros El Ho. repeat split. rsimpl.
  rewrite <- (list_insert_id (st_heap s) l o El) at 1.
  by apply Forall2_insert.
Qed.

Lemma getIdPropertyName_cases (type : SchemaType) :
  getIdPropertyName type = "id" ∨ getIdPropertyName type = "$id".
Proof. destruct type; [by left|by right]. Qed.

Lemma moves_setId (type : SchemaType) (content : val) (id : string) :
  moves ids_only (setId type content id).
Proof.
  unfold setId. cbv zeta. apply moves_bind_ok; [apply _|apply moves_get; apply _|].
  intros s old s1 s' Hget Hs'. pose proof (get_Ok_state _ _ _ _ _ Hget) as ->.
  destruct (nullish old) eqn:Hold; [|by injection Hs' as <-].
  destruct content; cbn [set] in Hs'; revert Hs'; munfold;
    try (by intros [= <-]).
  destruct (st_heap s !! l) as [o|] eqn:El; intros [= <-]; [|reflexivity].
  eapply ids_only_insert; [done|]. split; [done|]. intros k. cbn [props]. split.
  - intros H1 H2. apply assoc_get_set_ne.
    destruct (getIdPropertyName_cases type); congruence.
  - intros v Hv Hn. rewrite assoc_get_set.
    destruct (String.eqb_spec (getIdPropertyName type) k) as [<-|]; [|done].
    exfalso. rewrite (get_obj l o _ s El) in Hget. injection Hget as <-.
    unfold prop in Hold. rewrite Hv in Hold. cbn in Hold. congruence.
Qed.

Lemma moves_setSubIds (obj : val) (type : SchemaType) (prefix : string) :
  moves ids_only (setSubIds obj type prefix).
Proof.
  unfold setSubIds.
  apply moves_bind; [apply _|apply moves_objectKeys; apply _|]. intros keys.
  apply moves_for_of; [apply _|]. intros key.
  apply moves_bind; [apply _|apply moves_get; apply _|]. intros sub.
  destruct (negb _); [apply moves_setId|apply moves_ret; apply _].
Qed.

Lemma moves_selectSchemaType (content : val) :
  moves ids_only (selectSchemaType content).
Proof.
  unfold selectSchemaType.
  repeat first
    [ apply moves_setSubIds
    | apply moves_ret; apply _
    | apply moves_throw; apply _
    | apply moves_get; apply _
    | apply moves_bind; [apply _| |intros ?]
    | match goal with
      | |- moves _ (if ?b then _ else _) => destruct b
      | |- moves _ (match ?x with _ => _ end) => destruct x
      end ].
Qed.

Lemma moves_parseSchema (empty : SchemaId) (content : val) (url : option string) :
  moves ids_only (parseSchema empty content url).
Proof.
  unfold parseSchema, getId. cbv zeta.
  repeat first
    [ apply moves_selectSchemaType
    | apply moves_setId
    | apply moves_ret; apply _
    | apply moves_throw; apply _
    | apply moves_get; apply _
    | apply moves_bind; [apply _| |intros ?]
    | match goal with
      | |- moves _ (if ?b then _ else _) => destruct b
      | |- moves _ (match ?x with _ => _ end) => destruct x
      end ].
Qed.

(** X1: Parsing a document writes nothing but identifiers that were missing:
    whether [parseSchema] returns or throws, every object of the heap has
    its members as before, except that an [id] or [$id] member may have
    been put where there was none or a null one; no object is created, and
    the registry and the output are untouched. *)
Theorem parseSchema_writes_missing_ids_only (empty : SchemaId) (content : val)
    (url : option string) (s s' : state) :
  final_state (parseSchema empty content url s) = Some s' →
  ids_only s s'.
Proof. apply moves_parseSchema. Qed.

(** A loop whose body returns and takes an invariant of the elements done
    so far one element further runs to the end. *)
Lemma for_of_done {A} (J : list A → state → Prop) (xs : list A)
    (body : A → M unit) (s : state) :
  J [] s →
  (∀ pre x s1, x ∈ xs → J pre s1 → ∃ s2, body x s1 = Ok tt s2 ∧ J (pre ++ [x]) s2) →
  ∃ s', for_of xs body s = Ok tt s' ∧ J xs s'.
Proof.
  intros H0 Hstep.
  assert (Hgen : ∀ todo pre s1, (∀ x, x ∈ todo → x ∈ xs) → J pre s1 →
            ∃ s', for_of todo body s1 = Ok tt s' ∧ J (pre ++ todo) s').
  { induction todo as [|x todo IH]; intros pre s1 Hin HJ; cbn [for_of].
    - exists s1. by rewrite app_nil_r.
    - destruct (Hstep pre x s1) as (s2 & E & HJ2); [apply Hin; by left|done|].
      rewrite (bind_Ok _ _ _ _ _ E).
      destruct (IH (pre ++ [x]) s2) as (s' & E' & HJ'); [|done|].
      { intros y Hy. apply Hin. by right. }
      exists s'. split; [done|]. by rewrite <- app_assoc in HJ'. }
  apply (Hgen xs [] s); [done|done].
Qed.

Lemma assoc_get_key {A} (k : string) (l : list (string * A)) :
  k ∈ l.*1 → ∃ v, assoc_get k l = Some v.
Proof.
  induction l as [|[k0 v0] l IH]; cbn; [by intros ?%elem_of_nil|].
  destruct (String.eqb_spec k0 k) as [->|Hne]; [by eexists|].
  intros [?|?]%elem_of_cons; [done|by apply IH].
Qed.

Lemma id_of_insert (type : SchemaType) (h : heap) (li li' : loc) (o : object) :
  li < length h →
  id_of type (<[li := o]> h) li' =
    if decide (li' = li) then prop o (getIdPropertyName type) else id_of type h li'.
Proof.
  intros Hl. unfold id_of. destruct (decide (li' = li)) as [->|Hne].
  - by rewrite list_lookup_insert_eq.
  - by rewrite list_lookup_insert_ne.
Qed.

Lemma setId_fresh (type : SchemaType) (li : loc) (oi : object) (id : string)
    (s : state) :
  st_heap s !! li = Some oi →
  nullish (prop oi (getIdPropertyName type)) = true →
  setId type (VObj li) id s
  = Ok tt (set_prop li (getIdPropertyName type) (VStr id) oi s).
Proof.
  intros El Hn. unfold setId. cbv zeta.
  rewrite (bind_Ok _ _ _ _ _ (get_obj li oi _ s El)). rewrite Hn.
  by apply set_obj.
Qed.

Lemma setId_kept (type : SchemaType) (li : loc) (oi : object) (id : string)
    (s : state) :
  st_heap s !! li = Some oi →
  nullish (prop oi (getIdPropertyName type)) = false →
  setId type (VObj li) id s = Ok tt s.
Proof.
  intros El Hn. unfold setId. cbv zeta.
  rewrite (bind_Ok _ _ _ _ _ (get_obj li oi _ s El)). by rewrite Hn.
Qed.

Lemma prop_set (k : string) (x : val) (ps : list (string * val)) (sym : bool) :
  prop (Object (assoc_set k x ps) sym) k = x.
Proof. unfold prop. cbn [props]. by rewrite assoc_get_set, String.eqb_refl. Qed.

(** X2: [setSubIds] on an object whose members are objects (or null) returns,
    and then every member that is an object has an identifier: the one it
    had, or, if it had none, the identifier made of the prefix and of a
    key under which the object is a member. *)
Theorem setSubIds_identifies_members (type : SchemaType) (prefix : string) (l : loc)
    (o : object) (s : state) :
  st_heap s !! l = Some o →
  (∀ k v, (k, v) ∈ props o →
     nullish v = true ∨ ∃ li, v = VObj li ∧ li ≠ l ∧ li < length (st_heap s)) →
  ∃ s', setSubIds (VObj l) type prefix s = Ok tt s'
        ∧ ∀ k li, assoc_get k (props o) = Some (VObj li) →
            nullish (id_of type (st_heap s') li) = false
            ∧ (nullish (id_of type (st_heap s) li) = false →
               id_of type (st_heap s') li = id_of type (st_heap s) li)
            ∧ (nullish (id_of type (st_heap s) li) = true →
               ∃ k', assoc_get k' (props o) = Some (VObj li)
                     ∧ id_of type (st_heap s') li = VStr (sub_id prefix k')).
Proof.
  intros El Hmem. unfold setSubIds.
  rewrite (bind_Ok _ _ _ _ _ (objectKeys_obj l o s El)).
  pose (J := λ (pre : list string) (s1 : state),
    st_heap s1 !! l = Some o
    ∧ length (st_heap s1) = length (st_heap s)
    ∧ (∀ li, id_of type (st_heap s1) li = id_of type (st_heap s) li
             ∨ (nullish (id_of type (st_heap s) li) = true
                ∧ ∃ k', assoc_get k' (props o) = Some (VObj li)
                        ∧ id_of type (st_heap s1) li = VStr (sub_id prefix k')))
    ∧ (∀ k li, k ∈ pre → assoc_get k (props o) = Some (VObj li) →
               nullish (id_of type (st_heap s1) li) = false)).
  destruct (for_of_done J (ownKeys (props o).*1)
              (λ key, sub ← get (VObj l) key;
                      if negb (nullish sub)
                      then setId type sub ("#/" +:+ prefix +:+ "/" +:+ key)
                      else mret tt) s) as (s' & Hrun & Ha & Hb & Hc & Hd).
  { repeat split; [done|by left|]. by intros k li ?%elem_of_nil. }
  { intros pre x s1 Hx (Ha & Hb & Hc & Hd).
    apply (proj1 (elem_of_ownKeys _ _)) in Hx.
    rewrite (bind_Ok _ _ _ _ _ (get_obj l o x s1 Ha)).
    destruct (assoc_get_key x (props o) Hx) as [v Hv].
    cbv beta. unfold prop. rewrite Hv. cbn [default from_option id].
    destruct (Hmem x v (assoc_get_elem _ _ _ Hv)) as [Hn|(li & -> & Hne & Hlt)].
    - rewrite Hn. exists s1. split; [done|]. repeat split; [done..|].
      intros k li [Hk| ->%list_elem_of_singleton]%elem_of_app Hk'; [by eapply Hd|].
      rewrite Hv in Hk'. injection Hk' as ->. done.
    - cbn [nullish negb].
      destruct (st_heap s1 !! li) as [oi|] eqn:Eli.
      2: { apply lookup_ge_None in Eli. lia. }
      assert (Hid1 : id_of type (st_heap s1) li = prop oi (getIdPropertyName type)).
      { unfold id_of. by rewrite Eli. }
      destruct (nullish (prop oi (getIdPropertyName type))) eqn:Hn.
      + rewrite (setId_fresh type li oi _ s1 Eli Hn). eexists. split; [done|].
        unfold J, set_prop. rsimpl. assert (Hli : li < length (st_heap s1)) by lia.
        repeat split.
        * by rewrite list_lookup_insert_ne.
        * by rewrite length_insert.
        * intros li'. rewrite (id_of_insert _ _ _ _ _ Hli).
          destruct (decide (li' = li)) as [->|]; [|apply Hc].
          right. split.
          { destruct (Hc li) as [<-|[? _]]; [|done]. by rewrite Hid1. }
          exists x. by rewrite prop_set.
        * intros k li' Hk Hk'. rewrite (id_of_insert _ _ _ _ _ Hli).
          destruct (decide (li' = li)) as [->|]; [by rewrite prop_set|].
          apply elem_of_app in Hk as [Hk| ->%list_elem_of_singleton]; [by eapply Hd|].
          rewrite Hv in Hk'. by injection Hk' as ->.
      + rewrite (setId_kept type li oi _ s1 Eli Hn). exists s1. split; [done|].
        repeat split; [done..|].
        intros k li' [Hk| ->%list_elem_of_singleton]%elem_of_app Hk'; [by eapply Hd|].
        rewrite Hv in Hk'. injection Hk' as <-. by rewrite Hid1. }
  exists s'. split; [done|]. intros k li Hk.
  assert (Hin : k ∈ ownKeys (props o).*1).
  { apply elem_of_ownKeys, list_elem_of_fmap. exists (k, VObj li). split; [done|].
    by apply assoc_get_elem. }
  pose proof (Hd k li Hin Hk) as Hnn. split; [done|].
  destruct (Hc li) as [Heq|(Hn & k' & Hk' & Hid)]; split.
  - done.
  - intros Hn. rewrite Heq in Hnn. congruence.
  - intros Hn'. congruence.
  - intros _. by exists k'.
Qed.

Lemma append_nil (s : string) : "" +:+ s = s.
Proof. reflexivity. Qed.

Lemma append_cons (c : Ascii.ascii) (s r : string) :
  String c s +:+ r = String c (s +:+ r).
Proof. reflexivity. Qed.

Lemma append_nil_r (s : string) : s +:+ "" = s.
Proof. induction s as [|c s IH]; [done|]. by rewrite append_cons, IH. Qed.

Lemma span_digits_app (d rest : string) :
  all_digits d = true → no_digit_ahead rest →
  span_digits (d +:+ rest) = (d, rest).
Proof.
  intros Hd Hr. induction d as [|c d IH].
  - rewrite append_nil. destruct rest as [|c rest]; [done|].
    cbn -[is_digit] in Hr. cbn -[is_digit]. by rewrite Hr.
  - cbn -[is_digit] in Hd. apply andb_true_iff in Hd as [Hc Hd].
    rewrite append_cons. cbn -[is_digit]. by rewrite Hc, (IH Hd).
Qed.

Lemma span_digits_spec (s d rest : string) :
  span_digits s = (d, rest) →
  s = d +:+ rest ∧ all_digits d = true ∧ no_digit_ahead rest.
Proof.
  revert d rest. induction s as [|c s IH]; intros d rest; cbn -[is_digit].
  - by intros [= <- <-].
  - destruct (is_digit c) eqn:Hc.
    + destruct (span_digits s) as [d' r'] eqn:E. intros [= <- <-].
      destruct (IH d' r' eq_refl) as (-> & Hd & Hr).
      rewrite append_cons. cbn -[is_digit]. by rewrite Hc, Hd.
    + intros [= <- <-]. rewrite append_nil. cbn -[is_digit]. done.
Qed.

Lemma strip_string_prefix_app (p s : string) : strip_prefix p (p +:+ s) = Some s.
Proof.
  induction p as [|c p IH]; [by destruct s|].
  rewrite append_cons. cbn. by rewrite Ascii.eqb_refl.
Qed.

Lemma strip_prefix_spec (p s r : string) : strip_prefix p s = Some r → s = p +:+ r.
Proof.
  revert s. induction p as [|c p IH]; intros s; cbn.
  - destruct s; by intros [= <-].
  - destruct s as [|c' s]; [done|].
    destruct (Ascii.eqb_spec c c') as [<-|]; [|done].
    intros Hs. by rewrite (IH s Hs), append_cons.
Qed.

Lemma string_prefix_app (p s : string) : String.prefix p (p +:+ s) = true.
Proof.
  induction p as [|c p IH]; [by destruct s|].
  rewrite append_cons. cbn [String.prefix].
  by destruct (Ascii.ascii_dec c c).
Qed.

Lemma draft_match_address (d post : string) :
  d ≠ "" → all_digits d = true →
  draft_match ("http://json-schema.org/draft-" +:+ d +:+ "/schema" +:+ post) = Some d.
Proof.
  intros Hne Hd.
  assert (E : draft_at ("http://json-schema.org/draft-" +:+ d +:+ "/schema" +:+ post)
              = Some d).
  { unfold draft_at. rewrite strip_string_prefix_app. cbn [mbind option_bind].
    rewrite span_digits_app by done.
    destruct (String.eqb_spec d "") as [->|_]; [done|]. by rewrite string_prefix_app. }
  destruct ("http://json-schema.org/draft-" +:+ d +:+ "/schema" +:+ post);
    cbn [draft_match]; by rewrite E.
Qed.

Lemma openapi3_spec (v : string) : openapi3 v = true ↔ openapi3_version v.
Proof.
  unfold openapi3, openapi3_version. split.
  - destruct (strip_prefix "3." v) as [r|] eqn:E1; [|done].
    apply strip_prefix_spec in E1 as ->.
    destruct (span_digits r) as [minor r1] eqn:E2.
    apply span_digits_spec in E2 as (-> & Hm & _).
    intros [Hne H]%andb_true_iff.
    destruct (strip_prefix "." r1) as [r2|] eqn:E3; [|done].
    apply strip_prefix_spec in E3 as ->.
    destruct (span_digits r2) as [patch r3] eqn:E4.
    apply span_digits_spec in E4 as (-> & Hp & _).
    apply andb_true_iff in H as [Hne' ->%String.eqb_eq].
    exists minor, patch. repeat split; try done.
    + by rewrite append_nil_r.
    + intros ->. done.
    + intros ->. done.
  - intros (minor & patch & -> & Hm & Hp & Hdm & Hdp).
    rewrite strip_string_prefix_app.
    rewrite (span_digits_app minor ("." +:+ patch)) by done.
    rewrite strip_string_prefix_app.
    rewrite <- (append_nil_r patch) at 1.
    rewrite (span_digits_app patch "") by done.
    destruct (String.eqb_spec minor "") as [->|_]; [done|].
    destruct (String.eqb_spec patch "") as [->|_]; [done|]. done.
Qed.

(** X3: A document that declares a JSON Schema draft by its address is
    classified by the draft number alone: drafts up to 4 as [Draft04],
    later drafts as [Draft07].  Its [swagger] and [openapi] members are not
    looked at: it gets no OpenAPI version, and nothing is written. *)
Theorem selectSchemaType_declared_draft (l : loc) (o : object) (d post : string)
    (s : state) :
  st_heap s !! l = Some o →
  prop o "$schema"
    = VStr ("http://json-schema.org/draft-" +:+ d +:+ "/schema" +:+ post) →
  d ≠ "" → all_digits d = true →
  selectSchemaType (VObj l) s
  = Ok (if (digits_value d <=? 4)%N then Draft04 else Draft07, None) s.
Proof.
  intros El Es Hne Hd. unfold selectSchemaType.
  rewrite (bind_Ok _ _ _ _ _ (get_obj l o "$schema" s El)). rewrite Es.
  pose proof (draft_match_address d post Hne Hd) as Hm.
  set (u := "http://json-schema.org/draft-" +:+ d +:+ "/schema" +:+ post) in *.
  assert (Ht : truthy (VStr u) = true) by (subst u; by rewrite append_cons).
  rewrite Ht, mret_bind, Hm. reflexivity.
Qed.

(** X4: A document without a declared draft and without [swagger: "2.0"] is an
    OpenAPI 3 document exactly when its [openapi] string is [3.], digits,
    [.], digits and nothing more: any other string ([3.0], or a version
    with a suffix) makes it a plain Draft04 schema, silently, and then
    nothing is written. *)
Theorem selectSchemaType_openapi_version (l : loc) (o : object) (v : string)
    (s : state) :
  st_heap s !! l = Some o →
  truthy (prop o "$schema") = false →
  is_str (prop o "swagger") "2.0" = false →
  prop o "openapi" = VStr v →
  (openapi3_version v →
   ∀ r s', selectSchemaType (VObj l) s = Ok r s' → r = (Draft07, Some 3))
  ∧ (¬ openapi3_version v → selectSchemaType (VObj l) s = Ok (Draft04, None) s).
Proof.
  intros El Es Hsw Hv.
  assert (E : selectSchemaType (VObj l) s =
              (if truthy (VStr v) && openapi3 v then
                 paths ← get (VObj l) "paths";
                 (if truthy paths then setSubIds paths Draft07 "paths" else mret tt);;
                 components ← get (VObj l) "components";
                 schemas ← (if truthy components then get components "schemas"
                            else mret VUndef);
                 (if truthy components && truthy schemas
                  then setSubIds schemas Draft07 "components/schemas"
                  else mret tt);;
                 mret (Draft07, Some 3)
               else mret (Draft04, None)) s).
  { unfold selectSchemaType.
    rewrite (bind_Ok _ _ _ _ _ (get_obj l o "$schema" s El)). rewrite Es.
    rewrite mret_bind.
    rewrite (bind_Ok _ _ _ _ _ (get_obj l o "swagger" s El)). rewrite Hsw.
    rewrite (bind_Ok _ _ _ _ _ (get_obj l o "openapi" s El)). by rewrite Hv. }
  rewrite E. split.
  - intros Hform r s'. destruct (truthy (VStr v) && openapi3 v) eqn:Hc; [|].
    + intros (paths & s1 & _ & H)%bind_Ok_inv.
      apply bind_Ok_inv in H as ([] & s2 & _ & H).
      apply bind_Ok_inv in H as (components & s3 & _ & H).
      apply bind_Ok_inv in H as (schemas & s4 & _ & H).
      apply bind_Ok_inv in H as ([] & s5 & _ & H). by injection H as <- <-.
    + exfalso. apply openapi3_spec in Hform as Ho.
      destruct Hform as (minor & patch & -> & _).
      rewrite Ho, append_cons in Hc. done.
  - intros Hform. destruct (openapi3 v) eqn:Ho; [by apply openapi3_spec in Ho|].
    by rewrite andb_false_r.
Qed.

(** X5: The identifier of the schema [parseSchema] returns, read off the
    content as type selection leaves it: an identifier of the content is
    used, and the address is ignored; without one, the address is written
    into the content and used; an empty identifier or address, or none at
    all, gives [SchemaId.empty].  An identifier the content had before
    parsing is still there after type selection. *)
Theorem parseSchema_identifier (empty : SchemaId) (l : loc) (o1 : object)
    (url : option string) (type : SchemaType) (version : option nat)
    (s s1 : state) :
  selectSchemaType (VObj l) s = Ok (type, version) s1 →
  st_heap s1 !! l = Some o1 →
  let key := getIdPropertyName type in
  (∀ id, prop o1 key = VStr id →
     parseSchema empty (VObj l) url s
     = Ok (identified empty type version id (VObj l)) s1)
  ∧ (∀ u, url = Some u → nullish (prop o1 key) = true →
     parseSchema empty (VObj l) url s
     = Ok (identified empty type version u (VObj l))
          (set_prop l key (VStr u) o1 s1))
  ∧ (url = None → nullish (prop o1 key) = true →
     parseSchema empty (VObj l) url s
     = Ok (mkSchema type version empty (VObj l) None) s1)
  ∧ (∀ o, st_heap s !! l = Some o → nullish (prop o key) = false →
          prop o1 key = prop o key).
Proof.
  intros Hsel El key. unfold parseSchema, getId. cbv zeta.
  rewrite (bind_Ok _ _ _ _ _ Hsel). cbn [fst snd]. fold key.
  repeat split.
  - intros id Hid.
    assert (Hset : (match url with
                    | Some url => setId type (VObj l) url
                    | None => mret tt
                    end) s1 = Ok tt s1).
    { destruct url; [|done]. apply (setId_kept type l o1); [done|].
      fold key. by rewrite Hid. }
    rewrite (bind_Ok _ _ _ _ _ Hset).
    rewrite (bind_Ok _ _ _ _ _ (get_obj l o1 key s1 El)). rewrite Hid.
    unfold identified. cbn [truthy]. by destruct (String.eqb id "").
  - intros u -> Hn.
    rewrite (bind_Ok _ _ _ _ _ (setId_fresh type l o1 u s1 El Hn)).
    erewrite bind_Ok.
    2: { apply get_obj. unfold set_prop. rsimpl. apply list_lookup_insert_eq.
         by eapply lookup_lt_Some. }
    fold key. rewrite prop_set.
    unfold identified. cbn [truthy]. by destruct (String.eqb u "").
  - intros -> Hn. rewrite mret_bind.
    rewrite (bind_Ok _ _ _ _ _ (get_obj l o1 key s1 El)).
    by destruct (prop o1 key).
  - intros o El0 Hn.
    assert (Hmv : ids_only s s1).
    { apply (moves_selectSchemaType (VObj l)). by rewrite Hsel. }
    destruct Hmv as (_ & _ & _ & _ & HF).
    destruct (Forall2_lookup_l _ _ _ _ _ HF El0) as (o1' & El1 & _ & Hk).
    assert (Some o1' = Some o1) as [= ->] by (rewrite <- El, <- El1; reflexivity).
    unfold prop in *. destruct (assoc_get key (props o)) as [v|] eqn:Ev; [|done].
    by rewrite (proj2 (Hk key) v Ev Hn).
Qed.

(** X1, witness: a Swagger document with one definition without identifier
    gets an identifier for it and for the root, and nothing else changes. *)
Lemma parseSchema_writes_missing_ids_only_witness :
  let s' := run_state (parseSchema no_id (VObj 3) (Some "http://x/api.json")
                         swagger_example) in
  ids_only swagger_example s'
  ∧ st_heap s' =
      [Object [("type", VStr "object"); ("id", VStr "#/definitions/Pet")] false;
       Object [("id", VStr "tag.json")] false;
       Object [("Pet", VObj 0); ("Tag", VObj 1)] false;
       Object [("swagger", VStr "2.0"); ("definitions", VObj 2);
               ("id", VStr "http://x/api.json")] false].
Proof.
  intros s'. split; [|vm_compute; reflexivity].
  apply (parseSchema_writes_missing_ids_only no_id (VObj 3)
           (Some "http://x/api.json")).
  vm_compute. reflexivity.
Defined.

(** X2, witness: of two definitions, the one without identifier gets
    [#/definitions/Pet] and the other keeps its own. *)
Lemma setSubIds_identifies_members_witness :
  ∃ s', setSubIds (VObj 2) Draft04 "definitions" swagger_example = Ok tt s'
        ∧ id_of Draft04 (st_heap s') 0 = VStr "#/definitions/Pet"
        ∧ id_of Draft04 (st_heap s') 1 = VStr "tag.json".
Proof.
  destruct (setSubIds_identifies_members Draft04 "definitions" 2
              (Object [("Pet", VObj 0); ("Tag", VObj 1)] false) swagger_example)
    as (s' & Hrun & Hpost); [reflexivity| |].
  - intros k v Hin.
    repeat (apply elem_of_cons in Hin as [[= -> ->]|Hin];
            [right; eexists; split; [done|]; split; [lia|vm_compute; lia]|]).
    by apply elem_of_nil in Hin.
  - exists s'. split; [done|]. split.
    + destruct (Hpost "Pet" 0 eq_refl) as (_ & _ & Hnew).
      destruct (Hnew eq_refl) as (k' & Hk' & ->). f_equal.
      cbn [assoc_get props] in Hk'.
      destruct (String.eqb_spec "Pet" k') as [Heq|_]; [by rewrite <- Heq|].
      by destruct (String.eqb_spec "Tag" k').
    + destruct (Hpost "Tag" 1 eq_refl) as (_ & Hold & _). by rewrite Hold.
Defined.

(** X3, witness: a document declaring draft-06 is a [Draft07] schema without
    OpenAPI version, though it has an [openapi] member. *)
Lemma selectSchemaType_declared_draft_witness :
  let s := heap_state
             [Object [("$schema", VStr "http://json-schema.org/draft-06/schema#");
                      ("openapi", VStr "3.0.0")] false] in
  selectSchemaType (VObj 0) s = Ok (Draft07, None) s.
Proof.
  intros s.
  exact (selectSchemaType_declared_draft 0 _ "06" "#" s eq_refl eq_refl
           ltac:(done) eq_refl).
Defined.

(** X4, witness: the version [3.0] has two components only: the document is
    a plain [Draft04] schema and its paths get no identifier. *)
Lemma selectSchemaType_openapi_version_witness :
  let s := heap_state [Object [] false;
                       Object [("openapi", VStr "3.0"); ("paths", VObj 0)] false] in
  selectSchemaType (VObj 1) s = Ok (Draft04, None) s.
Proof.
  intros s.
  apply (proj2 (selectSchemaType_openapi_version 1 _ "3.0" s
                  eq_refl eq_refl eq_refl eq_refl)).
  intros H%openapi3_spec. discriminate H.
Defined.

(** X5, witness: a content whose identifier is the empty string gets
    [SchemaId.empty], whatever the address. *)
Lemma parseSchema_identifier_witness :
  let s := heap_state [Object [("id", VStr "")] false] in
  parseSchema no_id (VObj 0) (Some "http://x/a.json") s
  = Ok (mkSchema Draft04 None no_id (VObj 0) None) s.
Proof.
  intros s.
  exact (proj1 (parseSchema_identifier no_id 0 _ (Some "http://x/a.json")
                  Draft04 None s s eq_refl eq_refl) "" eq_refl).
Defined.

(** * Sub-schema discovery *)

Lemma split_on_nonempty (sep : Ascii.ascii) (s : string) : split_on sep s ≠ [].
Proof.
  induction s as [|c s IH]; cbn [split_on]; [done|].
  destruct (Ascii.eqb c sep); [done|]. by destruct (split_on sep s).
Qed.

Lemma split_on_whole (sep : Ascii.ascii) (s : string) :
  occurs sep s = false → split_on sep s = [s].
Proof.
  induction s as [|c s IH]; cbn [split_on occurs]; [done|].
  intros [Hc Hs]%orb_false_iff. rewrite Hc, (IH Hs). done.
Qed.

Lemma split_on_app (sep : Ascii.ascii) (p seg : string) :
  occurs sep seg = false →
  split_on sep (p +:+ String sep seg) = split_on sep p ++ [seg].
Proof.
  intros Hseg. induction p as [|c p IH].
  - rewrite append_nil. cbn [split_on]. rewrite Ascii.eqb_refl.
    by rewrite (split_on_whole _ _ Hseg).
  - rewrite append_cons. cbn [split_on]. rewrite IH.
    destruct (Ascii.eqb c sep); [done|].
    pose proof (split_on_nonempty sep p). by destruct (split_on sep p).
Qed.

Lemma ends_with_brace_app (x : string) :
  SearchAllSubSchema.ends_with_brace (x +:+ "}") = true.
Proof.
  induction x as [|c x IH]; [done|]. rewrite append_cons.
  cbn [SearchAllSubSchema.ends_with_brace]. rewrite IH.
  destruct x; [done|]. by rewrite append_cons.
Qed.

Lemma has_line_break_brace (x : string) :
  SearchAllSubSchema.has_line_break (x +:+ "}") = SearchAllSubSchema.has_line_break x.
Proof.
  induction x as [|c x IH]; [done|]. rewrite append_cons.
  cbn [SearchAllSubSchema.has_line_break]. rewrite IH. f_equal. f_equal.
  destruct x as [|a [|b x]]; rewrite ?append_cons, ?append_nil;
    destruct c as [[] [] [] [] [] [] [] []]; try reflexivity;
    destruct a as [[] [] [] [] [] [] [] []]; reflexivity.
Qed.

(** X6: A path segment in braces becomes the fixed segment [$1], whatever is
    between the braces: a path that ends in a parameter has the same
    namespace segments whatever the parameter is called.  The empty
    segment becomes [$], and a segment that does not start with a brace is
    kept. *)
Theorem namespace_segment_drops_parameter_name (p x : string) :
  SearchAllSubSchema.has_line_break x = false →
  occurs "/" x = false →
  SearchAllSubSchema.namespace_segment ("{" +:+ x +:+ "}") = "$1"
  ∧ SearchAllSubSchema.namespace_segment
      <$> split_on "/" (p +:+ "/{" +:+ x +:+ "}")
    = (SearchAllSubSchema.namespace_segment <$> split_on "/" p) ++ ["$1"]
  ∧ SearchAllSubSchema.namespace_segment "" = "$"
  ∧ ∀ c r, c ≠ "{"%char →
      SearchAllSubSchema.namespace_segment (String c r) = String c r.
Proof.
  intros Hx Hs.
  assert (E : SearchAllSubSchema.namespace_segment ("{" +:+ x +:+ "}") = "$1").
  { rewrite append_cons, append_nil.
    cbn [SearchAllSubSchema.namespace_segment].
    by rewrite ends_with_brace_app, has_line_break_brace, Hx. }
  split; [done|]. split; [|split; [done|]].
  - rewrite append_cons.
    rewrite (split_on_app "/" p ("{" +:+ x +:+ "}")).
    + by rewrite fmap_app, <- E.
    + rewrite append_cons, append_nil. cbn [occurs]. cbn [Ascii.eqb].
      cbn. clear -Hs. induction x as [|c x IH]; [done|].
      rewrite append_cons. cbn [occurs] in *.
      apply orb_false_iff in Hs as [-> Hs]. by apply IH.
  - intros c r Hc. cbn [SearchAllSubSchema.namespace_segment].
    by destruct (Ascii.eqb_spec c "{").
Qed.

(** X6, witness: the segments of [/pets/{petId}]. *)
Lemma namespace_segment_drops_parameter_name_witness :
  SearchAllSubSchema.namespace_segment <$> split_on "/" "/pets/{petId}"
  = ["$"; "pets"; "$1"].
Proof.
  exact (proj1 (proj2 (namespace_segment_drops_parameter_name "/pets" "petId"
                         eq_refl eq_refl))).
Defined.

#[global] Instance ref_rewritten_preorder : PreOrder ref_rewritten.
Proof.
  split.
  - intros o. split; [done|]. intros k. by left.
  - intros o1 o2 o3 [Hs12 H12] [Hs23 H23]. split; [congruence|].
    intros k. destruct (H12 k) as [E12|(Hk1 & r & r' & Ha & Hb)],
                       (H23 k) as [E23|(Hk & r2 & r2' & Hc & Hd)].
    + left. congruence.
    + right. split; [done|]. exists r2, r2'. split; [congruence|done].
    + right. split; [done|]. exists r, r'. split; [done|congruence].
    + right. split; [done|]. exists r, r2'. done.
Qed.

#[global] Instance refs_only_preorder (schema : Schema) : PreOrder (refs_only schema).
Proof.
  split.
  - intros s. repeat split.
    + exists []. by rewrite app_nil_r.
    + exists (st_heap s), []. by rewrite app_nil_r.
  - intros s1 s2 s3 (A1 & A2 & A3 & (c1 & Ac & Af) & (o1 & n1 & Ah & AF))
                    (B1 & B2 & B3 & (c2 & Bc & Bf) & (o2 & n2 & Bh & BF)).
    repeat split; try congruence.
    + exists (c1 ++ c2). rewrite Bc, Ac, <- app_assoc. split; [done|].
      by apply Forall_app.
    + rewrite Ah in BF. apply Forall2_app_inv_l in BF as (a & b & Ha & Hb & ->).
      exists a, (b ++ n2). rewrite Bh, <- app_assoc. split; [done|]. by etrans.
Qed.

Lemma refs_only_emit (schema : Schema) (c : call) (s : state) :
  is_found schema c → refs_only schema s (set_calls (st_calls s ++ [c]) s).
Proof.
  intros Hc. repeat split.
  - exists [c]. split; [done|]. by constructor.
  - exists (st_heap s), []. by rewrite app_nil_r.
Qed.

Lemma refs_only_alloc (schema : Schema) (os : list object) (s s' : state) :
  st_heap s' = st_heap s ++ os → st_schemas s' = st_schemas s →
  st_references s' = st_references s → st_current s' = st_current s →
  st_calls s' = st_calls s →
  refs_only schema s s'.
Proof.
  intros Hh ? ? ? Hc. repeat split; try done.
  - exists []. by rewrite app_nil_r.
  - by exists (st_heap s), os.
Qed.

Lemma refs_only_insert (schema : Schema) (l : loc) (o o' : object) (s : state) :
  st_heap s !! l = Some o → ref_rewritten o o' →
  refs_only schema s (set_heap (<[l := o']> (st_heap s)) s).
Proof.
  intros El Ho. repeat split.
  - exists []. by rewrite app_nil_r.
  - exists (<[l := o']> (st_heap s)), []. rsimpl. rewrite app_nil_r. split; [done|].
    rewrite <- (list_insert_id (st_heap s) l o El) at 1.
    by apply Forall2_insert.
Qed.

Ltac rsimpl_in H :=
  cbn [with_content with_id s_content s_id s_type s_rootSchema s_openApiVersion
       set_heap set_calls set_current set_schemas set_references
       st_heap st_calls st_current st_schemas st_references props opSym
       truthy nullish is_undefined isArray typeof is_str final_state] in H.

Lemma bind_final {A B} (m : M A) (f : A → M B) (s s' : state) :
  final_state ((m ≫= f) s) = Some s' →
  (∃ a s1, m s = Ok a s1 ∧ final_state (f a s1) = Some s')
  ∨ (∃ e, m s = Throw e s').
Proof.
  unfold mbind, M_bind. destruct (m s) as [a s1|e s1|]; [| |done].
  - intros Hs'. left. by exists a, s1.
  - intros [= <-]. right. by exists e.
Qed.

Lemma shallow_copy_final (v : val) (s s1 : state) :
  final_state (shallow_copy v s) = Some s1 →
  match shallow_copy v s with
  | Ok c _ => ∃ o, c = VObj (length (st_heap s))
                   ∧ s1 = set_heap (st_heap s ++ [o]) s
  | _ => s1 = s
  end.
Proof.
  assert (Ha : ∀ o, final_state (alloc o s) = Some s1 →
               match alloc o s with
               | Ok c _ => ∃ o, c = VObj (length (st_heap s))
                                ∧ s1 = set_heap (st_heap s ++ [o]) s
               | _ => s1 = s
               end).
  { intros o. munfold. intros [= <-]. by exists o. }
  assert (Hm : ∀ keys, final_state
                 ((mapM (λ k, x ← get v k; mret (k, x)) keys
                   ≫= λ vals, new_object vals) s) = Some s1 →
               match (mapM (λ k, x ← get v k; mret (k, x)) keys
                      ≫= λ vals, new_object vals) s with
               | Ok c _ => ∃ o, c = VObj (length (st_heap s))
                                ∧ s1 = set_heap (st_heap s ++ [o]) s
               | _ => s1 = s
               end).
  { intros keys.
    set (mm := mapM (λ k, x ← get v k; mret (k, x)) keys).
    unfold mbind, M_bind.
    destruct (mm s) as [vals s2|e s2|] eqn:E; subst mm; [| |done].
    - apply mapM_get_state in E as [-> _]. apply Ha.
    - intros [= <-].
      assert (Hmv : moves eq (mapM (λ k, x ← get v k; mret (k, x)) keys)).
      { apply moves_mapM; [apply _|]. intros k.
        apply moves_bind; [apply _|apply moves_get; apply _|].
        intros x. apply moves_ret; apply _. }
      symmetry. apply (Hmv s). by rewrite E. }
  destruct v; cbn [shallow_copy nullish].
  1,2: rewrite mret_bind; apply Hm.
  5: { unfold mbind at 1 2, M_bind at 1 2. unfold lookup_obj.
       destruct (st_heap s !! l); [apply Ha|by intros [= <-]]. }
  all: cbn [objectKeys]; rewrite mret_bind; apply Hm.
Qed.

Lemma insert_fresh (h : heap) (o o' : object) :
  <[length h := o']> (h ++ [o]) = h ++ [o'].
Proof. by rewrite insert_app_r_alt, Nat.sub_diag by lia. Qed.

Section discovery_writes.
Context {ext : Externals}.
Variable schema : Schema.

Lemma moves_findId (v id : val) (parentIds : list string) :
  moves (refs_only schema) (SearchAllSubSchema.findId schema v id parentIds).
Proof.
  unfold SearchAllSubSchema.findId.
  destruct id as [| |b|n|str|vs|lv]; try (apply moves_ret; apply _).
  destruct (truthy (VStr str)) eqn:Ht; [|apply moves_ret; apply _].
  apply moves_bind; [apply _| |intros ?; apply moves_ret; apply _].
  intros s s' [= <-]. apply refs_only_emit. repeat split.
  cbn [s_id inputId]. by intros ->.
Qed.

Lemma moves_findRef (refObject : val) (parentIds : list string) :
  moves (refs_only schema) (SearchAllSubSchema.findRef refObject parentIds).
Proof.
  unfold SearchAllSubSchema.findRef.
  apply moves_bind_ok; [apply _|apply moves_get; apply _|].
  intros s ref s1 s' Hget. pose proof (get_Ok_state _ _ _ _ _ Hget) as ->.
  destruct ref as [| |b|n|r|vs|lr]; try (by intros [= <-]).
  destruct refObject as [| |b|n|str|vs|l]; cbn [set]; munfold;
    try (by intros [= <-]).
  destruct (st_heap s !! l) as [o|] eqn:El; [|by intros [= <-]].
  intros [= <-].
  etrans; [eapply (refs_only_insert schema l o); [done|]
          |by apply (refs_only_emit schema _ (set_heap _ s))].
  rewrite (get_obj l o _ s El) in Hget. injection Hget as Hr.
  unfold prop in Hr.
  destruct (assoc_get "$ref" (props o)) as [x|] eqn:Ex; [|done]. cbn in Hr. subst x.
  split; [done|]. intros k. cbn [props]. rewrite assoc_get_set.
  destruct (String.eqb_spec "$ref" k) as [<-|]; [|by left].
  right. split; [done|]. by eexists _, _.
Qed.

Lemma moves_operation_fields (operation op : val) (parentIds : list string) :
  moves (refs_only schema)
    (id ← getId (s_type schema) operation;
     parentIds ← SearchAllSubSchema.findId schema operation id parentIds;
     keys ← objectKeys op;
     for_of keys (λ key, field ← get op key;
                         if String.eqb key "$ref"
                         then SearchAllSubSchema.findRef field parentIds
                         else mret tt)).
Proof.
  unfold getId.
  apply moves_bind; [apply _|apply moves_get; apply _|]. intros id.
  apply moves_bind; [apply _|apply moves_findId|]. intros pids.
  apply moves_bind; [apply _|apply moves_objectKeys; apply _|]. intros keys.
  apply moves_for_of; [apply _|]. intros key.
  apply moves_bind; [apply _|apply moves_get; apply _|]. intros field.
  destruct (String.eqb key "$ref"); [apply moves_findRef|apply moves_ret; apply _].
Qed.

Lemma moves_walkOpenAPIV3Operation (op : val) (method path : string)
    (paths parentIds : list string) :
  moves (refs_only schema)
    (SearchAllSubSchema.walkOpenAPIV3Operation schema op method path paths parentIds).
Proof.
  intros s s'. unfold SearchAllSubSchema.walkOpenAPIV3Operation.
  destruct (nullish op || negb _); [by intros [= <-]|].
  intros [(copy & sa & Hc & Hfin)|[e Hc]]%bind_final;
    pose proof (shallow_copy_final op s) as Hsc; rewrite Hc in Hsc.
  2: { by rewrite (Hsc s' eq_refl). }
  destruct (Hsc sa eq_refl) as (oc & -> & ->). clear Hsc.
  erewrite bind_Ok in Hfin.
  2: { apply (set_obj (length (st_heap s)) oc). rsimpl. apply lookup_fresh. }
  unfold set_prop in Hfin. rsimpl_in Hfin. rewrite insert_fresh in Hfin.
  erewrite bind_Ok in Hfin.
  2: { erewrite bind_Ok; [|unfold lookup_obj; rsimpl; by rewrite lookup_fresh].
       erewrite bind_Ok; [|reflexivity]. reflexivity. }
  unfold store, modify in Hfin. rsimpl_in Hfin. rewrite insert_fresh in Hfin.
  etrans; [|eapply moves_operation_fields, Hfin].
  by eapply (refs_only_alloc schema [_]).
Qed.

Lemma moves_walkOpenAPIV3Paths (pathObject : val) (paths parentIds : list string) :
  moves (refs_only schema)
    (SearchAllSubSchema.walkOpenAPIV3Paths schema pathObject paths parentIds).
Proof.
  unfold SearchAllSubSchema.walkOpenAPIV3Paths, SearchAllSubSchema.walkPathItem.
  destruct (nullish pathObject || negb _); [apply moves_ret; apply _|].
  apply moves_bind; [apply _|apply moves_objectKeys; apply _|]. intros keys.
  apply moves_for_of; [apply _|]. intros path.
  apply moves_bind; [apply _|apply moves_get; apply _|]. intros pathItem.
  apply moves_bind; [apply _| |].
  - apply moves_mapM; [apply _|]. intros method.
    apply moves_bind; [apply _|apply moves_get; apply _|].
    intros x. apply moves_ret; apply _.
  - intros operations. apply moves_for_of; [apply _|]. intros operation.
    apply moves_walkOpenAPIV3Operation.
Qed.

Ltac moves_refs IH :=
  repeat first
    [ apply IH
    | apply moves_findId
    | apply moves_findRef
    | apply moves_walkOpenAPIV3Paths
    | apply moves_ret; apply _
    | apply moves_throw; apply _
    | apply moves_get; apply _
    | apply moves_has_prop; apply _
    | apply moves_objectKeys; apply _
    | apply moves_for_of; [apply _|intros ?]
    | apply moves_forEach_from; [apply _|intros ? ?]
    | apply moves_bind; [apply _| |intros ?]
    | match goal with
      | |- moves _ (if ?b then _ else _) => destruct b
      | |- moves _ (match ?x with _ => _ end) => destruct x
      end ].

Lemma moves_walk (fuel : nat) (v : val) (paths parentIds : list string) :
  moves (refs_only schema) (SearchAllSubSchema.walk schema fuel v paths parentIds).
Proof.
  revert v paths parentIds.
  induction fuel as [|fuel IH]; intros v paths parentIds;
    [apply moves_out_of_fuel; apply _|].
  cbn [SearchAllSubSchema.walk]. cbv zeta. moves_refs IH.
Qed.

(** X7: Discovery writes nothing but [$ref] strings: whether
    [searchAllSubSchema] returns or throws, every object that was on the
    heap has its members as before, except that a [$ref] string may have
    been replaced by another string; the objects it creates (the copies of
    operations) come after them; it calls the two callbacks and nothing
    else, and every schema it reports has a non-empty identifier and the
    schema searched as its root. *)
Theorem searchAllSubSchema_rewrites_refs_only (fuel : nat) (s s' : state) :
  final_state (SearchAllSubSchema.searchAllSubSchema schema fuel s) = Some s' →
  refs_only schema s s'.
Proof. apply moves_walk. Qed.

End discovery_writes.

(** X7, witness: a document with one reference and one operation; the only
    new object is the copy of the operation. *)
Lemma searchAllSubSchema_rewrites_refs_only_witness :
  let content := (loaded refs_example).1 in
  let s := (loaded refs_example).2 in
  let s' := run_state (SearchAllSubSchema.searchAllSubSchema (ext := sample)
                         (document_at content) 8 s) in
  refs_only (document_at content) s s'
  ∧ length (st_heap s') = S (length (st_heap s))
  ∧ snapshot 8 (st_heap s') content = snapshot 8 (st_heap s) content.
Proof.
  intros content s s'. split; [|by vm_compute].
  apply (searchAllSubSchema_rewrites_refs_only (ext := sample)
           (document_at content) 8 s s').
  vm_compute. reflexivity.
Defined.

(** * The run and the OpenAPI synthesis: edge cases *)

Section edge_cases.
Context {ext : Externals}.

(** X8: With no schema registered, [generate] fails in its [reduce], which has
    no initial value: the outcome is a [TypeError], before anything is
    emitted. *)
Theorem generate_empty_registry (fuel : nat) (s s1 : state) :
  resolve s = Ok tt s1 →
  st_schemas s1 = [] →
  generate fuel s
  = Throw (TypeError "Reduce of empty array with no initial value") s1.
Proof.
  intros Hr Hs. unfold generate, collectSchemas.
  unfold mbind at 1, M_bind at 1. unfold mbind at 1, M_bind at 1. rewrite Hr.
  unfold mbind at 1, M_bind at 1. unfold mbind at 1, M_bind at 1.
  unfold get_state at 1. rewrite Hs. reflexivity.
Qed.

Lemma filter_of_none (params : list val) (paramName : string) (s : state) :
  Forall (λ p, ∃ v, get p "in" s = Ok v s ∧ is_str v paramName = false) params →
  filter_of params (λ parameter,
    location ← get parameter "in"; mret (is_str location paramName)) s
  = Ok [] s.
Proof.
  induction 1 as [|p params (v & Hg & Hv) _ IH]; cbn [filter_of]; [done|].
  erewrite bind_Ok; [|erewrite bind_Ok; [|exact Hg]; reflexivity].
  rewrite (bind_Ok _ _ _ _ _ IH). by rewrite Hv.
Qed.

(** X9: A location that no parameter of the operation has gives no parameter
    group: nothing is allocated, registered or referenced, and the
    request wrapper and the results are as they were. *)
Theorem normalizeParameter_location_without_parameter (schema : Schema)
    (baseId : string) (request : Schema) (r : list Schema) (params : list val)
    (paramName : string) (s : state) :
  Forall (λ p, ∃ v, get p "in" s = Ok v s ∧ is_str v paramName = false) params →
  normalizeParameter schema baseId request r params paramName s = Ok r s.
Proof.
  intros Hp. unfold normalizeParameter.
  by rewrite (bind_Ok _ _ _ _ _ (filter_of_none params paramName s Hp)).
Qed.

Lemma dereference_Ok_state (v : val) (schema : Schema) (s s1 : state) :
  dereference v s = Ok schema s1 → s1 = s.
Proof.
  destruct v; cbn [dereference]; munfold; try done.
  destruct (assoc_get _ _); [by intros [= _ <-]|done].
Qed.

(** X10: The schema [normalizeSchema] returns for a parameter is a new object
    whose [type] is neither ["object"] nor ["array"]; the schema it was
    given, and every other object, is left as it was. *)
Theorem normalizeSchema_new_and_flat (v c : val) (s s' : state) :
  normalizeSchema v s = Ok c s' →
  kept (st_heap s) s'
  ∧ ∃ lc oc, c = VObj lc ∧ length (st_heap s) ≤ lc
             ∧ st_heap s' !! lc = Some oc
             ∧ is_str (prop oc "type") "object" = false
             ∧ is_str (prop oc "type") "array" = false.
Proof.
  unfold normalizeSchema. intros (c1 & s1 & Hc1 & H)%bind_Ok_inv.
  apply (shallow_copy_kept (st_heap s)) in Hc1 as (Hk1 & l1 & -> & Hl1);
    [|unfold kept; reflexivity].
  apply bind_Ok_inv in H as (isRef & s2 & Hr & H).
  unfold checkOpenAPIV3RefereunceObject in Hr.
  apply bind_Ok_inv in Hr as (ref & s2' & ->%get_Ok_state & [= _ <-]).
  apply bind_Ok_inv in H as (sv & s3 & Hsv & H).
  assert (s3 = s1) as ->.
  { destruct isRef; [|by injection Hsv as _ <-].
    apply bind_Ok_inv in Hsv as (r & sa & ->%get_Ok_state & Hsv).
    apply bind_Ok_inv in Hsv as (sch & sb & ->%dereference_Ok_state & [= _ <-]).
    done. }
  destruct (negb (is_undefined sv)).
  - apply bind_Ok_inv in H as (type & s4 & ->%get_Ok_state & H).
    apply bind_Ok_inv in H as (copy & s5 & Hcopy & H).
    apply (shallow_copy_kept (st_heap s)) in Hcopy as (Hk5 & lc & -> & Hlc); [|done].
    apply bind_Ok_inv in H as ([] & s6 & Hset & [= <- <-]).
    split; [by eapply set_kept|].
    cbn [set] in Hset. revert Hset. munfold.
    destruct (st_heap s5 !! lc) as [o5|] eqn:E5; [|done]. intros [= <-].
    eexists lc, _. split; [done|]. split; [done|]. rsimpl.
    split; [apply list_lookup_insert_eq; by eapply lookup_lt_Some|].
    rewrite prop_set.
    destruct (is_str type "object") eqn:Eo, (is_str type "array") eqn:Ea; by cbn.
  - revert H. munfold. intros [= <- <-]. split; [by apply kept_alloc|].
    eexists _, _. split; [done|]. rsimpl.
    split; [destruct Hk1 as [k ->]; rewrite length_app; lia|].
    split; [apply lookup_fresh|]. done.
Qed.

End edge_cases.

(** X8, witness: a run from the empty state. *)
Lemma generate_empty_registry_witness :
  generate (ext := sample) 5 empty_state
  = Throw (TypeError "Reduce of empty array with no initial value") empty_state.
Proof.
  exact (generate_empty_registry (ext := sample) 5 empty_state empty_state
           eq_refl eq_refl).
Defined.

(** X9, witness: one [path] parameter and the location [query]. *)
Lemma normalizeParameter_location_without_parameter_witness :
  let s := heap_state [Object [("name", VStr "id"); ("in", VStr "path")] false;
                       Object [] false] in
  normalizeParameter (ext := sample) (schema_at 1) "op" (schema_at 1) []
    [VObj 0] "query" s
  = Ok [] s.
Proof.
  intros s.
  apply (normalizeParameter_location_without_parameter (ext := sample)).
  constructor; [|constructor]. exists (VStr "path"). by split.
Defined.

(** X10, witness: a parameter schema of type [object] gives a new schema of
    type [string]. *)
Lemma normalizeSchema_new_and_flat_witness :
  let s := heap_state [Object [("type", VStr "object")] false] in
  let s' := heap_state [Object [("type", VStr "object")] false;
                        Object [("type", VStr "object")] false;
                        Object [("type", VStr "string")] false] in
  normalizeSchema (VObj 0) s = Ok (VObj 2) s' ∧ kept (st_heap s) s'.
Proof.
  intros s s'.
  assert (E : normalizeSchema (VObj 0) s = Ok (VObj 2) s') by (by vm_compute).
  split; [exact E|].
  exact (proj1 (normalizeSchema_new_and_flat (VObj 0) (VObj 2) s s' E)).
Defined.

(** * The tree walk of the emitter *)

Lemma unmark_eq (marker : option Schema) (children : list (string * node)) :
  unmark (Node marker children) = Node None (unmark_map children).
Proof.
  cbn [unmark]. f_equal. induction children as [|[k c] l IH]; [done|].
  by rewrite IH.
Qed.

Lemma keys_distinct_eq (marker : option Schema) (children : list (string * node)) :
  keys_distinct (Node marker children) ↔ map_distinct children.
Proof.
  cbn [keys_distinct]. unfold map_distinct.
  apply and_iff_compat_l.
  induction children as [|[k c] l IH]; [by split; [constructor|]|].
  rewrite Forall_cons, IH. done.
Qed.

Lemma unmarked_at_ext (K K' : list string) (map : list (string * node)) :
  (∀ k, k ∈ map.*1 → (k ∈ K ↔ k ∈ K')) → unmarked_at K map = unmarked_at K' map.
Proof.
  intros H. unfold unmarked_at. apply Forall_fmap_ext_1, Forall_forall.
  intros [k n] Hin. cbn [fst snd]. f_equal.
  assert (Hk : k ∈ map.*1) by (apply list_elem_of_fmap; by exists (k, n)).
  specialize (H k Hk). do 2 case_bool_decide; tauto.
Qed.

Lemma unmarked_at_nil (map : list (string * node)) : unmarked_at [] map = map.
Proof.
  unfold unmarked_at. rewrite <- (list_fmap_id map) at 2.
  apply Forall_fmap_ext_1, Forall_forall. intros [k n] _. cbn [fst snd].
  rewrite bool_decide_eq_false_2; [done|]. by intros ?%elem_of_nil.
Qed.

Lemma unmarked_at_all (K : list string) (map : list (string * node)) :
  (∀ k, k ∈ map.*1 → k ∈ K) → unmarked_at K map = unmark_map map.
Proof.
  intros H. unfold unmarked_at, unmark_map. apply Forall_fmap_ext_1, Forall_forall.
  intros [k n] Hin. cbn [fst snd]. rewrite bool_decide_eq_true_2; [done|].
  apply H, list_elem_of_fmap. by exists (k, n).
Qed.

Lemma unmarked_at_get (K : list string) (map : list (string * node)) (key : string) :
  key ∉ K → assoc_get key (unmarked_at K map) = assoc_get key map.
Proof.
  intros HK. induction map as [|[k n] map IH]; [done|].
  cbn [unmarked_at fmap list_fmap assoc_get fst snd].
  destruct (String.eqb_spec k key) as [->|]; [|exact IH].
  by rewrite bool_decide_eq_false_2.
Qed.

Lemma unmarked_at_set (K : list string) (map : list (string * node)) (key : string)
    (n : node) :
  NoDup map.*1 → assoc_get key map = Some n →
  assoc_set key (unmark n) (unmarked_at K map) = unmarked_at (K ++ [key]) map.
Proof.
  intros Hnd Hn. induction map as [|[k0 n0] map IH]; [done|].
  apply NoDup_cons in Hnd as [Hk0 Hnd].
  cbn [unmarked_at fmap list_fmap assoc_set fst snd]. cbn [assoc_get] in Hn.
  destruct (String.eqb_spec k0 key) as [->|Hne].
  - injection Hn as ->.
    rewrite (bool_decide_eq_true_2 (key ∈ K ++ [key]))
      by (apply elem_of_app; right; by left).
    f_equal. apply unmarked_at_ext. intros k Hk.
    assert (k ≠ key) by (intros ->; done).
    rewrite elem_of_app, list_elem_of_singleton. tauto.
  - f_equal; [|by apply IH]. f_equal.
    assert (Hiff : k0 ∈ K ++ [key] ↔ k0 ∈ K)
      by (rewrite elem_of_app, list_elem_of_singleton; tauto).
    do 2 case_bool_decide; tauto.
Qed.

#[global] Instance heap_only_preorder : PreOrder heap_only.
Proof.
  split.
  - intros s. by destruct s.
  - intros s1 s2 s3 H12 H23. unfold heap_only, set_heap in *.
    destruct s1, s2, s3. cbn in *. congruence.
Qed.

Lemma moves_alloc (o : object) : moves heap_only (alloc o).
Proof. by intros s s' [= <-]. Qed.

Lemma moves_new_object (ps : list (string * val)) : moves heap_only (new_object ps).
Proof. apply moves_alloc. Qed.

Lemma moves_store (l : loc) (o : object) : moves heap_only (store l o).
Proof. by intros s s' [= <-]. Qed.

Lemma moves_set (v : val) (k : string) (x : val) : moves heap_only (set v k x).
Proof.
  destruct v; cbn [set]; try (apply moves_throw; apply _).
  apply moves_bind; [apply _|apply moves_lookup_obj; apply _|].
  intros o. apply moves_store.
Qed.

Lemma moves_delete_prop (v : val) (k : string) : moves heap_only (delete_prop v k).
Proof.
  destruct v; cbn [delete_prop];
    try (apply moves_throw; apply _); try (apply moves_ret; apply _).
  apply moves_bind; [apply _|apply moves_lookup_obj; apply _|].
  intros o. apply moves_store.
Qed.

Ltac moves_heap tac :=
  repeat first
    [ tac
    | apply moves_set
    | apply moves_delete_prop
    | apply moves_new_object
    | apply moves_ret; apply _
    | apply moves_throw; apply _
    | apply moves_out_of_fuel; apply _
    | apply moves_get; apply _
    | apply moves_lookup_obj; apply _
    | apply moves_has_prop; apply _
    | apply moves_objectKeys; apply _
    | apply moves_dereference; apply _
    | apply moves_the_array; apply _
    | apply moves_for_of; [apply _|intros ?]
    | apply moves_bind; [apply _| |intros ?]
    | match goal with
      | |- moves _ (if ?b then _ else _) => destruct b
      | |- moves _ (match ?x with _ => _ end) => destruct x
      end ].

Lemma moves_JsonPointer_get (path : list string) (v : val) :
  moves heap_only (JsonPointer_get v path).
Proof.
  revert v. induction path as [|key path IH]; intros v; cbn [JsonPointer_get].
  - apply moves_ret; apply _.
  - moves_heap ltac:(apply IH).
Qed.

Lemma moves_mergeSchema (a b : val) : moves heap_only (mergeSchema a b).
Proof. unfold mergeSchema, merge_key. moves_heap fail. Qed.

Section normalisation_frame.
Context {ext : Externals}.

Lemma moves_getSubSchema (root : Schema) (pointer : string) (id : option SchemaId) :
  moves heap_only (getSubSchema root pointer id).
Proof.
  unfold getSubSchema, JsonPointer_parse, getId.
  moves_heap ltac:(apply moves_JsonPointer_get).
Qed.

Lemma moves_normalizeType (content : val) : moves heap_only (normalizeType content).
Proof. unfold normalizeType. moves_heap fail. Qed.

Lemma moves_normalizeContent (fuel : nat) (schema : Schema) (pointer : option string) :
  moves heap_only (normalizeContent fuel schema pointer).
Proof.
  revert schema pointer.
  induction fuel as [|fuel IH]; intros schema pointer;
    [apply moves_out_of_fuel; apply _|].
  cbn [normalizeContent]. cbv zeta. unfold foldAllOf, resolveMember.
  moves_heap ltac:(first [ apply IH | apply moves_getSubSchema
                         | apply moves_normalizeType | apply moves_mergeSchema ]).
Qed.

End normalisation_frame.

#[global] Instance emits_nested_preorder : PreOrder emits_nested.
Proof.
  split.
  - intros s. exists []. split; [by rewrite app_nil_r|constructor].
  - intros s1 s2 s3 (c1 & E1 & H1) (c2 & E2 & H2). exists (c1 ++ c2).
    split; [by rewrite E2, E1, <- app_assoc|by constructor].
Qed.

Lemma heap_only_nested (s s' : state) : heap_only s s' → emits_nested s s'.
Proof.
  intros H. exists []. split; [|constructor]. rewrite H. by rewrite app_nil_r.
Qed.

Section returns.
Context (R : relation state) `{!PreOrder R}.

Lemma returns_of_moves {A} (m : M A) : moves R m → returns R m.
Proof. intros Hm s a s' E. apply Hm. by rewrite E. Qed.

Lemma returns_ret {A} (a : A) : returns R (mret a : M A).
Proof. by intros s a' s' [= _ <-]. Qed.

Lemma returns_throw {A} (e : exn) : returns R (throw e : M A).
Proof. by intros s a s'. Qed.

Lemma returns_out_of_fuel {A} : returns R (out_of_fuel : M A).
Proof. by intros s a s'. Qed.

Lemma returns_bind {A B} (m : M A) (f : A → M B) :
  returns R m → (∀ a, returns R (f a)) → returns R (m ≫= f).
Proof.
  intros Hm Hf s b s' (a & s1 & E1 & E2)%bind_Ok_inv.
  etrans; [by eapply Hm|by eapply Hf].
Qed.

Lemma returns_for_of {A} (xs : list A) (body : A → M unit) :
  (∀ x, returns R (body x)) → returns R (for_of xs body).
Proof.
  intros Hb. induction xs as [|x xs IH]; cbn [for_of]; [apply returns_ret|].
  apply returns_bind; [apply Hb|]. by intros _.
Qed.

Lemma returns_fold_of {A S} (xs : list A) (acc : S) (body : S → A → M S) :
  (∀ acc x, returns R (body acc x)) → returns R (fold_of xs acc body).
Proof.
  intros Hb. revert acc. induction xs as [|x xs IH]; intros acc; cbn [fold_of];
    [apply returns_ret|].
  apply returns_bind; [apply Hb|]. intros acc'. apply IH.
Qed.

Lemma returns_for_count (n : nat) (i : Z) (body : Z → M unit) :
  (∀ j, returns R (body j)) → returns R (for_count n i body).
Proof.
  intros Hb. revert i. induction n as [|n IH]; intros i; cbn [for_count];
    [apply returns_ret|].
  apply returns_bind; [apply Hb|]. intros _. apply IH.
Qed.

Lemma returns_forEach_from {A} (index : nat) (xs : list A) (body : A → nat → M unit) :
  (∀ x i, returns R (body x i)) → returns R (forEach_from index xs body).
Proof.
  intros Hb. revert index. induction xs as [|x xs IH]; intros index;
    cbn [forEach_from]; [apply returns_ret|].
  apply returns_bind; [apply Hb|]. intros _. apply IH.
Qed.

End returns.

Lemma returns_emit (c : call) : bracket c = false → returns emits_nested (emit c).
Proof.
  intros Hc s [] s' [= <-]. exists [c]. split; [done|]. by constructor.
Qed.

Lemma returns_heap_only {A} (m : M A) : moves heap_only m → returns emits_nested m.
Proof. intros Hm s a s' E. apply heap_only_nested, Hm. by rewrite E. Qed.

Lemma returns_set_current (c : option Schema) :
  returns emits_nested (modify (set_current c)).
Proof.
  intros s [] s' [= <-]. exists []. split; [by rewrite app_nil_r|constructor].
Qed.

Lemma returns_outputTypeIdName (schema : Schema) (terminate : bool) :
  returns emits_nested (outputTypeIdName schema terminate).
Proof.
  unfold outputTypeIdName.
  apply returns_bind; [apply _|apply returns_of_moves, moves_get_state; apply _|].
  intros s. by apply returns_emit.
Qed.

Lemma returns_outputArrayedType {A} (schema : Schema) (types : list A)
    (output : A → nat → M unit) (terminate : bool) :
  (∀ t i, returns emits_nested (output t i)) →
  returns emits_nested (outputArrayedType schema types output terminate).
Proof.
  intros Ho. unfold outputArrayedType.
  apply returns_bind; [apply _|by apply returns_emit|]. intros _.
  apply returns_bind; [apply _| |intros _; by apply returns_emit].
  apply returns_forEach_from; [apply _|]. intros t i.
  apply returns_bind; [apply _|apply Ho|]. intros _.
  destruct (bool_decide _); [by apply returns_emit|apply returns_ret; apply _].
Qed.

(** A nested sequence between an opening and a closing call *)
Lemma returns_between {A} (open close : call) (m : M A) (f : A → M unit) :
  (∀ cs, nested cs → nested (open :: cs ++ [close])) →
  returns emits_nested m →
  (∀ a, returns emits_nested (f a)) →
  returns emits_nested (emit open;; a ← m; f a;; emit close).
Proof.
  intros Hb Hm Hf s [] s' ([] & s1 & [= <-] & H)%bind_Ok_inv.
  apply bind_Ok_inv in H as (a & s2 & E2 & H).
  apply bind_Ok_inv in H as ([] & s3 & E3 & [= <-]).
  destruct (Hm _ _ _ E2) as (c2 & Ec2 & H2), (Hf a _ _ _ E3) as (c3 & Ec3 & H3).
  exists (open :: (c2 ++ c3) ++ [close]). split; [|by apply Hb, nested_app].
  rsimpl. rewrite Ec3, Ec2. rsimpl. by rewrite <- !app_assoc.
Qed.

Section emitter_nesting.
Context {ext : Externals}.

Ltac nest_with IH :=
  repeat first
    [ apply IH
    | apply returns_ret; apply _
    | apply returns_throw
    | apply returns_out_of_fuel
    | apply returns_emit; reflexivity
    | apply returns_outputTypeIdName
    | apply returns_set_current
    | apply returns_heap_only, moves_normalizeContent
    | apply returns_heap_only, moves_set
    | apply returns_of_moves;
      first [ apply moves_get | apply moves_has_prop | apply moves_objectKeys
            | apply moves_dereference | apply moves_the_array
            | apply moves_get_state ]; apply _
    | apply returns_for_of; [apply _|intros ?]
    | apply returns_for_count; [apply _|intros ?]
    | apply returns_outputArrayedType; intros ? ?
    | apply returns_bind; [apply _| |intros ?]
    | match goal with
      | |- returns _ (if ?b then _ else _) => destruct b
      | |- returns _ (match ?x with _ => _ end) => destruct x
      end ].

Lemma returns_type_nest (terminate : bool) (m : M unit) :
  returns emits_nested m →
  returns emits_nested (emit StartTypeNest;; m;; emit (EndTypeNest terminate)).
Proof.
  intros Hm s [] s' ([] & s1 & [= <-] & H)%bind_Ok_inv.
  apply bind_Ok_inv in H as ([] & s2 & E2 & [= <-]).
  destruct (Hm _ _ _ E2) as (c2 & Ec2 & H2).
  exists (StartTypeNest :: c2 ++ [EndTypeNest terminate]).
  split; [|by constructor]. rsimpl. rewrite Ec2. rsimpl. by rewrite <- !app_assoc.
Qed.

Lemma emitter_nested (fuel : nat) :
  (∀ b, returns emits_nested (generateProperties fuel b))
  ∧ (∀ sch t, returns emits_nested (generateTypeProperty fuel sch t))
  ∧ (∀ b c p t, returns emits_nested (generateArrayedType fuel b c p t))
  ∧ (∀ sch t, returns emits_nested (generateArrayTypeProperty fuel sch t))
  ∧ (∀ sch t o, returns emits_nested (generateType fuel sch t o))
  ∧ (∀ sch ty t o, returns emits_nested (generateTypeName fuel sch ty t o)).
Proof.
  induction fuel as [|fuel (IH1 & IH2 & IH3 & IH4 & IH5 & IH6)].
  { repeat split; intros; apply returns_out_of_fuel. }
  repeat split.
  - intros b. cbn [generateProperties]. cbv zeta. nest_with IH2.
  - intros sch t. cbn [generateTypeProperty]. cbv zeta.
    nest_with IH3; apply IH5.
  - intros b c p t. cbn [generateArrayedType]. nest_with IH2.
  - intros sch t. cbn [generateArrayTypeProperty]. cbv zeta.
    unfold for_upto, for_below. nest_with IH2.
  - intros sch t o. cbn [generateType]. cbv zeta. nest_with IH6; apply IH5.
  - intros sch ty t o. cbn [generateTypeName]. cbv zeta.
    apply returns_bind; [apply _|apply returns_of_moves, moves_get_state; apply _|].
    intros s. destruct (truthy_name _); [by apply returns_emit|].
    destruct (String.eqb ty "object"); [apply returns_type_nest, IH1|].
    destruct (String.eqb ty "array"); [apply IH4|apply returns_throw].
Qed.

Lemma returns_walkSchema (fuel : nat) (schema : Schema) :
  returns emits_nested (walkSchema fuel schema).
Proof.
  destruct (emitter_nested fuel) as (IH1 & IH2 & IH3 & IH4 & IH5 & IH6).
  assert (Hmodel : ∀ sch, returns emits_nested (generateTypeModel fuel sch)).
  { intros sch s [] s' ([] & s1 & [= <-] & H)%bind_Ok_inv.
    unfold generateTypeModel.
    apply bind_Ok_inv in H as (type & s2 & ->%get_Ok_state & H).
    apply bind_Ok_inv in H as ([] & s3 & E3 & H).
    apply bind_Ok_inv in H as ([] & s4 & E4 & [= <-]).
    assert (H3 : emits_nested (set_calls (st_calls s ++ [StartInterfaceNest (s_id sch)]) s) s3).
    { revert E3. destruct (is_str type "any"); [by apply returns_emit|].
      apply returns_ret; apply _. }
    destruct H3 as (c3 & Ec3 & H3), (IH1 _ _ _ _ E4) as (c4 & Ec4 & H4).
    exists (StartInterfaceNest (s_id sch) :: (c3 ++ c4) ++ [EndInterfaceNest]).
    split; [|by apply nested_interface, nested_app].
    rsimpl. rewrite Ec4, Ec3. rsimpl. by rewrite <- !app_assoc. }
  unfold walkSchema, generateTypeCollection, generateDeclareType.
  nest_with Hmodel; first [apply IH2 | apply IH4].
Qed.

Lemma returns_walk (fuel : nat) (map : list (string * node)) :
  returns emits_nested (walk fuel map).
Proof.
  revert map. induction fuel as [|fuel IH]; intros map; [apply returns_out_of_fuel|].
  cbn [walk]. apply returns_fold_of; [apply _|]. intros acc key. unfold walk_body.
  destruct (assoc_get key acc) as [[marker children]|]; [|apply returns_throw].
  apply returns_bind; [apply _| |].
  { destruct marker; [apply returns_walkSchema|apply returns_ret; apply _]. }
  intros _. apply returns_bind; [apply _| |intros ?; apply returns_ret; apply _].
  destruct children as [|kc children]; [apply returns_ret; apply _|].
  intros s c' s' ([] & s1 & [= <-] & H)%bind_Ok_inv.
  apply bind_Ok_inv in H as (c1 & s2 & E2 & H).
  apply bind_Ok_inv in H as ([] & s3 & [= <-] & [= _ <-]).
  destruct (IH _ _ _ _ E2) as (c2 & Ec2 & H2).
  exists (StartNest key :: c2 ++ [EndNest]). split; [|by constructor].
  rsimpl. rewrite Ec2. rsimpl. by rewrite <- !app_assoc.
Qed.

(** X12: The calls of a walk that returns are well nested: every namespace,
    interface and inline object type that is opened is closed, in the
    order of a bracketing, and nothing is closed that was not opened. *)
Theorem walk_output_nested (fuel : nat) (map map' : list (string * node))
    (s s' : state) :
  walk fuel map s = Ok map' s' →
  ∃ calls, st_calls s' = st_calls s ++ calls ∧ nested calls.
Proof. apply returns_walk. Qed.

End emitter_nesting.

Section again.
Context {ext : Externals}.

Lemma type_normalised_prop (l : loc) (o : object) (s : state) (k : string) :
  st_heap s !! l = Some o → k ≠ "type" →
  ∃ o', st_heap (type_normalised l o s) !! l = Some o' ∧ prop o' k = prop o k.
Proof.
  intros El Hk.
  assert (Hset : ∀ v, ∃ o', st_heap (set_prop l "type" v o s) !! l = Some o'
                             ∧ prop o' k = prop o k).
  { intros v. unfold set_prop. rsimpl. eexists. split.
    - rewrite list_lookup_insert_eq by (by eapply lookup_lt_Some). done.
    - unfold prop. cbn [props]. rewrite assoc_get_set_ne; [done|congruence]. }
  unfold type_normalised. destruct (prop o "type"); eauto.
  destruct (_ || _); eauto.
Qed.

Lemma type_normalised_settled (l : loc) (o : object) (s : state) :
  type_settled o → type_normalised l o s = s.
Proof.
  unfold type_settled, type_normalised.
  destruct (prop o "type"); try done. by intros ->.
Qed.

(** X13: Normalisation is idempotent: once [normalizeContent] has returned for
    a schema whose content is an object, and has left a settled [type],
    normalising the schema again returns the same schema and changes
    nothing, whatever [allOf] the content had. *)
Theorem normalizeContent_idempotent (fuel fuel' : nat) (schema schema' : Schema)
    (l : loc) (o1 : object) (s s1 : state) :
  s_content schema = VObj l →
  normalizeContent (S fuel) schema None s = Ok schema' s1 →
  st_heap s1 !! l = Some o1 →
  type_settled o1 →
  normalizeContent (S fuel') schema None s1 = Ok schema s1.
Proof.
  intros Ec Hfirst El1 Hsettled.
  assert (Ha : truthy (prop o1 "allOf") = false).
  { revert Hfirst. cbn [normalizeContent]. rewrite mret_bind. cbv zeta.
    rewrite Ec. rsimpl. rewrite bool_decide_eq_false_2 by done.
    intros (c & sc & Hc & [= _ <-])%bind_Ok_inv.
    apply bind_Ok_inv in Hc as ([] & sa & Hf & Hc).
    apply bind_Ok_inv in Hc as ([] & sb & Hn & [= <- <-]).
    assert (∃ oa, st_heap sa !! l = Some oa ∧ truthy (prop oa "allOf") = false)
      as (oa & Ela & Hoa).
    { pose proof Hf as Hf'. unfold foldAllOf in Hf'.
      apply bind_Ok_inv in Hf' as (allOf & s0 & Hg & _).
      cbn [get] in Hg. revert Hg. munfold.
      destruct (st_heap s !! l) as [o|] eqn:El; [intros _|done].
      destruct (truthy (prop o "allOf")) eqn:Ht.
      - destruct (foldAllOf_deletes _ l o s sa El Ht Hf) as (oa & Ela & Hnone).
        exists oa. split; [done|]. unfold prop. by rewrite Hnone.
      - rewrite (foldAllOf_absent _ l o s El Ht) in Hf. injection Hf as <-.
        by exists o. }
    rewrite (normalizeType_obj l oa sa Ela) in Hn. injection Hn as <-.
    destruct (type_normalised_prop l oa sa "allOf" Ela) as (o' & El' & Hp); [done|].
    assert (Some o' = Some o1) as [= ->] by (rewrite <- El', <- El1; reflexivity).
    by rewrite Hp. }
  cbn [normalizeContent]. rewrite mret_bind. cbv zeta.
  rewrite Ec. rsimpl. rewrite bool_decide_eq_false_2 by done.
  erewrite bind_Ok; [|erewrite bind_Ok; [|by apply (foldAllOf_absent _ l o1)];
                      erewrite bind_Ok; [|by apply normalizeType_obj];
                      reflexivity].
  rewrite (type_normalised_settled l o1 s1 Hsettled).
  munfold. by rewrite with_content_same.
Qed.

(** X14: Normalisation writes to the heap only: whether [normalizeContent]
    returns or throws, it has made no call to the convertor, registered
    nothing and left [currentSchema] as it was. *)
Theorem normalizeContent_writes_heap_only (fuel : nat) (schema : Schema)
    (pointer : option string) (s s' : state) :
  final_state (normalizeContent fuel schema pointer s) = Some s' →
  heap_only s s'.
Proof. apply moves_normalizeContent. Qed.

End again.

(** X13, witness: the schema with [allOf] of the example, normalised a
    second time. *)
Lemma normalizeContent_idempotent_witness :
  let s := (loaded allOf_example).2 in
  let s1 := run_state (normalizeContent (ext := sample) 1 (schema_at 6) None s) in
  normalizeContent (ext := sample) 3 (schema_at 6) None s1 = Ok (schema_at 6) s1.
Proof.
  intros s s1.
  eapply (normalizeContent_idempotent (ext := sample) 0 2 (schema_at 6) _ 6 _ s s1).
  - reflexivity.
  - vm_compute. reflexivity.
  - vm_compute. reflexivity.
  - vm_compute. reflexivity.
Defined.

(** X14, witness: normalisation of the schema with [allOf] of the example. *)
Lemma normalizeContent_writes_heap_only_witness :
  let s := (loaded allOf_example).2 in
  heap_only s (run_state (normalizeContent (ext := sample) 1 (schema_at 6) None s)).
Proof.
  intros s.
  apply (normalizeContent_writes_heap_only (ext := sample) 1 (schema_at 6) None s).
  vm_compute. reflexivity.
Defined.

(** X12, witness: the walk of a tree with one schema and one namespace. *)
Lemma walk_output_nested_witness :
  let s := (loaded nested_example).2 in
  let map := [("a", Node (Some (schema_at 4)) [("b", Node None [])])] in
  ∃ calls, st_calls (run_state (walk (ext := sample) 8 map s)) = st_calls s ++ calls
           ∧ nested calls.
Proof.
  intros s map.
  apply (walk_output_nested (ext := sample) 8 map (run_map (walk (ext := sample) 8 map s)) s).
  vm_compute. reflexivity.
Defined.

(** * Operations, from discovery to synthesis *)

Section operations.
Context {ext : Externals}.

Lemma moves_operation_refs (schema : Schema) (op : val) (parentIds : list string) :
  moves (refs_only schema)
    (keys ← objectKeys op;
     for_of keys (λ key, field ← get op key;
                         if String.eqb key "$ref"
                         then SearchAllSubSchema.findRef field parentIds
                         else mret tt)).
Proof.
  apply moves_bind; [apply _|apply moves_objectKeys; apply _|]. intros keys.
  apply moves_for_of; [apply _|]. intros key.
  apply moves_bind; [apply _|apply moves_get; apply _|]. intros field.
  destruct (String.eqb key "$ref"); [apply moves_findRef|apply moves_ret; apply _].
Qed.

Lemma check_obj (l : loc) (o : object) (s : state) :
  st_heap s !! l = Some o →
  checkOpenAPIV3SchemaContentObject (VObj l) s = Ok (opSym o) s.
Proof. intros E. cbn [checkOpenAPIV3SchemaContentObject]. munfold. by rewrite E. Qed.

(** X15: The operations that discovery reports are the operations the
    synthesis recognises.  For an operation with an identifier, discovery
    reports, before anything else, a schema whose content is a new copy of
    the operation; when the walk of the operation returns, that copy
    carries the operation marker, which is what
    [checkOpenAPIV3SchemaContentObject] tests, and the namespaces made of
    the path and the method.  The operation itself is not marked. *)
Theorem discovered_operation_is_marked (schema : Schema) (l : loc) (o : object)
    (i method path : string) (paths parentIds : list string) (s s' : state) :
  st_heap s !! l = Some o →
  prop o (getIdPropertyName (s_type schema)) = VStr i → i ≠ "" →
  SearchAllSubSchema.walkOpenAPIV3Operation schema (VObj l) method path paths
    parentIds s = Ok tt s' →
  let copy := VObj (length (st_heap s)) in
  checkOpenAPIV3SchemaContentObject copy s' = Ok true s'
  ∧ get copy "namespaces" s'
    = Ok (VArr (VStr <$> "$" :: (SearchAllSubSchema.namespace_segment
                                   <$> split_on "/" path) ++ [method])) s'
  ∧ (∃ calls, st_calls s'
      = st_calls s
        ++ OnFoundSchema (mkSchema (s_type schema) None
                            (mkSchemaId i (Some parentIds)) copy (Some schema))
        :: calls)
  ∧ ∃ o', st_heap s' !! l = Some o' ∧ opSym o' = opSym o.
Proof.
  intros El Hid Hne Hrun copy. subst copy.
  unfold SearchAllSubSchema.walkOpenAPIV3Operation in Hrun.
  cbn [nullish typeof orb] in Hrun.
  rewrite bool_decide_eq_true_2 in Hrun by done. cbn [negb] in Hrun.
  set (ns := VArr (VStr <$> "$" :: (SearchAllSubSchema.namespace_segment
                                      <$> split_on "/" path) ++ [method])) in *.
  erewrite bind_Ok in Hrun.
  2: { cbn [shallow_copy]. erewrite bind_Ok; [|unfold lookup_obj; by rewrite El].
       reflexivity. }
  erewrite bind_Ok in Hrun.
  2: { apply (set_obj (length (st_heap s)) o). rsimpl. apply lookup_fresh. }
  unfold set_prop in Hrun. rsimpl_in Hrun. rewrite insert_fresh in Hrun.
  erewrite bind_Ok in Hrun.
  2: { erewrite bind_Ok; [|unfold lookup_obj; rsimpl; by rewrite lookup_fresh].
       erewrite bind_Ok; [|reflexivity]. reflexivity. }
  unfold store, modify in Hrun. rsimpl_in Hrun. rewrite insert_fresh in Hrun.
  set (marked := Object (assoc_set "namespaces" ns (props o)) true) in *.
  unfold getId in Hrun.
  erewrite bind_Ok in Hrun.
  2: { apply (get_obj (length (st_heap s)) marked). rsimpl. apply lookup_fresh. }
  assert (Hidc : prop marked (getIdPropertyName (s_type schema)) = VStr i).
  { unfold prop, marked. cbn [props]. rewrite assoc_get_set_ne; [exact Hid|].
    by destruct (s_type schema). }
  rewrite Hidc in Hrun.
  unfold SearchAllSubSchema.findId in Hrun. cbn [truthy] in Hrun.
  rewrite (proj2 (String.eqb_neq i "") Hne) in Hrun. cbn [negb] in Hrun.
  erewrite bind_Ok in Hrun; [|erewrite bind_Ok; [|reflexivity]; reflexivity].
  pose proof (moves_operation_refs schema (VObj l)
                (parentIds ++ [getAbsoluteId (mkSchemaId i (Some parentIds))])) as Hmv.
  match type of Hrun with
  | ?m ?sd = Ok tt s' => specialize (Hmv sd s')
  end.
  destruct Hmv as (_ & _ & _ & (cs & Hcs & _) & (old & new & Hh & HF)).
  { by rewrite Hrun. }
  rsimpl_in Hcs. rsimpl_in HF.
  apply Forall2_app_inv_l in HF as (old1 & old2 & HF1 & HF2 & ->).
  apply Forall2_cons_inv_l in HF2 as (o2 & tl & [Hsym Hprops] & Hnil & ->).
  apply Forall2_nil_inv_l in Hnil as ->.
  assert (Hlen : length old1 = length (st_heap s)) by (symmetry; by eapply Forall2_length).
  assert (Elc : st_heap s' !! length (st_heap s) = Some o2).
  { rewrite Hh, <- app_assoc, <- Hlen. by rewrite lookup_app_r, Nat.sub_diag. }
  repeat split.
  - by rewrite (check_obj _ o2 s' Elc), Hsym.
  - rewrite (get_obj _ o2 _ s' Elc). do 2 f_equal. unfold prop.
    destruct (Hprops "namespaces") as [->|[? _]]; [|done].
    unfold marked. cbn [props]. by rewrite assoc_get_set, String.eqb_refl.
  - exists cs. by rewrite Hcs, <- app_assoc.
  - destruct (Forall2_lookup_l _ _ _ _ _ HF1 El) as (o' & El' & Hs' & _).
    exists o'. split; [|done]. rewrite Hh, <- app_assoc.
    by apply lookup_app_l_Some.
Qed.

End operations.

Section synthesis_edges.
Context {ext : Externals}.

(** X16: A schema that is not an operation is passed through as it is.  An
    operation with neither parameters nor a request body contributes no
    schema at all: the request wrapper that was prepared has no property
    and is dropped. *)
Theorem resolveOpenAPIV3SchemaContent_without_request (schema : Schema) (l : loc)
    (o : object) (s : state) :
  s_content schema = VObj l →
  st_heap s !! l = Some o →
  (opSym o = false → resolveOpenAPIV3SchemaContent schema s = Ok [schema] s)
  ∧ (opSym o = true →
     truthy (prop o "parameters") = false →
     truthy (prop o "requestBody") = false →
     resolveOpenAPIV3SchemaContent schema s
     = Ok [] (set_heap (st_heap s ++
                [Object [] false;
                 Object [("properties", VObj (length (st_heap s)));
                         ("required", VArr []); ("type", VStr "object")] false])
              s)).
Proof.
  intros Ec El. unfold resolveOpenAPIV3SchemaContent. rewrite Ec.
  rewrite (bind_Ok _ _ _ _ _ (check_obj l o s El)).
  split; [by intros ->|]. intros -> Hp Hb.
  unfold resolveOpenAPIV3SchemaContentObject. cbv zeta.
  erewrite bind_Ok; [|reflexivity].
  erewrite bind_Ok; [|reflexivity].
  set (s2 := set_heap _ (set_heap _ s)).
  assert (El2 : st_heap s2 !! l = Some o).
  { subst s2. rsimpl. rewrite <- app_assoc. by apply lookup_app_l_Some. }
  assert (Ereq : st_heap s2 !! S (length (st_heap s))
                 = Some (Object [("properties", VObj (length (st_heap s)));
                                 ("required", VArr []); ("type", VStr "object")] false)).
  { subst s2. rsimpl.
    replace (S (length (st_heap s))) with (length (st_heap s ++ [Object [] false]))
      by (rewrite length_app; cbn; lia).
    apply lookup_fresh. }
  assert (Eprops : st_heap s2 !! length (st_heap s) = Some (Object [] false)).
  { subst s2. rsimpl. rewrite <- app_assoc. by rewrite lookup_app_r, Nat.sub_diag. }
  rewrite (bind_Ok _ _ _ _ _ (get_obj l o "parameters" s2 El2)). rewrite Hp.
  rewrite mret_bind.
  rewrite (bind_Ok _ _ _ _ _ (get_obj l o "requestBody" s2 El2)). rewrite Hb.
  rsimpl. rewrite length_app, Nat.add_1_r.
  rewrite (bind_Ok _ _ _ _ _ (get_obj _ _ "properties" s2 Ereq)).
  unfold prop at 1 2. cbn [props assoc_get String.eqb Ascii.eqb Bool.eqb default
                          from_option id truthy].
  rewrite (bind_Ok _ _ _ _ _ (objectKeys_obj _ _ s2 Eprops)).
  cbn [props fmap list_fmap length andb negb]. rewrite bool_decide_eq_true_2 by done.
  subst s2. rsimpl. by rewrite <- app_assoc.
Qed.

(** X17: The output of a run that returns is the call [start], the calls
    made by the walk of the namespace tree, which are well nested, and
    the call [end]. *)
Theorem generate_output_framed (fuel : nat) (schemas : list Schema)
    (calls : list call) (s s1 s' : state) :
  collectSchemas s = Ok schemas s1 →
  generate fuel s = Ok calls s' →
  st_calls s' = calls
  ∧ ∃ cs map' s2,
      walk fuel (buildSchemaMergedMap schemas)
        (set_calls (st_calls s1 ++ [Start]) s1) = Ok map' s2
      ∧ st_calls s2 = st_calls s1 ++ Start :: cs
      ∧ calls = st_calls s1 ++ Start :: cs ++ [End_]
      ∧ nested cs.
Proof.
  intros Hc. unfold generate. rewrite (bind_Ok _ _ _ _ _ Hc).
  intros ([] & s2 & [= <-] & H)%bind_Ok_inv.
  apply bind_Ok_inv in H as (map' & s3 & Hw & H).
  apply bind_Ok_inv in H as ([] & s4 & [= <-] & H).
  apply bind_Ok_inv in H as (s5 & s6 & [= <- <-] & [= <- <-]).
  split; [done|]. destruct (returns_walk _ _ _ _ _ Hw) as (cs & Ecs & Hn).
  exists cs, map', s3. split; [exact Hw|]. revert Ecs. rsimpl. intros Ecs.
  rewrite Ecs, <- !app_assoc. done.
Qed.

End synthesis_edges.

(** X15, witness: the operation [get] of [/pets]. *)
Lemma discovered_operation_is_marked_witness :
  let s := heap_state [Object [("$id", VStr "getPets")] false] in
  let s' := run_state (SearchAllSubSchema.walkOpenAPIV3Operation (ext := sample)
                         (document_at VNull) (VObj 0) "get" "/pets"
                         ["#"; "paths"; "/pets"; "get"] [] s) in
  checkOpenAPIV3SchemaContentObject (VObj 1) s' = Ok true s'
  ∧ get (VObj 1) "namespaces" s'
    = Ok (VArr [VStr "$"; VStr "$"; VStr "pets"; VStr "get"]) s'.
Proof.
  intros s s'.
  destruct (discovered_operation_is_marked (ext := sample) (document_at VNull) 0
              (Object [("$id", VStr "getPets")] false) "getPets" "get" "/pets"
              ["#"; "paths"; "/pets"; "get"] [] s s')
    as (H1 & H2 & _); [reflexivity|reflexivity|done|by vm_compute|].
  split; [exact H1|exact H2].
Defined.

(** X16, witness: an operation with namespaces only. *)
Lemma resolveOpenAPIV3SchemaContent_without_request_witness :
  let s := heap_state [Object [("namespaces", VArr [VStr "$"; VStr "get"])] true] in
  resolveOpenAPIV3SchemaContent (ext := sample) (schema_at 0) s
  = Ok [] (heap_state
             [Object [("namespaces", VArr [VStr "$"; VStr "get"])] true;
              Object [] false;
              Object [("properties", VObj 1); ("required", VArr []);
                      ("type", VStr "object")] false]).
Proof.
  intros s.
  exact (proj2 (resolveOpenAPIV3SchemaContent_without_request (ext := sample)
                  (schema_at 0) 0 _ s eq_refl eq_refl) eq_refl eq_refl eq_refl).
Defined.

(** X17, witness: a run over one registered object schema. *)
Lemma generate_output_framed_witness :
  let s := registered (JObj [("type", JStr "object");
                             ("properties", JObj [("a", JObj [("type", JStr "object")])])]) in
  ∃ cs, st_calls (run_state (generate (ext := sample) 8 s))
        = st_calls s ++ Start :: cs ++ [End_]
        ∧ st_calls (run_state (walk (ext := sample) 8
                      [("a", Node (Some (schema_at 2)) [])]
                      (set_calls (st_calls s ++ [Start]) s)))
          = st_calls s ++ Start :: cs
        ∧ nested cs.
Proof.
  intros s.
  assert (E : ∃ calls, generate (ext := sample) 8 s
                       = Ok calls (run_state (generate (ext := sample) 8 s))).
  { eexists. vm_compute. reflexivity. }
  destruct E as [calls E].
  destruct (generate_output_framed (ext := sample) 8
              [mkSchema Draft04 None (mkSchemaId "a" None) (VObj 2) None]
              calls s s _ ltac:(vm_compute; reflexivity) E)
    as (-> & cs & map' & s2 & Hw & Hcs & Hcalls & Hn).
  exists cs. split; [done|]. split; [|done].
  change (buildSchemaMergedMap _) with [("a", Node (Some (schema_at 2)) [])] in Hw.
  by rewrite Hw.
Defined.

#[global] Instance keeps_current_preorder (n : Schema) : PreOrder (keeps_current n).
Proof.
  split.
  - intros s Hs. split; [done|]. exists []. by rewrite app_nil_r.
  - intros s1 s2 s3 H12 H23 H1.
    destruct (H12 H1) as (H2 & c1 & E1 & F1).
    destruct (H23 H2) as (H3 & c2 & E2 & F2).
    split; [done|]. exists (c1 ++ c2).
    split; [by rewrite E2, E1, <- app_assoc|by apply Forall_app].
Qed.

Lemma heap_only_current (n : Schema) (s s' : state) :
  heap_only s s' → keeps_current n s s'.
Proof.
  intros H Hs. rewrite H. split; [done|]. exists []. by rewrite app_nil_r.
Qed.

Lemma moves_weaken {A} (R R' : relation state) (m : M A) :
  (∀ s s', R s s' → R' s s') → moves R m → moves R' m.
Proof. intros HR Hm s s' Hs'. by apply HR, Hm. Qed.

Lemma moves_emit_relative (n : Schema) (c : call) :
  relative_to n c → moves (keeps_current n) (emit c).
Proof.
  intros Hc s s' [= <-] Hs. split; [done|]. exists [c]. split; [done|].
  by constructor.
Qed.

Lemma moves_outputTypeIdName (n schema : Schema) (terminate : bool) :
  moves (keeps_current n) (outputTypeIdName schema terminate).
Proof.
  intros s s' [= <-] Hs. split; [done|]. eexists [_]. split; [done|].
  by constructor.
Qed.

Lemma moves_outputArrayedType {A} (n schema : Schema) (types : list A)
    (output : A → nat → M unit) (terminate : bool) :
  (∀ t i, moves (keeps_current n) (output t i)) →
  moves (keeps_current n) (outputArrayedType schema types output terminate).
Proof.
  intros Ho. unfold outputArrayedType.
  apply moves_bind; [apply _|by apply moves_emit_relative|]. intros _.
  apply moves_bind; [apply _| |intros _; by apply moves_emit_relative].
  apply moves_forEach_from; [apply _|]. intros t i.
  apply moves_bind; [apply _|apply Ho|]. intros _.
  destruct (bool_decide _); [by apply moves_emit_relative|apply moves_ret; apply _].
Qed.

Section current.
Context {ext : Externals}.
Variable n : Schema.

Ltac current_with IH :=
  repeat first
    [ apply IH
    | apply moves_ret; apply _
    | apply moves_throw; apply _
    | apply moves_out_of_fuel; apply _
    | apply moves_emit_relative; exact I
    | apply moves_outputTypeIdName
    | apply (moves_weaken heap_only); [apply heap_only_current|];
      first [ apply moves_normalizeContent | apply moves_set ]
    | apply moves_get; apply _
    | apply moves_has_prop; apply _
    | apply moves_objectKeys; apply _
    | apply moves_dereference; apply _
    | apply moves_the_array; apply _
    | apply moves_get_state; apply _
    | apply moves_for_of; [apply _|intros ?]
    | apply moves_for_count; [apply _|intros ?]
    | apply moves_outputArrayedType; intros ? ?
    | apply moves_bind; [apply _| |intros ?]
    | match goal with
      | |- moves _ (if ?b then _ else _) => destruct b
      | |- moves _ (match ?x with _ => _ end) => destruct x
      end ].

Lemma emitter_current (fuel : nat) :
  (∀ b, moves (keeps_current n) (generateProperties fuel b))
  ∧ (∀ sch t, moves (keeps_current n) (generateTypeProperty fuel sch t))
  ∧ (∀ b c p t, moves (keeps_current n) (generateArrayedType fuel b c p t))
  ∧ (∀ sch t, moves (keeps_current n) (generateArrayTypeProperty fuel sch t))
  ∧ (∀ sch t o, moves (keeps_current n) (generateType fuel sch t o))
  ∧ (∀ sch ty t o, moves (keeps_current n) (generateTypeName fuel sch ty t o)).
Proof.
  induction fuel as [|fuel (IH1 & IH2 & IH3 & IH4 & IH5 & IH6)].
  { split; [|split; [|split; [|split; [|split]]]];
      intros; apply moves_out_of_fuel; apply _. }
  split; [|split; [|split; [|split; [|split]]]].
  - intros b. cbn [generateProperties]. cbv zeta. current_with IH2.
  - intros sch t. cbn [generateTypeProperty]. cbv zeta.
    current_with IH3; apply IH5.
  - intros b c p t. cbn [generateArrayedType]. current_with IH2.
  - intros sch t. cbn [generateArrayTypeProperty]. cbv zeta.
    unfold for_upto, for_below. current_with IH2.
  - intros sch t o. cbn [generateType]. cbv zeta. current_with IH6; apply IH5.
  - intros sch ty t o. cbn [generateTypeName]. cbv zeta.
    current_with IH1; apply IH4.
Qed.

End current.

Section current_schema.
Context {ext : Externals}.

(** X18: [walkSchema] makes the normalised schema the current schema before it
    emits anything: when it returns, its first call has been
    [outputComments] for the normalised schema, every reference to a named
    type rendered after that has been rendered relative to this schema,
    and it is still the current schema. *)
Theorem walkSchema_current_schema (fuel : nat) (schema : Schema) (s s' : state) :
  walkSchema fuel schema s = Ok tt s' →
  ∃ normalized s1 calls,
    normalizeContent fuel schema None s = Ok normalized s1
    ∧ st_calls s' = st_calls s ++ OutputComments normalized :: calls
    ∧ Forall (relative_to normalized) calls
    ∧ st_current s' = Some normalized.
Proof.
  unfold walkSchema. intros (normalized & s1 & Hn & H)%bind_Ok_inv.
  exists normalized, s1.
  assert (Hh : heap_only s s1) by (apply (moves_normalizeContent fuel schema None s);
                                   by rewrite Hn).
  apply bind_Ok_inv in H as ([] & s2 & [= <-] & H).
  apply bind_Ok_inv in H as ([] & s3 & [= <-] & H).
  destruct (emitter_current normalized fuel) as (IH1 & IH2 & IH3 & IH4 & IH5 & IH6).
  assert (Hm : moves (keeps_current normalized)
                 (type ← get (s_content normalized) "type";
                  if is_str type "object" || is_str type "any"
                  then generateTypeModel fuel normalized
                  else if is_str type "array"
                       then generateTypeCollection fuel normalized
                       else generateDeclareType fuel normalized)).
  { unfold generateTypeModel, generateTypeCollection, generateDeclareType.
    repeat first
      [ apply IH1 | apply IH2 | apply IH4
      | apply moves_ret; apply _
      | apply moves_emit_relative; exact I
      | apply moves_get; apply _
      | apply moves_bind; [apply _| |intros ?]
      | match goal with
        | |- moves _ (if ?b then _ else _) => destruct b
        end ]. }
  destruct (Hm (set_calls (st_calls s1 ++ [OutputComments normalized])
                  (set_current (Some normalized) s1)) s')
    as (Hcur & cs & Ecs & Hcs); [by rewrite H|done|].
  exists cs. split; [done|]. split; [|done].
  rewrite Ecs. rsimpl. rewrite Hh. rsimpl. by rewrite <- app_assoc.
Qed.

End current_schema.

(** X18, witness: the nested example. *)
Lemma walkSchema_current_schema_witness :
  let s := (loaded nested_example).2 in
  ∃ calls, st_calls (run_state (walkSchema (ext := sample) 8 (schema_at 4) s))
           = OutputComments (schema_at 4) :: calls
           ∧ Forall (relative_to (schema_at 4)) calls.
Proof.
  intros s.
  destruct (walkSchema_current_schema (ext := sample) 8 (schema_at 4) s
              (run_state (walkSchema (ext := sample) 8 (schema_at 4) s)))
    as (normalized & s1 & calls & Hn & Hc & Hf & _); [by vm_compute|].
  assert (normalized = schema_at 4) as ->.
  { vm_compute in Hn. by injection Hn as <- _. }
  exists calls. split; [exact Hc|exact Hf].
Defined.

Lemma forEach_from_ext {A} (I : state → Prop) (xs : list A) (index : nat)
    (f g : A → nat → M unit) (s : state) :
  I s →
  (∀ x i s1, I s1 → f x i s1 = g x i s1 ∧ ∀ s2, f x i s1 = Ok tt s2 → I s2) →
  forEach_from index xs f s = forEach_from index xs g s.
Proof.
  revert index s. induction xs as [|x xs IH]; intros index s HI Hb;
    cbn [forEach_from]; [done|].
  destruct (Hb x index s HI) as [E Hn].
  apply bind_ext_at; [done|]. intros [] s1 E1. rewrite <- E in E1.
  apply IH; [by apply Hn|done].
Qed.

Section enumerations.
Context {ext : Externals}.

(** X19: An enumeration is emitted as the union of its values, each written
    with [String(value)]: bare when the type of the schema is ["integer"],
    and between double quotes in every other case, so that the integers of
    a ["number"] enumeration, booleans and [null] come out as string
    literals.  The numbers among the values are integers of magnitude below
    2^53. *)
Theorem generateTypeProperty_enum (fuel : nat) (schema : Schema) (l : loc)
    (o : object) (values : list val) (terminate : bool) (s : state) :
  s_content schema = VObj l →
  st_heap s !! l = Some o →
  truthy (prop o "$ref") = false →
  truthy (prop o "anyOf") || truthy (prop o "oneOf") = false →
  prop o "enum" = VArr values →
  Forall safe_numbers values →
  generateTypeProperty (S fuel) schema terminate s
  = outputArrayedType schema values
      (λ value _, emit (OutputRawValue (enum_literal (prop o "type") value) None))
      terminate s.
Proof.
  intros Ec El Hr Ha He _. cbn [generateTypeProperty]. cbv zeta. rewrite Ec.
  rewrite (bind_Ok _ _ _ _ _ (get_obj l o "$ref" s El)), Hr.
  rewrite (bind_Ok _ _ _ _ _ (get_obj l o "anyOf" s El)).
  rewrite (bind_Ok _ _ _ _ _ (get_obj l o "oneOf" s El)), Ha.
  rewrite (bind_Ok _ _ _ _ _ (get_obj l o "enum" s El)), He. cbn [truthy the_array].
  rewrite mret_bind. unfold outputArrayedType.
  apply bind_ext_at; [done|]. intros [] s1 [= <-].
  apply bind_ext_at; [|done].
  apply (forEach_from_ext (λ s1, st_heap s1 !! l = Some o)); [done|].
  intros value i s1 El1. split.
  - apply bind_ext_at; [|done].
    rewrite (bind_Ok _ _ _ _ _ (get_obj l o "type" s1 El1)).
    unfold enum_literal. by destruct (is_str (prop o "type") "integer").
  - intros s2 (? & s3 & E3 & E2)%bind_Ok_inv.
    apply bind_Ok_inv in E3 as (type & s4 & ->%get_Ok_state & E3).
    assert (st_heap s3 = st_heap s1) as Hh3.
    { destruct (is_str type "integer"); by injection E3 as _ <-. }
    destruct (bool_decide _); injection E2 as <-; rsimpl; by rewrite ?Hh3.
Qed.

End enumerations.

(** X19, witness: the enumeration [1, 2] of type [number] is emitted as two
    string literals. *)
Lemma generateTypeProperty_enum_witness :
  let s := heap_state [Object [("type", VStr "number");
                               ("enum", VArr [VNum 1; VNum 2])] false] in
  text_of (generateTypeProperty (ext := sample) 1 (schema_at 0) true s)
  = Some [dquote +:+ "1" +:+ dquote; dquote +:+ "2" +:+ dquote].
Proof.
  intros s.
  rewrite (generateTypeProperty_enum (ext := sample) 0 (schema_at 0) 0 _
             [VNum 1; VNum 2] true s eq_refl eq_refl eq_refl eq_refl eq_refl).
  - vm_compute. reflexivity.
  - repeat constructor.
Defined.

Section reference_parameters.
Context {ext : Externals}.

Lemma unbound_inline (q : val) (s : state) :
  inline_parameter (st_heap s) q → resolveOpenAPIV3Object_unbound q s = Ok q s.
Proof.
  intros (lq & oq & -> & El & Ht). unfold resolveOpenAPIV3Object_unbound.
  erewrite bind_Ok.
  2: { unfold checkOpenAPIV3RefereunceObject.
       rewrite (bind_Ok _ _ _ _ _ (get_obj lq oq "$ref" s El)). reflexivity. }
  by destruct (prop oq "$ref").
Qed.

Lemma unbound_reference (lp : loc) (op : object) (r : string) (s : state) :
  st_heap s !! lp = Some op → prop op "$ref" = VStr r →
  resolveOpenAPIV3Object_unbound (VObj lp) s
  = Throw (TypeError "Cannot read property resolver of undefined") s.
Proof.
  intros El Hr. unfold resolveOpenAPIV3Object_unbound.
  erewrite bind_Ok.
  2: { unfold checkOpenAPIV3RefereunceObject.
       rewrite (bind_Ok _ _ _ _ _ (get_obj lp op "$ref" s El)). reflexivity. }
  by rewrite Hr.
Qed.

Lemma mapM_unbound_throws (pre post : list val) (lp : loc) (op : object)
    (r : string) (s : state) :
  Forall (inline_parameter (st_heap s)) pre →
  st_heap s !! lp = Some op → prop op "$ref" = VStr r →
  mapM resolveOpenAPIV3Object_unbound (pre ++ VObj lp :: post) s
  = Throw (TypeError "Cannot read property resolver of undefined") s.
Proof.
  intros Hpre El Hr. induction Hpre as [|q pre Hq _ IH]; cbn [app mapM].
  - by rewrite (bind_Throw _ _ _ _ _ (unbound_reference lp op r s El Hr)).
  - rewrite (bind_Ok _ _ _ _ _ (unbound_inline q s Hq)).
    by rewrite (bind_Throw _ _ _ _ _ IH).
Qed.

Lemma inline_parameter_app (h k : heap) (q : val) :
  inline_parameter h q → inline_parameter (h ++ k) q.
Proof.
  intros (lq & oq & -> & El & Ht). exists lq, oq.
  split; [done|]. split; [by apply lookup_app_l_Some|done].
Qed.

(** X20: An operation with a parameter given by reference cannot be
    synthesised: [resolveOpenAPIV3Object] is handed to [map] without its
    receiver, so resolving the first parameter that has a [$ref] string
    reads [this.resolver] of [undefined], and
    [resolveOpenAPIV3SchemaContentObject] throws a [TypeError], whatever
    schema the reference names, after it has allocated the request
    wrapper. *)
Theorem resolveOpenAPIV3SchemaContentObject_reference_parameter (schema : Schema)
    (l lp : loc) (o op : object) (pre post : list val) (r : string) (s : state) :
  st_heap s !! l = Some o →
  prop o "parameters" = VArr (pre ++ VObj lp :: post) →
  Forall (inline_parameter (st_heap s)) pre →
  st_heap s !! lp = Some op → prop op "$ref" = VStr r →
  ∃ s', resolveOpenAPIV3SchemaContentObject schema (VObj l) s
        = Throw (TypeError "Cannot read property resolver of undefined") s'
        ∧ st_schemas s' = st_schemas s ∧ st_calls s' = st_calls s.
Proof.
  intros El Hp Hpre Elp Hr.
  unfold resolveOpenAPIV3SchemaContentObject. cbv zeta.
  erewrite bind_Ok; [|reflexivity].
  erewrite bind_Ok; [|reflexivity].
  set (s2 := set_heap _ (set_heap _ s)).
  assert (Hh : st_heap s2 = st_heap s ++ [Object [] false;
                 Object [("properties", VObj (length (st_heap s)));
                         ("required", VArr []); ("type", VStr "object")] false]).
  { subst s2. rsimpl. by rewrite <- app_assoc. }
  assert (El2 : st_heap s2 !! l = Some o) by (rewrite Hh; by apply lookup_app_l_Some).
  rewrite (bind_Ok _ _ _ _ _ (get_obj l o "parameters" s2 El2)). rewrite Hp.
  cbn [truthy the_array]. exists s2. split; [|done].
  erewrite bind_Throw; [reflexivity|].
  rewrite mret_bind. erewrite bind_Throw; [reflexivity|].
  apply (mapM_unbound_throws pre post lp op r s2).
  - rewrite Hh. eapply Forall_impl; [exact Hpre|]. intros q. apply inline_parameter_app.
  - rewrite Hh. by apply lookup_app_l_Some.
  - done.
Qed.

End reference_parameters.

(** X20, witness: an operation whose only parameter is a reference. *)
Lemma resolveOpenAPIV3SchemaContentObject_reference_parameter_witness :
  let s := heap_state [Object [("$ref", VStr "#/components/parameters/id")] false;
                       Object [("parameters", VArr [VObj 0])] true] in
  ∃ s', resolveOpenAPIV3SchemaContentObject (ext := sample) (schema_at 1) (VObj 1) s
        = Throw (TypeError "Cannot read property resolver of undefined") s'.
Proof.
  intros s.
  destruct (resolveOpenAPIV3SchemaContentObject_reference_parameter (ext := sample)
              (schema_at 1) 1 0 _ _ [] [] "#/components/parameters/id" s
              eq_refl eq_refl (Forall_nil_2 _) eq_refl eq_refl) as (s' & E & _).
  by exists s'.
Defined.

Lemma for_of_app {A} (xs ys : list A) (body : A → M unit) (s : state) :
  for_of (xs ++ ys) body s = (for_of xs body;; for_of ys body) s.
Proof.
  revert s. induction xs as [|x xs IH]; intros s; cbn [for_of app]; [done|].
  unfold mbind, M_bind. destruct (body x s) as [[] s1|e s1|]; [|done..].
  apply IH.
Qed.

Lemma bind_assoc_at {A B C} (m : M A) (f : A → M B) (g : B → M C) (s : state) :
  ((m ≫= f) ≫= g) s = (m ≫= λ a, f a ≫= g) s.
Proof. unfold mbind, M_bind. by destruct (m s). Qed.

Section visits.
Context {ext : Externals}.

Lemma play_app (vs ws : list visit) (s : state) :
  play (vs ++ ws) s = (play vs;; play ws) s.
Proof. apply for_of_app. Qed.

Lemma play_app_bind {B} (vs ws : list visit) (f : unit → M B) (s : state) :
  (play (vs ++ ws) ≫= f) s = (play vs ≫= λ _, play ws ≫= f) s.
Proof.
  unfold mbind at 1, M_bind at 1. rewrite play_app. unfold mbind, M_bind.
  by destruct (play vs s).
Qed.

Lemma play_cons_bind {B} (v : visit) (vs : list visit) (f : unit → M B) (s : state) :
  (play (v :: vs) ≫= f) s = (perform v ≫= λ _, play vs ≫= f) s.
Proof. apply (bind_assoc_at (perform v)). Qed.

Lemma walk_body_visits (fuel : nat)
    (rec : list (string * node) → M (list (string * node)))
    (below : list (string * node) → list visit)
    (map : list (string * node)) (K : list string) (key : string) (n : node)
    (s : state) :
  (∀ c s1, map_distinct c → rec c s1 = (play (below c);; mret (unmark_map c)) s1) →
  map_distinct map → assoc_get key map = Some n → key ∉ K →
  walk_body fuel rec (unmarked_at K map) key s
  = (play (node_visits below fuel key n);;
     mret (unmarked_at (K ++ [key]) map)) s.
Proof.
  intros Hrec [Hnd Hwf] Hn HK. unfold walk_body.
  rewrite (unmarked_at_get K map key HK), Hn.
  destruct n as [marker children]. cbn [node_visits].
  rewrite <- (unmarked_at_set K map key _ Hnd Hn), unmark_eq.
  assert (Hc : map_distinct children).
  { apply (keys_distinct_eq marker). rewrite Forall_forall in Hwf.
    apply (Hwf (key, Node marker children)). by apply assoc_get_elem. }
  rewrite play_app_bind.
  apply bind_ext_at.
  { destruct marker as [schema|]; [|done]. cbn [play for_of perform].
    unfold mbind, M_bind. by destruct (walkSchema fuel schema s) as [[] ?| |]. }
  intros [] s1 _.
  destruct children as [|kc children]; [done|].
  rewrite play_cons_bind. cbn [perform]. rewrite !bind_assoc_at.
  apply bind_ext_at; [done|]. intros [] s2 _.
  rewrite bind_assoc_at, play_app_bind.
  unfold mbind at 1, M_bind at 1. rewrite Hrec by done.
  unfold mbind, M_bind. destruct (play _ s2) as [[] s3| |]; [|done..].
  cbn [play for_of perform mret M_ret]. unfold emit, modify. done.
Qed.

Lemma fold_walk_visits (fuel : nat)
    (rec : list (string * node) → M (list (string * node)))
    (below : list (string * node) → list visit)
    (map : list (string * node)) (keys : list string) :
  (∀ c s1, map_distinct c → rec c s1 = (play (below c);; mret (unmark_map c)) s1) →
  map_distinct map →
  ∀ K s,
    NoDup (K ++ keys) → (∀ k, k ∈ keys → k ∈ map.*1) →
    fold_of keys (unmarked_at K map) (walk_body fuel rec) s
    = (play (concat ((λ key, match assoc_get key map with
                             | Some n => node_visits below fuel key n
                             | None => []
                             end) <$> keys));;
       mret (unmarked_at (K ++ keys) map)) s.
Proof.
  intros Hrec Hmap. induction keys as [|key keys IH]; intros K s Hnd Hin.
  - cbn. by rewrite app_nil_r.
  - cbn [fold_of fmap list_fmap concat].
    apply NoDup_app in Hnd as (HK & Hdisj & Hkeys).
    destruct (assoc_get_key key map) as [n Hn]; [apply Hin; by left|].
    rewrite Hn, play_app_bind.
    erewrite bind_ext_at;
      [|apply (walk_body_visits fuel rec below map K key n); try done;
        intros Hk; apply (Hdisj key Hk); by left
       |reflexivity].
    rewrite bind_assoc_at. apply bind_ext_at; [done|]. intros [] s1 _.
    rewrite mret_bind.
    replace (K ++ key :: keys) with ((K ++ [key]) ++ keys)
      by (by rewrite <- app_assoc).
    apply IH.
    + rewrite <- app_assoc. apply NoDup_app. repeat split; done.
    + intros k Hk. apply Hin. by right.
Qed.

(** The walk of a tree whose nodes have distinct keys is the sequence of
    its visits, and it returns the tree without its markers. *)
Lemma walk_visits (fuel : nat) (map : list (string * node)) (s : state) :
  map_distinct map →
  walk fuel map s = (play (visits fuel map);; mret (unmark_map map)) s.
Proof.
  revert map s. induction fuel as [|fuel IH]; intros map s Hd; [done|].
  rewrite walk_unfold. cbn [visits].
  destruct (sorted_keys_sorted map) as [_ Hperm].
  replace (fold_of (sorted_keys map) map)
    with (fold_of (sorted_keys map) (unmarked_at [] map))
    by (by rewrite unmarked_at_nil).
  rewrite (fold_walk_visits fuel (walk fuel) (visits fuel) map (sorted_keys map)).
  - unfold mbind, M_bind. destruct (play _ s); [|done..]. cbn.
    f_equal. apply unmarked_at_all. intros k Hk. by rewrite Hperm.
  - intros c s1 Hc. by apply IH.
  - done.
  - rewrite app_nil_l, Hperm. apply Hd.
  - intros k Hk. by rewrite <- Hperm.
Qed.

End visits.







Section builders.
Context {ext : Externals}.






End builders.


(** ** The schemas the walk declares *)

Lemma concat_fmap_Permutation {A B} (f : A → list B) (l l' : list A) :
  l ≡ₚ l' → concat (f <$> l) ≡ₚ concat (f <$> l').
Proof.
  induction 1 as [|x l l' _ IH|x y l|l1 l2 l3 _ IH1 _ IH2]; cbn.
  - done.
  - by rewrite IH.
  - rewrite !app_assoc. f_equiv. apply Permutation_app_comm.
  - by etrans.
Qed.

Lemma concat_fmap_pointwise {A B} (f g : A → list B) (l : list A) :
  (∀ x, x ∈ l → f x ≡ₚ g x) → concat (f <$> l) ≡ₚ concat (g <$> l).
Proof.
  induction l as [|x l IH]; intros H; cbn; [done|].
  rewrite (H x) by (by left). f_equiv. apply IH. intros y Hy. apply H. by right.
Qed.

Lemma omap_concat {A B} (f : A → option B) (ls : list (list A)) :
  omap (M := list) f (concat ls) = concat ((λ l, omap (M := list) f l) <$> ls).
Proof.
  induction ls as [|l ls IH]; cbn; [done|]. by rewrite omap_app, IH.
Qed.

Lemma elem_of_concat_2 {A} (x : A) (l : list A) (ls : list (list A)) :
  x ∈ l → l ∈ ls → x ∈ concat ls.
Proof.
  intros Hx. induction ls as [|l0 ls IH]; [by intros ?%elem_of_nil|].
  cbn. intros [->|Hl]%elem_of_cons; apply elem_of_app; [by left|].
  right. by apply IH.
Qed.

Lemma markers_eq (marker : option Schema) (children : list (string * node)) :
  markers (Node marker children) = option_list marker ++ map_markers children.
Proof.
  cbn [markers]. f_equal. unfold map_markers.
  induction children as [|[k c] l IH]; [done|]. cbn. by rewrite IH.
Qed.

Lemma assoc_get_NoDup {A} (k : string) (v : A) (l : list (string * A)) :
  NoDup l.*1 → (k, v) ∈ l → assoc_get k l = Some v.
Proof.
  induction l as [|[k0 v0] l IH]; [by intros _ ?%elem_of_nil|]. cbn.
  intros [Hk0 Hd]%NoDup_cons [[= -> ->]|Hin]%elem_of_cons;
    [by rewrite String.eqb_refl|].
  destruct (String.eqb_spec k0 k) as [->|]; [|by apply IH].
  destruct Hk0. apply list_elem_of_fmap. by exists (k, v).
Qed.

Section declared.
Context {ext : Externals}.

Lemma play_not_exhausted (vs : list visit) (s s' : state) :
  play vs s = Ok tt s' → Exhausted ∉ vs.
Proof.
  revert s. induction vs as [|v vs IH]; intros s; [by intros _ ?%elem_of_nil|].
  cbn [play for_of]. intros ([] & s1 & Hv & Hvs)%bind_Ok_inv.
  intros [<-|Hin]%elem_of_cons; [done|]. by eapply IH.
Qed.

Lemma visits_declared (fuel : nat) (map : list (string * node)) :
  map_distinct map → Exhausted ∉ visits fuel map →
  omap declared (visits fuel map) ≡ₚ map_markers map.
Proof.
  revert map. induction fuel as [|fuel IH]; intros map [Hnd Hwf] Hex.
  { destruct Hex. by left. }
  cbn [visits] in *. rewrite omap_concat, <- list_fmap_compose.
  destruct (sorted_keys_sorted map) as [_ Hperm].
  assert (Hin : ∀ key, key ∈ map.*1 →
            Exhausted ∉ match assoc_get key map with
                        | Some n => node_visits (visits fuel) fuel key n
                        | None => []
                        end).
  { intros key Hkey Hx. apply Hex. eapply elem_of_concat_2; [exact Hx|].
    apply list_elem_of_fmap. exists key. split; [done|]. by rewrite Hperm. }
  rewrite (concat_fmap_Permutation _ _ _ Hperm).
  unfold map_markers. rewrite <- list_fmap_compose.
  apply concat_fmap_pointwise. intros [k [marker children]] Hkc.
  unfold compose. cbn [fst snd].
  assert (Hk : k ∈ map.*1) by (apply list_elem_of_fmap; by eexists (_, _)).
  specialize (Hin k Hk). rewrite (assoc_get_NoDup _ _ _ Hnd Hkc) in Hin |- *.
  cbn [node_visits] in *. rewrite omap_app, markers_eq. f_equiv.
  { by destruct marker. }
  rewrite Forall_forall in Hwf.
  pose proof (proj1 (keys_distinct_eq marker children) (Hwf _ Hkc)) as Hc.
  destruct children as [|kc children]; [done|].
  cbn [omap list_omap declared]. rewrite omap_app. cbn. rewrite app_nil_r.
  apply IH; [done|]. intros Hx. apply Hin.
  apply elem_of_app. right. right. apply elem_of_app. by left.
Qed.

(** X11: A walk that returns has consumed every marker, and has handed the
    schema under each marker to [walkSchema] once: it has performed the
    visits of the tree, one after the other; the schemas these declare are
    the schemas under the markers of the tree, each as often as the tree
    holds it; and the tree the walk leaves is the tree it was given
    without its markers, at every level, so that a second walk would emit
    no schema. *)
Theorem walk_consumes_markers (fuel : nat) (map map' : list (string * node))
    (s s' : state) :
  map_distinct map →
  walk fuel map s = Ok map' s' →
  map' = unmark_map map
  ∧ play (visits fuel map) s = Ok tt s'
  ∧ omap declared (visits fuel map) ≡ₚ map_markers map.
Proof.
  intros Hd. rewrite (walk_visits fuel map s Hd).
  intros ([] & s1 & Hp & [= <- <-])%bind_Ok_inv.
  split; [done|]. split; [done|].
  apply visits_declared; [done|]. by eapply play_not_exhausted.
Qed.

End declared.

(** X11, witness: a tree of two marked nodes, one under the other. *)
Lemma walk_consumes_markers_witness :
  let s := (loaded leaf_example).2 in
  let map := [("b", Node (Some (schema_at 1)) [("c", Node (Some (schema_at 0)) [])])] in
  walk (ext := sample) 6 map s
  = Ok [("b", Node None [("c", Node None [])])]
       (run_state (walk (ext := sample) 6 map s))
  ∧ visits 6 map = [Generate 5 (schema_at 1); Enter "b"; Generate 4 (schema_at 0); Leave].
Proof.
  intros s map. split; [|by vm_compute].
  assert (E : walk (ext := sample) 6 map s
              = Ok (run_map (walk (ext := sample) 6 map s))
                   (run_state (walk (ext := sample) 6 map s)))
    by (vm_compute; reflexivity).
  assert (Hd : map_distinct map).
  { split; [apply NoDup_singleton|]. constructor; [|constructor].
    split; [apply NoDup_singleton|]. split; [|done].
    split; [apply NoDup_nil_2|done]. }
  rewrite E at 1.
  by rewrite (proj1 (walk_consumes_markers (ext := sample) 6 map _ s _ Hd E)).
Defined.


Section unknown_type.
Context {ext : Externals}.





End unknown_type.


Lemma val_beq_eq (x y : val) : val_beq x y = true ↔ x = y.
Proof.
  revert y. induction x as [| |b|n|s|vs IH|l] using val_ind';
    intros [| |b'|n'|s'|vs'|l']; cbn [val_beq];
    try (by split); try (rewrite bool_decide_eq_true; split; congruence).
  revert vs'. induction IH as [|x xs Hx _ IHxs]; intros [|y ys]; try (by split).
  rewrite andb_true_iff, Hx, IHxs. split; [by intros [-> [= ->]]|by intros [= -> ->]].
Qed.

Lemma existsb_val_beq (v : val) (acc : list val) :
  existsb (val_beq v) acc = true ↔ v ∈ acc.
Proof.
  rewrite existsb_exists. setoid_rewrite val_beq_eq. setoid_rewrite <- list_elem_of_In.
  split; [by intros (? & ? & ->)|by eauto].
Qed.

Lemma dedup_distinct : reduces_to_distinct_set dedup.
Proof.
  intros ts. unfold dedup.
  assert (H : ∀ acc, NoDup acc →
            distinct_set_of (acc ++ ts)
              (foldl (λ acc v, if existsb (val_beq v) acc then acc else acc ++ [v])
                 acc ts)).
  { induction ts as [|v ts IH]; intros acc Hacc; cbn [foldl].
    - rewrite app_nil_r. by split.
    - destruct (existsb (val_beq v) acc) eqn:E.
      + apply existsb_val_beq in E. destruct (IH acc Hacc) as [Hn Hm].
        split; [done|]. intros t. rewrite Hm, !elem_of_app, elem_of_cons.
        split; [tauto|]. intros [?|[->|?]]; tauto.
      + assert (v ∉ acc) by (rewrite <- existsb_val_beq; congruence).
        destruct (IH (acc ++ [v])) as [Hn Hm].
        { apply NoDup_app. repeat split; [done| |apply NoDup_singleton].
          by intros x Hx ->%list_elem_of_singleton. }
        split; [done|]. intros t. by rewrite Hm, <- app_assoc. }
  apply (H []). constructor.
Qed.

Lemma distinct_set_single (ts rs : list val) (t : val) :
  distinct_set_of ts rs → t ∈ ts → (∀ x, x ∈ ts → x = t) → rs = [t].
Proof.
  intros [Hn Hm] Ht Hall.
  destruct rs as [|r rs]; [by apply Hm in Ht; apply elem_of_nil in Ht|].
  assert (r = t) as -> by (apply Hall, Hm; by left).
  destruct rs as [|r' rs]; [done|].
  assert (r' = t) as -> by (apply Hall, Hm; right; by left).
  apply NoDup_cons in Hn as [Hn _]. destruct Hn. by left.
Qed.

Section type_reduction.
Context {ext : Externals}.

(** C8 (amended): let [o] be the object content of a schema as the folding
    of [allOf] leaves it, and let [reduceTypes] give the distinct set of an
    array.  [normalizeContent] returns the schema given, and changes [o] at
    its member [type] only: an array-valued [type] is replaced by its
    distinct set, unwrapped when exactly one entry remains, so that an
    array whose entries are all the same becomes that entry; [type] is set
    to ["object"] when it is undefined and [properties] or
    [additionalProperties] is truthy; in every other case it stays as it
    is. *)
Theorem C8_type_normalised (fuel : nat) (schema : Schema) (l : loc)
    (o : object) (s s1 : state) :
  reduces_to_distinct_set reduceTypes →
  s_content schema = VObj l →
  foldAllOf (λ ref, normalizeContent fuel ref None) (VObj l) s = Ok tt s1 →
  st_heap s1 !! l = Some o →
  ∃ o',
    normalizeContent (S fuel) schema None s = Ok schema (type_normalised l o s1)
    ∧ st_heap (type_normalised l o s1) !! l = Some o'
    ∧ (∀ k, k ≠ "type" → prop o' k = prop o k)
    ∧ (∀ ts, prop o "type" = VArr ts →
         (∃ rs, distinct_set_of ts rs
                ∧ prop o' "type" = match rs with [t] => t | _ => VArr rs end)
         ∧ ∀ t, t ∈ ts → (∀ x, x ∈ ts → x = t) → prop o' "type" = t)
    ∧ (prop o "type" = VUndef →
         prop o' "type"
         = if truthy (prop o "properties") || truthy (prop o "additionalProperties")
           then VStr "object" else VUndef)
    ∧ (isArray (prop o "type") = false → is_undefined (prop o "type") = false →
         prop o' "type" = prop o "type").
Proof.
  intros Hred Ec Ef El.
  assert (Erun : normalizeContent (S fuel) schema None s
                 = Ok schema (type_normalised l o s1)).
  { cbn [normalizeContent]. rewrite mret_bind. cbv zeta.
    rewrite Ec. rsimpl. rewrite bool_decide_eq_false_2 by done.
    erewrite bind_Ok; [|erewrite bind_Ok; [|exact Ef];
                        erewrite bind_Ok; [|by apply normalizeType_obj];
                        reflexivity].
    munfold. by rewrite with_content_same. }
  assert (Hset : ∀ v,
            st_heap (set_prop l "type" v o s1) !! l
            = Some (Object (assoc_set "type" v (props o)) (opSym o))).
  { intros v. unfold set_prop. rsimpl.
    apply list_lookup_insert_eq. by eapply lookup_lt_Some. }
  assert (Hother : ∀ v k, k ≠ "type" →
            prop (Object (assoc_set "type" v (props o)) (opSym o)) k = prop o k).
  { intros v k Hk. unfold prop. cbn [props]. by rewrite assoc_get_set_ne. }
  assert (Htype : ∀ v, prop (Object (assoc_set "type" v (props o)) (opSym o)) "type" = v).
  { intros v. unfold prop. cbn [props]. by rewrite assoc_get_set, String.eqb_refl. }
  unfold type_normalised in *.
  destruct (prop o "type") as [| |b|n|str|ts|lt] eqn:Et;
    try (exists o; repeat split; done).
  - destruct (truthy (prop o "properties") || truthy (prop o "additionalProperties")).
    + eexists. split; [exact Erun|]. split; [apply Hset|]. split; [apply Hother|].
      repeat split; try done; try (intros _; apply Htype).
    + exists o. repeat split; try done.
  - eexists. split; [exact Erun|]. split; [apply Hset|]. split; [apply Hother|].
    split; [|by split].
    intros ts' [= <-]. split.
    + exists (reduceTypes ts). split; [apply Hred|apply Htype].
    + intros t Ht Hall. rewrite Htype.
      by rewrite (distinct_set_single ts (reduceTypes ts) t (Hred ts) Ht Hall).
Qed.

End type_reduction.

(** C8, witness: [type: ["string", "string"]] becomes [type: "string"]. *)
Lemma C8_type_normalised_witness :
  normalizeContent (ext := sample) 1 (schema_at 0) None
    (heap_state [Object [("type", VArr [VStr "string"; VStr "string"])] false])
  = Ok (schema_at 0) (heap_state [Object [("type", VStr "string")] false]).
Proof.
  destruct (C8_type_normalised (ext := sample) 0 (schema_at 0) 0
              (Object [("type", VArr [VStr "string"; VStr "string"])] false)
              (heap_state [Object [("type", VArr [VStr "string"; VStr "string"])] false])
              (heap_state [Object [("type", VArr [VStr "string"; VStr "string"])] false])
              dedup_distinct eq_refl eq_refl eq_refl) as (o' & Hrun & _).
  exact Hrun.
Defined.












#[global] Instance member_eq_dec : EqDecision member.
Proof. solve_decision. Defined.


















Section allOf_members.
Context {ext : Externals}.





End allOf_members.

Section allOf_fold.
Context {ext : Externals}.



End allOf_fold.


Section allOf_folded.
Context {ext : Externals}.



End allOf_folded.

